(** * StreamShred: streaming overwrite, sampled verification and deletion

    A shallow embedding of [src/tools/StreamShred.py] and the proofs of the
    properties its specification states about it.

    Layout of the development:
    - Python values: integers are [Z], [bytes]/[bytearray] are [list byte],
      slices follow CPython's index adjustment;
    - the outside world (directory entries, the entropy source, the
      operator's terminal, the device's misbehaviour) is a record threaded
      through a state-and-exception monad;
    - every function of the source is a definition of the same name;
    - the theorems come last. *)

From Stdlib Require Import ZArith Lia.
From Stdlib Require Import Init.Byte Strings.Ascii Strings.String.
From Stdlib Require Strings.Byte.
From stdpp Require Import base tactics option list strings countable gmap fin_maps.

Local Open Scope Z_scope.

(* ===================================================================== *)
(** ** Python values *)
(* ===================================================================== *)

(** [bytes] and [bytearray] objects. Two distinct Python objects are two
    distinct Rocq values; the source never aliases its buffers. *)
#[global] Instance byte_eq_dec : EqDecision byte := Byte.byte_eq_dec.

Abbreviation bytes := (list byte) (only parsing).
Abbreviation bytearray := (list byte) (only parsing).

(** [len(x)] as a Python integer. *)
Definition len {A : Type} (l : list A) : Z := Z.of_nat (length l).

(** CPython's adjustment of one slice bound for a sequence of length [n]
    (step 1): a negative bound counts from the end, and the outcome is
    clamped to [0, n]. *)
Definition adjust_index (n i : Z) : Z :=
  if i <? 0 then Z.max 0 (i + n) else Z.min i n.

(** [l[lo:hi]] *)
Definition getslice {A : Type} (l : list A) (lo hi : Z) : list A :=
  let lo' := adjust_index (len l) lo in
  let hi' := adjust_index (len l) hi in
  take (Z.to_nat (hi' - lo')) (drop (Z.to_nat lo') l).

(** [l[lo:hi] = v] on a [bytearray]: the slice is replaced by [v], whatever
    the length of [v]; an empty or inverted slice inserts at [lo]. *)
Definition setslice {A : Type} (l : list A) (lo hi : Z) (v : list A) : list A :=
  let lo' := adjust_index (len l) lo in
  let hi' := Z.max lo' (adjust_index (len l) hi) in
  take (Z.to_nat lo') l ++ v ++ drop (Z.to_nat hi') l.

(** [b * n] for a one-byte [bytes] object [b]: empty when [n <= 0]. *)
Definition bytes_mul (b : byte) (n : Z) : bytes := replicate (Z.to_nat n) b.

(* ===================================================================== *)
(** ** Exceptions and outcomes *)
(* ===================================================================== *)

(** A pure path, as [pathlib] splits it: the anchor (root or drive, empty
    for a relative path) and the components below it. *)
Record Path := mkPath { anchor : string; parts : list string }.

#[global] Instance path_eq_dec : EqDecision Path.
Proof. solve_decision. Defined.

#[global] Instance path_countable : Countable Path.
Proof.
  refine (inj_countable' (fun p => (anchor p, parts p))
                         (fun t => mkPath t.1 t.2) _).
  by intros [].
Defined.

(** The [errno] of an [OSError]. [ENOENT] is Python's [FileNotFoundError],
    [EISDIR] its [IsADirectoryError], [EACCES] its [PermissionError]. *)
Inductive errno := ENOENT | EISDIR | ENOTDIR | EACCES | ENOSPC | EIO | EINVAL.

(** The texts of the [RuntimeError]s the source raises, with the values
    its f-strings interpolate. *)
Inductive runtime_msg :=
| CaptureFailed
    (* "Internal verification capture failed (sample not fully captured)." *)
| VerificationFailed (pass : Z) (sample : Z) (at_offset : Z)
    (* "Verification failed on pass {p}: sample {i + 1} mismatch at offset {s.offset}" *)
| SymlinkRefused (target : Path)
    (* "Refusing to wipe a symlink: {file_path}" *).

Inductive value_msg :=
| InvalidPassBounds        (* ValueError("Invalid pass bounds") *)
| NegativeCount            (* a negative size given to bytearray / token_bytes *)
| NonPositiveBound         (* randbelow of a bound that is not positive *)
| EmptyName (p : Path)     (* with_name on a path that has no name *).

(** The exceptions of the program. [OSError e] is what a failed system call
    raises (Python picks the subclass by [errno]); [FileNotFoundError p] and
    [IsADirectoryError p] are the two the program constructs itself, from
    the path it refuses. *)
Inductive exn :=
| OSError (e : errno)
| FileNotFoundError (p : Path)
| IsADirectoryError (p : Path)
| RuntimeError (m : runtime_msg)
| ValueError (m : value_msg)
| ZeroDivisionError
| IndexError
| EOFError.

#[global] Instance errno_eq_dec : EqDecision errno.
Proof. solve_decision. Defined.
#[global] Instance runtime_msg_eq_dec : EqDecision runtime_msg.
Proof. solve_decision. Defined.
#[global] Instance value_msg_eq_dec : EqDecision value_msg.
Proof. solve_decision. Defined.
#[global] Instance exn_eq_dec : EqDecision exn.
Proof. solve_decision. Defined.

(** What running a piece of the program yields: a value, a raised
    exception, or [OutOfFuel] when the bound put on a [while] loop was
    reached before the loop ended. *)
Inductive result (A : Type) :=
| Ok (a : A)
| Raise (e : exn)
| OutOfFuel.
Arguments Ok {A} a.
Arguments Raise {A} e.
Arguments OutOfFuel {A}.

(* ===================================================================== *)
(** ** Verification sampling: the data and the overlap tracker *)
(* ===================================================================== *)

Record Sample := mkSample { offset : Z; length : Z }.

#[global] Instance Sample_eq_dec : EqDecision Sample.
Proof. solve_decision. Defined.

(** The body of [for i, s in enumerate(samples)] in
    [capture_expected_from_chunk]; [i] is the index [enumerate] has
    reached. [expected[i]] and [filled[i]] raise [IndexError] past the end
    of the list. *)
Fixpoint capture_loop (i : nat) (samples : list Sample)
    (expected filled : list bytearray) (chunk_data : bytes) (chunk_start : Z)
    : result (list bytearray * list bytearray) :=
  match samples with
  | [] => Ok (expected, filled)
  | s :: rest =>
      let chunk_end := chunk_start + len chunk_data in
      let s_start := offset s in
      let s_end := offset s + length s in
      if (s_end <=? chunk_start) || (s_start >=? chunk_end) then
        capture_loop (S i) rest expected filled chunk_data chunk_start
      else
        let overlap_start := Z.max s_start chunk_start in
        let overlap_end := Z.min s_end chunk_end in
        let sample_i0 := overlap_start - s_start in
        let sample_i1 := overlap_end - s_start in
        let chunk_i0 := overlap_start - chunk_start in
        let chunk_i1 := overlap_end - chunk_start in
        match expected !! i with
        | None => Raise IndexError
        | Some e =>
            let expected' :=
              <[i := setslice e sample_i0 sample_i1
                       (getslice chunk_data chunk_i0 chunk_i1)]> expected in
            match filled !! i with
            | None => Raise IndexError
            | Some m =>
                let filled' :=
                  <[i := setslice m sample_i0 sample_i1
                           (bytes_mul x01 (sample_i1 - sample_i0))]> filled in
                capture_loop (S i) rest expected' filled' chunk_data chunk_start
            end
        end
  end.

Definition capture_expected_from_chunk (samples : list Sample)
    (expected filled : list bytearray) (chunk_data : bytes) (chunk_start : Z)
    : result (list bytearray * list bytearray) :=
  capture_loop 0 samples expected filled chunk_data chunk_start.

(** [all(b == 1 for b in mask)] *)
Definition all_filled (mask : bytearray) : bool :=
  forallb (fun b => Byte.eqb b x01) mask.

(* ===================================================================== *)
(** ** The outside world *)
(* ===================================================================== *)

(** A directory entry. Entries are keyed by their full path; a directory's
    descendants are entries of their own. A symbolic link stores the path
    it points to. *)
Inductive node :=
| File (content : bytes)
| Dir
| Symlink (target : Path).

#[global] Instance node_eq_dec : EqDecision node.
Proof. solve_decision. Defined.

(** What the device or the operating system does, unasked, when the program
    issues its next system call: nothing, fail the call with an [errno], or
    alter one stored byte of a file before the call is served (a hardware
    fault, a remapped block). *)
Inductive env_action :=
| Quiet
| Fail (e : errno)
| Corrupt (p : Path) (at_index : nat) (b : byte).

(** The system calls the program issues, with their arguments. *)
Inductive op :=
| OpStat (p : Path)
| OpOpen (p : Path)
| OpSeek (p : Path) (off : Z)
| OpWrite (p : Path) (off : Z) (data : bytes)
| OpFlush (p : Path)
| OpFsync (p : Path)
| OpFadvise (p : Path) (off n : Z)
| OpRead (p : Path) (off n : Z)
| OpTruncate (p : Path) (size : Z)
| OpClose (p : Path)
| OpRename (src dst : Path)
| OpUnlink (p : Path)
| OpOpenDir (d : Path)
| OpFsyncDir (d : Path)
| OpCloseDir (d : Path).

(** The lines the program prints, with the values they interpolate. *)
Inductive message :=
| MsgPassComplete (p passes : Z) (verified : bool)
| MsgTarget (p : Path)
| MsgDestructive
| MsgAborted
| MsgPlan (size passes chunk : Z)
| MsgZeroBytes
| MsgKept (final : Path)
| MsgDeleted
| MsgFailedOn (p : Path) (e : exn).

Inductive event :=
| Done (o : op)
| Failed (o : op) (e : errno)
| Print (m : message)
| Input (answer : string).

(** The platform the program runs on: [os.name == "posix"], whether [os]
    has [posix_fadvise] and [POSIX_FADV_DONTNEED], and the page size. *)
Record platform := Platform {
  os_posix : bool;
  has_fadvise : bool;
  page_size : Z
}.

Record world := World {
  fs : gmap Path node;          (* the directory entries *)
  env : list env_action;        (* one action per system call to come; Quiet once exhausted *)
  tape : list Z;                (* what the entropy source will deliver; 0 once exhausted *)
  stdin : list string;          (* the lines the operator will type *)
  log : list event;             (* what has happened, newest first *)
  plat : platform
}.

Definition set_fs (m : gmap Path node) (w : world) : world :=
  World m (env w) (tape w) (stdin w) (log w) (plat w).
Definition set_env (e : list env_action) (w : world) : world :=
  World (fs w) e (tape w) (stdin w) (log w) (plat w).
Definition set_tape (t : list Z) (w : world) : world :=
  World (fs w) (env w) t (stdin w) (log w) (plat w).
Definition set_stdin (i : list string) (w : world) : world :=
  World (fs w) (env w) (tape w) i (log w) (plat w).
Definition add_log (e : event) (w : world) : world :=
  World (fs w) (env w) (tape w) (stdin w) (e :: log w) (plat w).

(* ===================================================================== *)
(** ** The monad of the program: state and exceptions *)
(* ===================================================================== *)

Definition M (A : Type) : Type := world -> result A * world.

Definition ret {A : Type} (a : A) : M A := fun w => (Ok a, w).

Definition raise {A : Type} (e : exn) : M A := fun w => (Raise e, w).

Definition out_of_fuel {A : Type} : M A := fun w => (OutOfFuel, w).

Definition bind {A B : Type} (m : M A) (k : A -> M B) : M B :=
  fun w =>
    match m w with
    | (Ok a, w') => k a w'
    | (Raise e, w') => (Raise e, w')
    | (OutOfFuel, w') => (OutOfFuel, w')
    end.

Notation "'let*' x ':=' c1 'in' c2" := (bind c1 (fun x => c2))
  (at level 10, x pattern, c1 at level 100, c2 at level 200).

(** A pure computation that may raise, run inside the monad. *)
Definition lift {A : Type} (r : result A) : M A := fun w => (r, w).

(** [try: m except Exception: pass] *)
Definition try_pass (m : M unit) : M unit :=
  fun w =>
    match m w with
    | (Raise _, w') => (Ok tt, w')
    | other => other
    end.

(** [try: m finally: h]: [h] runs whatever [m] did; an exception of [h]
    replaces that of [m]. *)
Definition try_finally {A : Type} (m : M A) (h : M unit) : M A :=
  fun w =>
    match m w with
    | (OutOfFuel, w') => (OutOfFuel, w')
    | (r, w') =>
        match h w' with
        | (Ok _, w'') => (r, w'')
        | (Raise e, w'') => (Raise e, w'')
        | (OutOfFuel, w'') => (OutOfFuel, w'')
        end
    end.

Definition print (m : message) : M unit :=
  fun w => (Ok tt, add_log (Print m) w).

(* ===================================================================== *)
(** ** The entropy source: the [secrets] module *)
(* ===================================================================== *)

(** The next value of the entropy source. *)
Definition draw : M Z :=
  fun w =>
    match tape w with
    | [] => (Ok 0, w)
    | z :: t => (Ok z, set_tape t w)
    end.

(** [secrets.randbelow(k)]: a value of [0, k), or [ValueError] when [k] is
    not positive. *)
Definition randbelow (k : Z) : M Z :=
  if k <=? 0 then raise (ValueError NonPositiveBound)
  else let* z := draw in ret (z mod k).

Definition byte_of_Z (z : Z) : byte :=
  match Byte.of_N (Z.to_N (z mod 256)) with
  | Some b => b
  | None => x00
  end.

Fixpoint draw_bytes (n : nat) : M bytes :=
  match n with
  | O => ret []
  | S n' =>
      let* z := draw in
      let* rest := draw_bytes n' in
      ret (byte_of_Z z :: rest)
  end.

(** [secrets.token_bytes(n)] *)
Definition token_bytes (n : Z) : M bytes :=
  if n <? 0 then raise (ValueError NegativeCount)
  else draw_bytes (Z.to_nat n).

Definition hex_digit (n : N) : ascii :=
  match n with
  | 0 => "0" | 1 => "1" | 2 => "2" | 3 => "3" | 4 => "4" | 5 => "5"
  | 6 => "6" | 7 => "7" | 8 => "8" | 9 => "9" | 10 => "a" | 11 => "b"
  | 12 => "c" | 13 => "d" | 14 => "e" | _ => "f"
  end%N%char.

Fixpoint hex_of_bytes (l : bytes) : string :=
  match l with
  | [] => EmptyString
  | b :: rest =>
      let n := Byte.to_N b in
      String (hex_digit (n / 16)) (String (hex_digit (n mod 16)) (hex_of_bytes rest))
  end.

(** [secrets.token_hex(nbytes)] *)
Definition token_hex (nbytes : Z) : M string :=
  let* b := token_bytes nbytes in ret (hex_of_bytes b).

Definition rand_name_hex (nbytes : Z) : M string := token_hex nbytes.

(* ===================================================================== *)
(** ** Paths: the part of [pathlib] the program uses *)
(* ===================================================================== *)

(** [p.name]: the last component, empty for a bare anchor or for ".". *)
Definition name (p : Path) : string := default EmptyString (last (parts p)).

(** [p.parent] *)
Definition parent (p : Path) : Path := mkPath (anchor p) (removelast (parts p)).

(** [p.with_name(n)]: [ValueError] when [p] has an empty name. The names
    the program passes are 32 hexadecimal digits, always accepted. *)
Definition with_name (p : Path) (n : string) : result Path :=
  if decide (name p = EmptyString) then Raise (ValueError (EmptyName p))
  else Ok (mkPath (anchor p) (removelast (parts p) ++ [n])).

(** What [stat] sees at [p]: symbolic links are followed, at most [hops]
    of them. *)
Fixpoint resolve (hops : nat) (m : gmap Path node) (p : Path) : option (Path * node) :=
  match m !! p with
  | None => None
  | Some (Symlink t) =>
      match hops with
      | O => None
      | S h => resolve h m t
      end
  | Some n => Some (p, n)
  end.

(** The number of links the kernel follows before giving up. *)
Definition max_hops : nat := 40.

(** [Path.exists()], [Path.is_dir()] and [Path.is_symlink()]. The first two
    go through [stat] and follow symbolic links, the third uses [lstat] and
    looks at the entry itself. All three answer [False] where the call
    fails, so none of them raises. *)
Definition path_exists (p : Path) : M bool :=
  fun w => (Ok (bool_decide (is_Some (resolve max_hops (fs w) p))), w).

Definition path_is_dir (p : Path) : M bool :=
  fun w =>
    (Ok match resolve max_hops (fs w) p with
        | Some (_, Dir) => true
        | _ => false
        end, w).

Definition path_is_symlink (p : Path) : M bool :=
  fun w =>
    (Ok match fs w !! p with
        | Some (Symlink _) => true
        | _ => false
        end, w).

(* ===================================================================== *)
(** ** System calls *)
(* ===================================================================== *)

(** The environment's interference with the stored bytes. *)
Definition disturb (a : env_action) (m : gmap Path node) : gmap Path node :=
  match a with
  | Corrupt p i b =>
      match m !! p with
      | Some (File c) => <[p := File (<[i := b]> c)]> m
      | _ => m
      end
  | _ => m
  end.

(** One system call [o] whose effect on the directory entries is [sem]. The
    environment acts first; the call is logged with its outcome. *)
Definition syscall {A : Type} (o : op)
    (sem : gmap Path node -> errno + (A * gmap Path node)) : M A :=
  fun w =>
    let a := hd Quiet (env w) in
    let w1 := set_env (tl (env w)) w in
    match a with
    | Fail e => (Raise (OSError e), add_log (Failed o e) w1)
    | _ =>
        match sem (disturb a (fs w)) with
        | inl e => (Raise (OSError e), add_log (Failed o e) (set_fs (disturb a (fs w)) w1))
        | inr (x, m') => (Ok x, add_log (Done o) (set_fs m' w1))
        end
    end.

(** An open file object: the entry it was opened on and its position. *)
Record file := mkFile { f_path : Path; f_pos : Z }.

(** [path.stat().st_size]. A directory reports the size of one block. *)
Definition stat_size (p : Path) : M Z :=
  syscall (OpStat p) (fun m =>
    match resolve max_hops m p with
    | Some (_, File c) => inr (len c, m)
    | Some (_, Dir) => inr (4096, m)
    | _ => inl ENOENT
    end).

(** [open(p, "r+b", buffering=0)]: the file must exist; links are followed. *)
Definition open_rw (p : Path) : M file :=
  syscall (OpOpen p) (fun m =>
    match resolve max_hops m p with
    | Some (q, File _) => inr (mkFile q 0, m)
    | Some (_, Dir) => inl EISDIR
    | _ => inl ENOENT
    end).

(** [f.seek(off)] *)
Definition seek (f : file) (off : Z) : M file :=
  syscall (OpSeek (f_path f) off) (fun m =>
    if off <? 0 then inl EINVAL else inr (mkFile (f_path f) off, m)).

(** The content of a file after [data] is written at position [pos]; a
    position past the end leaves a gap of zero bytes. *)
Definition write_at (c : bytes) (pos : Z) (data : bytes) : bytes :=
  let c' := c ++ replicate (Z.to_nat (pos - len c)) x00 in
  take (Z.to_nat pos) c' ++ data ++ drop (Z.to_nat (pos + len data)) c'.

(** [f.write(data)]: all of [data] is written at the position. *)
Definition write (f : file) (data : bytes) : M file :=
  syscall (OpWrite (f_path f) (f_pos f) data) (fun m =>
    match m !! f_path f with
    | Some (File c) =>
        inr (mkFile (f_path f) (f_pos f + len data),
             <[f_path f := File (write_at c (f_pos f) data)]> m)
    | _ => inl EIO
    end).

(** The bytes [f.read(n)] returns at position [pos]: at most [n], all the
    rest when [n] is negative. *)
Definition read_at (c : bytes) (pos n : Z) : bytes :=
  if n <? 0 then drop (Z.to_nat pos) c
  else take (Z.to_nat n) (drop (Z.to_nat pos) c).

(** [f.read(n)] *)
Definition read (f : file) (n : Z) : M (file * bytes) :=
  syscall (OpRead (f_path f) (f_pos f) n) (fun m =>
    match m !! f_path f with
    | Some (File c) =>
        let got := read_at c (f_pos f) n in
        inr ((mkFile (f_path f) (f_pos f + len got), got), m)
    | _ => inl EIO
    end).

(** [f.truncate(size)] *)
Definition truncate (f : file) (size : Z) : M unit :=
  syscall (OpTruncate (f_path f) size) (fun m =>
    if size <? 0 then inl EINVAL else
    match m !! f_path f with
    | Some (File c) =>
        inr (tt, <[f_path f := File (take (Z.to_nat size) c
                                     ++ replicate (Z.to_nat (size - len c)) x00)]> m)
    | _ => inl EIO
    end).

Definition flush (f : file) : M unit :=
  syscall (OpFlush (f_path f)) (fun m => inr (tt, m)).

(** [os.fsync(f.fileno())] *)
Definition fsync (f : file) : M unit :=
  syscall (OpFsync (f_path f)) (fun m => inr (tt, m)).

Definition close (f : file) : M unit :=
  syscall (OpClose (f_path f)) (fun m => inr (tt, m)).

(** [with open(p, "r+b", buffering=0) as f: body]: the file is closed on
    the way out, also when [body] raises. *)
Definition with_open {A : Type} (p : Path) (body : file -> M A) : M A :=
  let* f := open_rw p in
  try_finally (body f) (close f).

(** [src.rename(dst)], as POSIX [rename(2)]: the entry itself moves (links
    are not followed); an existing entry at [dst] is replaced, except that
    a directory and a non-directory do not replace each other; renaming an
    entry onto itself does nothing. *)
Definition rename (src dst : Path) : M unit :=
  syscall (OpRename src dst) (fun m =>
    match m !! src with
    | None => inl ENOENT
    | Some n =>
        if decide (src = dst) then inr (tt, m) else
        match n, m !! dst with
        | Dir, Some Dir | Dir, None => inr (tt, <[dst := n]> (delete src m))
        | Dir, Some _ => inl ENOTDIR
        | _, Some Dir => inl EISDIR
        | _, _ => inr (tt, <[dst := n]> (delete src m))
        end
    end).

(** [p.unlink()]: removes the entry itself; a directory is refused. *)
Definition unlink (p : Path) : M unit :=
  syscall (OpUnlink p) (fun m =>
    match m !! p with
    | None => inl ENOENT
    | Some Dir => inl EISDIR
    | Some _ => inr (tt, delete p m)
    end).

(** [os.open(str(d), os.O_RDONLY)], [os.fsync(dfd)], [os.close(dfd)] on a
    directory. The directories that hold the listed entries exist without
    being listed themselves, so only the environment fails these calls. *)
Definition os_open_dir (d : Path) : M Path :=
  syscall (OpOpenDir d) (fun m => inr (d, m)).
Definition os_fsync_dir (dfd : Path) : M unit :=
  syscall (OpFsyncDir dfd) (fun m => inr (tt, m)).
Definition os_close_dir (dfd : Path) : M unit :=
  syscall (OpCloseDir dfd) (fun m => inr (tt, m)).

(** [os.posix_fadvise(fd, off, n, os.POSIX_FADV_DONTNEED)] *)
Definition posix_fadvise (f : file) (off n : Z) : M unit :=
  syscall (OpFadvise (f_path f) off n) (fun m => inr (tt, m)).

(* ===================================================================== *)
(** ** The operator's terminal *)
(* ===================================================================== *)

(** [input(...)]: the next line typed, [EOFError] when there is none. *)
Definition input : M string :=
  fun w =>
    match stdin w with
    | [] => (Raise EOFError, w)
    | l :: rest => (Ok l, add_log (Input l) (set_stdin rest w))
    end.

(** [str.isspace] on the ASCII range. *)
Definition is_space (c : ascii) : bool :=
  let n := N_of_ascii c in
  ((9 <=? n) && (n <=? 13) || (28 <=? n) && (n <=? 32))%N.

Fixpoint lstrip (l : list ascii) : list ascii :=
  match l with
  | c :: rest => if is_space c then lstrip rest else l
  | [] => []
  end.

(** [s.strip()] *)
Definition strip (s : string) : string :=
  string_of_list_ascii
    (rev (lstrip (rev (lstrip (list_ascii_of_string s))))).

(** [try: m except Exception as e: h e] *)
Definition try_except {A : Type} (m : M A) (h : exn -> M A) : M A :=
  fun w =>
    match m w with
    | (Raise e, w') => h e w'
    | other => other
    end.

(* ===================================================================== *)
(** ** Helpers: fsync and cache hints *)
(* ===================================================================== *)

Definition fsync_dir_best_effort (directory : Path) : M unit :=
  fun w =>
    if negb (os_posix (plat w)) then (Ok tt, w)
    else
      try_pass
        (let* dfd := os_open_dir directory in
         try_finally (os_fsync_dir dfd) (os_close_dir dfd)) w.

Definition linux_drop_page_cache_best_effort (f : file) (file_size : Z) : M unit :=
  try_pass
    (fun w =>
       if negb (os_posix (plat w)) then (Ok tt, w)
       else if negb (has_fadvise (plat w)) then (Ok tt, w)
       else
         let page := page_size (plat w) in
         if page =? 0 then (Raise ZeroDivisionError, w)
         else
           let off := 0 in
           let length := ((file_size + page - 1) / page) * page in
           posix_fadvise f off length w).

(* ===================================================================== *)
(** ** Verification sampling: the planner *)
(* ===================================================================== *)

(** [for _ in range(sample_count)] of [choose_samples]; [n] iterations are
    left and [samples] is the list built so far. *)
Fixpoint choose_loop (n : nat) (file_size sample_len : Z) (samples : list Sample)
    : M (list Sample) :=
  match n with
  | O => ret samples
  | S n' =>
      let* start := randbelow (file_size - sample_len + 1) in
      choose_loop n' file_size sample_len (samples ++ [mkSample start sample_len])
  end.

Definition choose_samples (file_size sample_count sample_len : Z) : M (list Sample) :=
  if (file_size <=? 0) || (sample_count <=? 0) || (sample_len <=? 0) then ret []
  else
    let sample_len := Z.min sample_len file_size in
    choose_loop (Z.to_nat sample_count) file_size sample_len [].

(* ===================================================================== *)
(** ** Core overwrite and delete *)
(* ===================================================================== *)

Definition build_pass_count (min_passes max_passes : Z) (randomize : bool) : M Z :=
  if (min_passes <? 1) || (max_passes <? min_passes) then
    raise (ValueError InvalidPassBounds)
  else if negb randomize || (min_passes =? max_passes) then ret min_passes
  else
    let* r := randbelow (max_passes - min_passes + 1) in
    ret (min_passes + r).

(** [range(lo, hi)] *)
Definition py_range (lo hi : Z) : list Z :=
  map (fun k => lo + Z.of_nat k) (seq 0 (Z.to_nat (hi - lo))).

(** [bytearray(n)]: [n] zero bytes, [ValueError] for a negative [n]. *)
Definition bytearray_of_size (n : Z) : M bytearray :=
  if n <? 0 then raise (ValueError NegativeCount)
  else ret (replicate (Z.to_nat n) x00).

(** [[bytearray(s.length) for s in samples]] *)
Fixpoint fresh_expected (samples : list Sample) : M (list bytearray) :=
  match samples with
  | [] => ret []
  | s :: rest =>
      let* b := bytearray_of_size (length s) in
      let* bs := fresh_expected rest in
      ret (b :: bs)
  end.

(** [[bytearray(b"\x00" * s.length) for s in samples]] *)
Definition fresh_filled (samples : list Sample) : list bytearray :=
  map (fun s => bytes_mul x00 (length s)) samples.

(** The truth value of a list. *)
Definition nonempty {A : Type} (l : list A) : bool :=
  match l with [] => false | _ => true end.

(** [while written < size] of [overwrite_random_streaming]: at most [fuel]
    iterations. *)
Fixpoint stream_loop (fuel : nat) (f : file) (size chunk_size : Z) (verify : bool)
    (samples : list Sample) (expected filled : list bytearray) (written : Z)
    {struct fuel} : M (file * (list bytearray * list bytearray)) :=
  if written <? size then
    match fuel with
    | O => out_of_fuel
    | S fuel' =>
        let n := Z.min chunk_size (size - written) in
        let* data := token_bytes n in
        let* bufs :=
          (if verify && nonempty samples
           then lift (capture_expected_from_chunk samples expected filled data written)
           else ret (expected, filled)) in
        let* f := write f data in
        stream_loop fuel' f size chunk_size verify samples bufs.1 bufs.2 (written + n)
    end
  else ret (f, (expected, filled)).

(** [for m in filled: if not all_filled(m): raise RuntimeError(...)] *)
Fixpoint check_filled (filled : list bytearray) : M unit :=
  match filled with
  | [] => ret tt
  | m :: rest =>
      if negb (all_filled m) then raise (RuntimeError CaptureFailed)
      else check_filled rest
  end.

(** [for i, s in enumerate(samples)]: the read-back of pass [p], from
    index [i] on. *)
Fixpoint read_back (f : file) (p : Z) (i : nat) (samples : list Sample)
    (expected : list bytearray) : M file :=
  match samples with
  | [] => ret f
  | s :: rest =>
      let* f := seek f (offset s) in
      let* r := read f (length s) in
      let* e := match expected !! i with
                | Some e => ret e
                | None => raise IndexError
                end in
      if decide (r.2 = e) then read_back r.1 p (S i) rest expected
      else raise (RuntimeError (VerificationFailed p (Z.of_nat i + 1) (offset s)))
  end.

(** The [if verify and samples:] block that ends a pass. *)
Definition verify_pass (f : file) (p size : Z) (verify drop_cache_linux : bool)
    (samples : list Sample) (expected filled : list bytearray) : M file :=
  if verify && nonempty samples then
    let* _ := check_filled filled in
    let* f := read_back f p 0 samples expected in
    let* _ := (if drop_cache_linux
               then linux_drop_page_cache_best_effort f size else ret tt) in
    ret f
  else ret f.

(** The body of [for p in range(1, passes + 1)]. *)
Definition run_pass (fuel : nat) (f : file) (p passes size chunk_size : Z)
    (verify : bool) (verify_samples verify_len : Z) (drop_cache_linux : bool)
    : M file :=
  let* samples := (if verify then choose_samples size verify_samples verify_len
                   else ret []) in
  let* expected := fresh_expected samples in
  let filled := fresh_filled samples in
  let* f := seek f 0 in
  let* st := stream_loop fuel f size chunk_size verify samples expected filled 0 in
  let f := st.1 in
  let* _ := flush f in
  let* _ := fsync f in
  let* _ := (if drop_cache_linux
             then linux_drop_page_cache_best_effort f size else ret tt) in
  let* f := verify_pass f p size verify drop_cache_linux samples st.2.1 st.2.2 in
  let* _ := print (MsgPassComplete p passes verify) in
  ret f.

Fixpoint pass_loop (fuel : nat) (f : file) (ps : list Z) (passes size chunk_size : Z)
    (verify : bool) (verify_samples verify_len : Z) (drop_cache_linux : bool)
    : M unit :=
  match ps with
  | [] => ret tt
  | p :: rest =>
      let* f := run_pass fuel f p passes size chunk_size verify
                         verify_samples verify_len drop_cache_linux in
      pass_loop fuel f rest passes size chunk_size verify
                verify_samples verify_len drop_cache_linux
  end.

(** [fuel] bounds the iterations of the streaming loop of each pass. *)
Definition overwrite_random_streaming (fuel : nat) (path : Path)
    (passes chunk_size : Z) (verify : bool) (verify_samples verify_len : Z)
    (drop_cache_linux : bool) : M unit :=
  let* size := stat_size path in
  if size =? 0 then ret tt
  else
    with_open path (fun f =>
      pass_loop fuel f (py_range 1 (passes + 1)) passes size chunk_size verify
                verify_samples verify_len drop_cache_linux).

(** [while candidate.exists() and tries < 10] of [rename_truncate_unlink].
    Returns the candidate the loop ends on and the value of [tries]. *)
Fixpoint collision_loop (fuel : nat) (current candidate : Path) (tries : Z)
    {struct fuel} : M (Path * Z) :=
  let* taken := path_exists candidate in
  if taken && (tries <? 10) then
    match fuel with
    | O => out_of_fuel
    | S fuel' =>
        let* new_name := rand_name_hex 16 in
        let* candidate := lift (with_name current new_name) in
        collision_loop fuel' current candidate (tries + 1)
    end
  else ret (candidate, tries).

(** The choice of the next name in one iteration of
    [for _ in range(max(0, rename_passes))]: a first candidate, then the
    collision loop, which gets as many iterations as its own bound on
    [tries] allows. *)
Definition pick_candidate (current : Path) : M (Path * Z) :=
  let* new_name := rand_name_hex 16 in
  let* candidate := lift (with_name current new_name) in
  collision_loop 10 current candidate 0.

(** One iteration of that loop: returns the new [current]. *)
Definition rename_once (current : Path) : M Path :=
  let* picked := pick_candidate current in
  let candidate := picked.1 in
  let* _ := rename current candidate in
  let current := candidate in
  let* _ := fsync_dir_best_effort (parent current) in
  ret current.

Fixpoint rename_loop (n : nat) (current : Path) : M Path :=
  match n with
  | O => ret current
  | S n' =>
      let* current := rename_once current in
      rename_loop n' current
  end.

(** The [try: with open(current, ...) as f: ... except Exception: pass]
    block of [rename_truncate_unlink]. *)
Definition truncate_stage (current : Path) : M unit :=
  try_pass
    (with_open current (fun f =>
       let* _ := truncate f 0 in
       let* _ := flush f in
       fsync f)).

Definition rename_truncate_unlink (path : Path) (rename_passes : Z) (keep : bool)
    : M Path :=
  let* current := rename_loop (Z.to_nat (Z.max 0 rename_passes)) path in
  let* _ := truncate_stage current in
  if keep then
    let* _ := fsync_dir_best_effort (parent current) in
    ret current
  else
    let* _ := unlink current in
    let* _ := fsync_dir_best_effort (parent current) in
    ret current.

(** The keyword arguments of [wipe_file]. *)
Record options := Options {
  min_passes : Z;
  max_passes : Z;
  randomize_pass_count : bool;
  chunk_size : Z;
  verify : bool;
  verify_samples : Z;
  verify_len : Z;
  rename_passes : Z;
  drop_cache_linux : bool;
  force : bool;
  keep : bool
}.

(** The confirmation of [wipe_file]: [true] to go on. *)
Definition confirm (file_path : Path) (o : options) : M bool :=
  if force o then ret true
  else
    let* _ := print (MsgTarget file_path) in
    let* _ := print MsgDestructive in
    let* answer := input in
    if decide (strip answer = "YES"%string) then ret true
    else
      let* _ := print MsgAborted in
      ret false.

(** [wipe_file] once its three checks have let the target through. *)
Definition wipe_checked (fuel : nat) (file_path : Path) (o : options) : M unit :=
  let* go := confirm file_path o in
  if negb go then ret tt else
  let* passes := build_pass_count (min_passes o) (max_passes o)
                                  (randomize_pass_count o) in
  let* size := stat_size file_path in
  let* _ := print (MsgPlan size passes (chunk_size o)) in
  let* _ :=
    (if 0 <? size then
       overwrite_random_streaming fuel file_path passes (chunk_size o) (verify o)
         (verify_samples o) (verify_len o) (drop_cache_linux o)
     else print MsgZeroBytes) in
  let* final_path := rename_truncate_unlink file_path (rename_passes o) (keep o) in
  if keep o then print (MsgKept final_path)
  else print MsgDeleted.

Definition wipe_file (fuel : nat) (file_path : Path) (o : options) : M unit :=
  let* present := path_exists file_path in
  if negb present then raise (FileNotFoundError file_path) else
  let* is_dir := path_is_dir file_path in
  if is_dir then raise (IsADirectoryError file_path) else
  let* is_link := path_is_symlink file_path in
  if is_link then raise (RuntimeError (SymlinkRefused file_path)) else
  wipe_checked fuel file_path o.

(** The namespace [argparse] hands to [main]. *)
Record args := Args {
  arg_min_passes : Z;
  arg_max_passes : Z;
  arg_no_randomize_pass_count : bool;
  arg_chunk : Z;
  arg_verify : bool;
  arg_verify_samples : Z;
  arg_verify_len : Z;
  arg_rename_passes : Z;
  arg_drop_cache : bool;
  arg_keep : bool;
  arg_force : bool
}.

(** The keyword arguments [main] calls [wipe_file] with. *)
Definition options_of_args (a : args) : options :=
  {| min_passes := arg_min_passes a;
     max_passes := arg_max_passes a;
     randomize_pass_count := negb (arg_no_randomize_pass_count a);
     chunk_size := Z.max 4096 (arg_chunk a);
     verify := arg_verify a;
     verify_samples := Z.max 1 (arg_verify_samples a);
     verify_len := Z.max 1 (arg_verify_len a);
     rename_passes := Z.max 0 (arg_rename_passes a);
     drop_cache_linux := arg_drop_cache a;
     force := arg_force a;
     keep := arg_keep a |}.

(** [for t in targets] of [main]: the wipe of each target, any exception
    caught, reported and turned into exit code 1. *)
Fixpoint main_loop (fuel : nat) (targets : list Path) (a : args) (exit_code : Z)
    : M Z :=
  match targets with
  | [] => ret exit_code
  | t :: rest =>
      let* exit_code :=
        try_except
          (let* _ := wipe_file fuel t (options_of_args a) in ret exit_code)
          (fun e => let* _ := print (MsgFailedOn t e) in ret 1) in
      main_loop fuel rest a exit_code
  end.

(** [main], from the point where the list of targets is built: the parsing
    of the command line and the file picker come before. *)
Definition main (fuel : nat) (targets : list Path) (a : args) : M Z :=
  main_loop fuel targets a 0.

(* ===================================================================== *)
(** ** Vocabulary of the statements *)
(* ===================================================================== *)

(** What one call of the overlap tracker does to the buffers [e] (expected)
    and [m] (filled) of the sample [s], for the chunk [chunk_data] written
    at [chunk_start]; [e'] and [m'] are the buffers afterwards. Position
    [j] of a buffer stands for the byte [offset s + j] of the file. *)
Definition captured (s : Sample) (chunk_data : bytes) (chunk_start : Z)
    (e m e' m' : bytearray) : Prop :=
  let chunk_end := chunk_start + len chunk_data in
  let s_start := offset s in
  let s_end := offset s + length s in
  let overlap_start := Z.max s_start chunk_start in
  let overlap_end := Z.min s_end chunk_end in
  len e' = len e /\ len m' = len m /\
  ((s_end <= chunk_start \/ chunk_end <= s_start) -> e' = e /\ m' = m) /\
  (forall j : nat,
      overlap_start <= s_start + Z.of_nat j < overlap_end ->
      e' !! j = chunk_data !! Z.to_nat (s_start + Z.of_nat j - chunk_start) /\
      is_Some (e' !! j) /\
      m' !! j = Some x01) /\
  (forall j : nat,
      ~ (overlap_start <= s_start + Z.of_nat j < overlap_end) ->
      e' !! j = e !! j /\ m' !! j = m !! j).

(** [w'] differs from [w] at most by what was taken from the entropy
    source. *)
Definition only_tape (w w' : world) : Prop :=
  fs w' = fs w /\ env w' = env w /\ stdin w' = stdin w /\
  log w' = log w /\ plat w' = plat w.

(** The mask [m] of the sample [s] has the sample's length and is 1 at
    every position that stands for a byte of the file below [written]. *)
Definition covered_upto (written : Z) (s : Sample) (m : bytearray) : Prop :=
  len m = length s /\
  forall j : nat,
    Z.of_nat j < length s -> offset s + Z.of_nat j < written -> m !! j = Some x01.

(** How a run ended, the value returned left out. *)
Inductive outcome :=
| Returned
| Raised (e : exn)
| Exhausted.

Definition outcome_of {A : Type} (r : result A) : outcome :=
  match r with
  | Ok _ => Returned
  | Raise e => Raised e
  | OutOfFuel => Exhausted
  end.

(** [sat Q m]: every run of [m] relates the world before, the way the run
    ended and the world after as [Q] says. *)
Definition sat {A : Type} (Q : world -> outcome -> world -> Prop) (m : M A) : Prop :=
  forall w, Q w (outcome_of (m w).1) (m w).2.

(** The relations that hold of doing nothing and that compose along a
    sequence of two computations. *)
Class Sequential (Q : world -> outcome -> world -> Prop) : Prop := {
  seq_here : forall w t, Q w t w;
  seq_then : forall w w1 w' t, Q w Returned w1 -> Q w1 t w' -> Q w t w'
}.

(** The relations that do not look at how the run ended. *)
Class Insensitive (Q : world -> outcome -> world -> Prop) : Prop :=
  insensitive : forall w t t' w', Q w t w' -> Q w t' w'.

(** The environment interferes no more. *)
Definition calm (w : world) : Prop := Forall (fun a => a = Quiet) (env w).

(** Whatever [m] raises is in [E]. *)
Definition raises_in {A : Type} (E : exn -> Prop) (m : M A) : Prop :=
  forall w e w', m w = (Raise e, w') -> E e.

(** The failure of a system call, or a [ValueError]. *)
Definition plain_error (e : exn) : Prop :=
  match e with
  | OSError _ | ValueError _ => True
  | _ => False
  end.

(** Any exception but the verification mismatch. *)
Definition no_mismatch (e : exn) : Prop :=
  match e with
  | RuntimeError (VerificationFailed _ _ _) => False
  | _ => True
  end.

(** Both relations at once. *)
Definition both (Q1 Q2 : world -> outcome -> world -> Prop)
    : world -> outcome -> world -> Prop :=
  fun w t w' => Q1 w t w' /\ Q2 w t w'.

(** The world after a system call [o] that the environment left alone and
    that succeeded with the entries [m'], or failed with [e]. *)
Definition after_call (o : op) (m' : gmap Path node) (w : world) : world :=
  add_log (Done o) (set_fs m' (set_env (tl (env w)) w)).

Definition after_failure (o : op) (e : errno) (w : world) : world :=
  add_log (Failed o e) (set_env (tl (env w)) w).

(** The log grew by events that all satisfy [P]. *)
Definition log_grows (P : event -> Prop) : world -> outcome -> world -> Prop :=
  fun w _ w' => exists new, log w' = new ++ log w /\ Forall P new.

(** What kind of entry a path names. *)
Inductive kind := NoEntry | IsFile | IsDir | IsLink (t : Path).

Definition kind_of (n : option node) : kind :=
  match n with
  | None => NoEntry
  | Some (File _) => IsFile
  | Some Dir => IsDir
  | Some (Symlink t) => IsLink t
  end.

(** No entry appeared, disappeared or changed kind: at most the content of
    files changed. *)
Definition kinds_kept : world -> outcome -> world -> Prop :=
  fun w _ w' => forall q, kind_of (fs w' !! q) = kind_of (fs w !! q).

(** The system call behind an event, if any. *)
Definition op_of (ev : event) : option op :=
  match ev with
  | Done o | Failed o _ => Some o
  | _ => None
  end.

(** An event that is no system call, or a call of the class [C]. *)
Definition calls_in (C : op -> Prop) (ev : event) : Prop :=
  match ev with
  | Done o | Failed o _ => C o
  | _ => True
  end.

(** The calls of the overwrite passes. *)
Definition overwrite_call (o : op) : Prop :=
  match o with
  | OpStat _ | OpOpen _ | OpSeek _ _ | OpWrite _ _ _ | OpFlush _ | OpFsync _
  | OpFadvise _ _ _ | OpRead _ _ _ | OpClose _ => True
  | _ => False
  end.

(** An event that is no failure, or the failure of a call that [hint]
    marks as best effort. *)
Definition benign (hint : op -> Prop) (ev : event) : Prop :=
  match ev with
  | Failed o _ => hint o
  | _ => True
  end.

(** The closing of a file, done or failed. *)
Definition closing (ev : event) : Prop :=
  match ev with
  | Done (OpClose _) | Failed (OpClose _) _ => True
  | _ => False
  end.

(** [aborts hint]: a failed system call that [hint] does not mark as best
    effort ends the run with an exception, and nothing is attempted after
    it but the closing of files. The log (newest first) grew either by
    benign events only, or by benign events, then the failure, then
    closings, the run having raised. *)
Definition aborts (hint : op -> Prop) : world -> outcome -> world -> Prop :=
  fun w t w' =>
    exists new, log w' = new ++ log w /\
      (Forall (benign hint) new \/
       ((exists x, t = Raised x) /\
        exists closes o e before,
          new = closes ++ Failed o e :: before /\
          ~ hint o /\
          Forall closing closes /\ Forall (benign hint) before)).

(** Nothing of the deletion sequence has been attempted and every entry
    is of the kind it was: the log grew by calls of the overwrite passes
    only, and only the content of files changed. *)
Definition undeleted : world -> outcome -> world -> Prop :=
  both (log_grows (calls_in overwrite_call)) kinds_kept.

(** The calls whose failure the program swallows on purpose: the
    directory syncs and the cache hint. *)
Definition best_effort (o : op) : Prop :=
  match o with
  | OpOpenDir _ | OpFsyncDir _ | OpCloseDir _ | OpFadvise _ _ _ => True
  | _ => False
  end.

(** The calls of the truncate stage of the deletion sequence. *)
Definition truncate_call (o : op) : Prop :=
  match o with
  | OpOpen _ | OpTruncate _ _ | OpFlush _ | OpFsync _ | OpClose _ => True
  | _ => False
  end.

(** The calls of the deletion sequence that change directory entries or
    cut the file. *)
Definition deletion_call (o : op) : Prop :=
  match o with
  | OpRename _ _ | OpTruncate _ _ | OpUnlink _ => True
  | _ => False
  end.


(** The events of the rename stage on a calm device: renames inside one
    directory and the directory syncs that follow them. *)
Definition rename_stage_event (ev : event) : Prop :=
  match ev with
  | Done (OpRename src dst) => parent src = parent dst
  | Done (OpOpenDir _) | Done (OpFsyncDir _) | Done (OpCloseDir _) => True
  | _ => False
  end.

(** The directory syncs, done. *)
Definition dir_sync_event (ev : event) : Prop :=
  match ev with
  | Done (OpOpenDir _) | Done (OpFsyncDir _) | Done (OpCloseDir _) => True
  | _ => False
  end.


(* ===================================================================== *)
(** ** Concrete worlds for the examples *)
(* ===================================================================== *)

Definition linux : platform := Platform true true 4096.

Definition tmp_secret : Path := mkPath "/" ["tmp"; "secret.bin"]%string.
Definition tmp_dir : Path := mkPath "/" ["tmp"; "dir"]%string.
Definition tmp_gone : Path := mkPath "/" ["tmp"; "gone"]%string.

(** Three passes at most, verification of two samples of three bytes,
    chunks of four bytes, one rename, no prompt, deletion at the end. *)
Definition small_options : options :=
  {| min_passes := 1; max_passes := 3; randomize_pass_count := false;
     chunk_size := 4; verify := true; verify_samples := 2; verify_len := 3;
     rename_passes := 1; drop_cache_linux := false; force := true;
     keep := false |}.

(** A quiet world with the given entries and entropy. *)
Definition quiet_world (m : gmap Path node) (t : list Z) : world :=
  World m [] t [] [] linux.


(** A file of ten bytes and the handle a pass holds on it. *)
Definition ten_bytes_world (t : list Z) : world :=
  quiet_world {[ tmp_secret := File (replicate 10 x41) ]} t.

Definition secret_handle : file := mkFile tmp_secret 0.

(** Two samples of three bytes in a file of ten: one across the first two
    chunks of four bytes, one across the last two. *)
Definition two_samples : list Sample := [mkSample 2 3; mkSample 7 3].

(** The ten-byte file on a device that alters the byte at index 6 after
    the first pass has been written and synced, before it is read back:
    the alteration comes with the tenth system call of the wipe. *)
Definition corrupted_world : world :=
  set_env (replicate 9 Quiet ++ [Corrupt tmp_secret 6 xff])
          (ten_bytes_world [5; 6; 7; 8; 9; 10; 11; 12; 13; 14; 15; 16]).

(** Forty values of entropy, enough for two names of sixteen bytes. *)
Definition forty_values : list Z := map Z.of_nat (seq 1 40).




(** The command line that asks for what [small_options] holds. *)
Definition small_args : args :=
  {| arg_min_passes := 1; arg_max_passes := 3; arg_no_randomize_pass_count := true;
     arg_chunk := 4096; arg_verify := true; arg_verify_samples := 2;
     arg_verify_len := 3; arg_rename_passes := 1; arg_drop_cache := false;
     arg_keep := false; arg_force := true |}.

(** One pass without verification, no rename, the file kept. *)
Definition keep_options : options :=
  {| min_passes := 1; max_passes := 1; randomize_pass_count := false;
     chunk_size := 4; verify := false; verify_samples := 1; verify_len := 1;
     rename_passes := 0; drop_cache_linux := false; force := true;
     keep := true |}.

(** The ten-byte file on a device that fails the twelfth system call of
    that wipe, the truncation, with an input/output error. *)
Definition truncate_fails_world : world :=
  set_env (replicate 11 Quiet ++ [Fail EIO]) (ten_bytes_world forty_values).

(** The same file on a device that is full at the first write, the fifth
    system call. *)
Definition disk_full_world : world :=
  set_env (replicate 4 Quiet ++ [Fail ENOSPC]) (ten_bytes_world forty_values).

(** The name the second token of sixteen bytes of [forty_values] spells. *)
Definition tmp_second : Path :=
  mkPath "/" ["tmp"; "1112131415161718191a1b1c1d1e1f20"]%string.

(* ===================================================================== *)
(** ** Vocabulary of the further properties *)
(* ===================================================================== *)

(** An event of the sync of the directory [d]: its opening, its sync or
    its closing, done or failed. *)
Definition dir_sync_of (d : Path) (ev : event) : Prop :=
  match ev with
  | Done (OpOpenDir q) | Done (OpFsyncDir q) | Done (OpCloseDir q)
  | Failed (OpOpenDir q) _ | Failed (OpFsyncDir q) _ | Failed (OpCloseDir q) _ => q = d
  | _ => False
  end.

(** A lower-case hexadecimal digit. *)
Definition is_hex_digit (c : ascii) : bool :=
  let n := N_of_ascii c in
  ((48 <=? n) && (n <=? 57) || (97 <=? n) && (n <=? 102))%N.






(** Entries outside the directory [d] keep their kind. *)
Definition kinds_outside (d : Path) : world -> outcome -> world -> Prop :=
  fun w _ w' => forall q, parent q <> d -> kind_of (fs w' !! q) = kind_of (fs w !! q).

(** A call that is no rename, or a rename inside the directory [d]. *)
Definition rename_inside (d : Path) (o : op) : Prop :=
  match o with
  | OpRename src dst => parent src = d /\ parent dst = d
  | _ => True
  end.

(** The wipe stays inside the directory [d]: kinds outside are kept and
    every rename attempted has both ends inside. *)
Definition confined (d : Path) : world -> outcome -> world -> Prop :=
  both (log_grows (calls_in (rename_inside d))) (kinds_outside d).




(** Pass bounds the wrong way round. *)
Definition inverted_options : options :=
  {| min_passes := 5; max_passes := 2; randomize_pass_count := true;
     chunk_size := 4; verify := true; verify_samples := 2; verify_len := 3;
     rename_passes := 1; drop_cache_linux := false; force := true;
     keep := false |}.

(** A rename, a truncation or an unlink, done or failed. *)
Definition deletion_event (ev : event) : Prop :=
  match op_of ev with
  | Some c => deletion_call c
  | None => False
  end.

(** Whenever the computation returns, the line [msg] is the last thing it
    has logged. *)
Definition prints_last {A : Type} (msg : message) (c : M A) : Prop :=
  forall w x w', c w = (Ok x, w') -> exists n, log w' = Print msg :: n ++ log w.

(** What [stat] reports as the size of [p]. *)
Definition stat_sees (m : gmap Path node) (p : Path) : option Z :=
  match resolve max_hops m p with
  | Some (_, File c) => Some (len c)
  | Some (_, Dir) => Some 4096
  | _ => None
  end.

(** The calls of the read-back: a seek, a read, the cache hint. *)
Definition verify_call (o : op) : Prop :=
  match o with
  | OpSeek _ _ | OpRead _ _ _ | OpFadvise _ _ _ => True
  | _ => False
  end.

(** On a calm device the entries are left exactly as they were. *)
Definition untouched : world -> outcome -> world -> Prop :=
  fun w _ w' => calm w -> calm w' /\ fs w' = fs w.

(* ===================================================================== *)
(** * Proofs *)
(* ===================================================================== *)

(* --------------------------------------------------------------------- *)
(** ** Slices *)
(* --------------------------------------------------------------------- *)

Section Slices.
Context {A : Type}.
Implicit Types l v : list A.

Lemma adjust_index_inside n i : 0 <= i <= n -> adjust_index n i = i.
Proof. unfold adjust_index. intros H. destruct (Z.ltb_spec i 0); lia. Qed.

Lemma getslice_length l lo hi :
  0 <= lo <= hi -> hi <= len l -> len (getslice l lo hi) = hi - lo.
Proof.
  unfold getslice, len. intros H1 H2.
  rewrite !adjust_index_inside by (unfold len in *; lia).
  rewrite length_take, length_drop. unfold len in *. lia.
Qed.

Lemma getslice_lookup l lo hi (k : nat) :
  0 <= lo <= hi -> hi <= len l -> Z.of_nat k < hi - lo ->
  getslice l lo hi !! k = l !! (Z.to_nat lo + k)%nat.
Proof.
  unfold getslice. intros H1 H2 H3.
  rewrite !adjust_index_inside by lia.
  rewrite lookup_take_lt by lia. apply lookup_drop.
Qed.

Lemma setslice_length l lo hi v :
  0 <= lo <= hi -> hi <= len l -> len v = hi - lo ->
  len (setslice l lo hi v) = len l.
Proof.
  unfold setslice, len. intros H1 H2 H3.
  rewrite !adjust_index_inside by (unfold len in *; lia).
  rewrite !length_app, length_take, length_drop. unfold len in *. lia.
Qed.

Lemma setslice_lookup_inside l lo hi v (j : nat) :
  0 <= lo <= hi -> hi <= len l -> len v = hi - lo ->
  lo <= Z.of_nat j < hi ->
  setslice l lo hi v !! j = v !! (j - Z.to_nat lo)%nat.
Proof.
  unfold setslice. intros H1 H2 H3 H4.
  rewrite !adjust_index_inside by lia.
  unfold len in *.
  rewrite lookup_app_r by (rewrite length_take; lia).
  rewrite length_take, lookup_app_l by lia.
  f_equal. lia.
Qed.

Lemma setslice_lookup_outside l lo hi v (j : nat) :
  0 <= lo <= hi -> hi <= len l -> len v = hi - lo ->
  ~ (lo <= Z.of_nat j < hi) ->
  setslice l lo hi v !! j = l !! j.
Proof.
  unfold setslice. intros H1 H2 H3 H4.
  rewrite !adjust_index_inside by lia.
  unfold len in *.
  destruct (Z.lt_ge_cases (Z.of_nat j) lo) as [Hlt | Hge].
  - rewrite lookup_app_l by (rewrite length_take; lia).
    apply lookup_take_lt. lia.
  - rewrite lookup_app_r by (rewrite length_take; lia).
    rewrite length_take, lookup_app_r by lia.
    rewrite lookup_drop. f_equal. lia.
Qed.

Lemma len_nonneg l : 0 <= len l.
Proof. unfold len. lia. Qed.

(** Replacing an empty slice by nothing changes nothing. *)
Lemma setslice_empty l lo :
  0 <= lo <= len l -> setslice l lo lo [] = l.
Proof.
  unfold setslice. intros H.
  rewrite !adjust_index_inside by lia.
  rewrite Z.max_id. simpl. apply take_drop.
Qed.
End Slices.

(* --------------------------------------------------------------------- *)
(** ** The overlap tracker *)
(* --------------------------------------------------------------------- *)

Section Tracker.
Variables (chunk_data : bytes) (chunk_start : Z).

(** A sample the chunk does not reach keeps its buffers. *)
Lemma captured_skip s (e m : bytearray) :
  (offset s + length s <=? chunk_start) || (offset s >=? chunk_start + len chunk_data) = true ->
  captured s chunk_data chunk_start e m e m.
Proof.
  intros Hskip. unfold captured. cbv zeta.
  assert (Hempty : forall j : nat,
            ~ (Z.max (offset s) chunk_start <= offset s + Z.of_nat j
               < Z.min (offset s + length s) (chunk_start + len chunk_data))).
  { intros j Hj. apply orb_true_iff in Hskip as [H | H]; lia. }
  split; [reflexivity | split; [reflexivity | split; [auto | split]]].
  - intros j Hj. destruct (Hempty j Hj).
  - auto.
Qed.

(** The two slice assignments of the loop body, on buffers of the
    sample's length. *)
Lemma captured_step s (e m : bytearray) :
  (offset s + length s <=? chunk_start) || (offset s >=? chunk_start + len chunk_data) = false ->
  len e = length s -> len m = length s ->
  let overlap_start := Z.max (offset s) chunk_start in
  let overlap_end := Z.min (offset s + length s) (chunk_start + len chunk_data) in
  captured s chunk_data chunk_start e m
    (setslice e (overlap_start - offset s) (overlap_end - offset s)
       (getslice chunk_data (overlap_start - chunk_start) (overlap_end - chunk_start)))
    (setslice m (overlap_start - offset s) (overlap_end - offset s)
       (bytes_mul x01 ((overlap_end - offset s) - (overlap_start - offset s)))).
Proof.
  intros Hskip He Hm os oe.
  apply orb_false_iff in Hskip as [H1 H2].
  apply Z.leb_gt in H1.
  assert (offset s < chunk_start + len chunk_data) as H2'.
  { destruct (Z.geb_spec (offset s) (chunk_start + len chunk_data)); [congruence | lia]. }
  clear H2.
  pose proof (len_nonneg chunk_data) as Hd.
  pose proof (len_nonneg e) as He0.
  pose proof (len_nonneg m) as Hm0.
  assert (Hlen_v : len (getslice chunk_data (os - chunk_start) (oe - chunk_start))
                   = (oe - offset s) - (os - offset s)).
  { rewrite getslice_length; subst os oe; lia. }
  assert (Hlen_o : len (bytes_mul x01 ((oe - offset s) - (os - offset s)))
                   = (oe - offset s) - (os - offset s)).
  { unfold bytes_mul, len. rewrite length_replicate. subst os oe. lia. }
  unfold captured. cbv zeta. fold os oe.
  split; [| split; [| split; [| split]]].
  - rewrite setslice_length; subst os oe; lia.
  - rewrite setslice_length; subst os oe; lia.
  - intros [H | H]; lia.
  - intros j Hj.
    assert (e1 : setslice e (os - offset s) (oe - offset s)
                   (getslice chunk_data (os - chunk_start) (oe - chunk_start)) !! j
                 = chunk_data !! Z.to_nat (offset s + Z.of_nat j - chunk_start)).
    { rewrite setslice_lookup_inside by (subst os oe; lia).
      rewrite getslice_lookup by (subst os oe; lia).
      f_equal. subst os oe. lia. }
    split; [exact e1 | split].
    + destruct (lookup_lt_is_Some_2 chunk_data
                  (Z.to_nat (offset s + Z.of_nat j - chunk_start))) as [b Hb].
      { unfold len in *. subst os oe. lia. }
      exists b. exact (eq_trans e1 Hb).
    + rewrite setslice_lookup_inside by (subst os oe; lia).
      unfold bytes_mul. apply lookup_replicate_2. subst os oe. lia.
  - intros j Hj. split.
    + apply setslice_lookup_outside; subst os oe; lia.
    + apply setslice_lookup_outside; subst os oe; lia.
Qed.

(** The loop over the samples, from index [i] on: every buffer it has a
    sample for is updated as [captured] says, every other is kept. *)
Lemma capture_loop_spec samples :
  forall (i : nat) (expected filled : list bytearray),
    (forall (k : nat) s, samples !! k = Some s ->
       exists e m, expected !! (i + k)%nat = Some e /\ filled !! (i + k)%nat = Some m /\
                   len e = length s /\ len m = length s) ->
    exists expected' filled',
      capture_loop i samples expected filled chunk_data chunk_start
        = Ok (expected', filled') /\
      List.length expected' = List.length expected /\
      List.length filled' = List.length filled /\
      (forall j : nat, (j < i \/ i + List.length samples <= j)%nat ->
         expected' !! j = expected !! j /\ filled' !! j = filled !! j) /\
      (forall (k : nat) s e m,
         samples !! k = Some s ->
         expected !! (i + k)%nat = Some e -> filled !! (i + k)%nat = Some m ->
         exists e' m', expected' !! (i + k)%nat = Some e' /\
                       filled' !! (i + k)%nat = Some m' /\
                       captured s chunk_data chunk_start e m e' m').
Proof.
  induction samples as [| s rest IH]; intros i expected filled Hbuf.
  - exists expected, filled. simpl. repeat split; auto.
    intros k s e m Hk. rewrite lookup_nil in Hk. discriminate.
  - destruct (Hbuf 0%nat s eq_refl) as (e0 & m0 & He0 & Hm0 & Hle & Hlm).
    rewrite Nat.add_0_r in He0, Hm0.
    simpl.
    destruct ((offset s + length s <=? chunk_start)
              || (offset s >=? chunk_start + len chunk_data)) eqn:Hskip.
    + destruct (IH (S i) expected filled) as (ex' & fi' & Hrun & Hl1 & Hl2 & Hout & Hin).
      { intros k s' Hk. destruct (Hbuf (S k) s' Hk) as (e & m & H1 & H2 & H3).
        exists e, m. replace (S i + k)%nat with (i + S k)%nat by lia. auto. }
      exists ex', fi'. split; [exact Hrun |]. split; [exact Hl1 |]. split; [exact Hl2 |].
      split.
      * intros j Hj. apply Hout. simpl in Hj. lia.
      * intros [| k] s' e m Hk He Hm.
        -- simpl in Hk. injection Hk as <-. rewrite Nat.add_0_r in He, Hm.
           destruct (Hout i ltac:(lia)) as [Ho1 Ho2].
           exists e, m. rewrite Nat.add_0_r, Ho1, Ho2.
           split; [exact He | split; [exact Hm |]].
           apply captured_skip. exact Hskip.
        -- simpl in Hk. replace (i + S k)%nat with (S i + k)%nat in * by lia.
           apply (Hin k s' e m Hk He Hm).
    + rewrite He0, Hm0.
      set (os := Z.max (offset s) chunk_start).
      set (oe := Z.min (offset s + length s) (chunk_start + len chunk_data)).
      set (e1 := setslice e0 (os - offset s) (oe - offset s)
                   (getslice chunk_data (os - chunk_start) (oe - chunk_start))).
      set (m1 := setslice m0 (os - offset s) (oe - offset s)
                   (bytes_mul x01 (oe - offset s - (os - offset s)))).
      destruct (IH (S i) (<[i := e1]> expected) (<[i := m1]> filled))
        as (ex' & fi' & Hrun & Hl1 & Hl2 & Hout & Hin).
      { intros k s' Hk. destruct (Hbuf (S k) s' Hk) as (e & m & H1 & H2 & H3).
        exists e, m. replace (S i + k)%nat with (i + S k)%nat by lia.
        rewrite !list_lookup_insert_ne by lia. auto. }
      exists ex', fi'. split; [exact Hrun |].
      rewrite !length_insert in *.
      split; [exact Hl1 |]. split; [exact Hl2 |].
      split.
      * intros j Hj. simpl in Hj.
        destruct (Hout j ltac:(lia)) as [Ho1 Ho2].
        rewrite Ho1, Ho2, !list_lookup_insert_ne by lia. auto.
      * intros [| k] s' e m Hk He Hm.
        -- simpl in Hk. injection Hk as <-. rewrite Nat.add_0_r in *.
           assert (e = e0) by congruence. assert (m = m0) by congruence. subst e m.
           destruct (Hout i ltac:(lia)) as [Ho1 Ho2].
           exists e1, m1. rewrite Ho1, Ho2.
           rewrite !list_lookup_insert_eq
             by (apply lookup_lt_is_Some; eauto).
           split; [reflexivity | split; [reflexivity |]].
           apply captured_step; assumption.
        -- simpl in Hk. replace (i + S k)%nat with (S i + k)%nat in * by lia.
           rewrite <- (list_lookup_insert_ne expected i (S i + k) e1) in He by lia.
           rewrite <- (list_lookup_insert_ne filled i (S i + k) m1) in Hm by lia.
           apply (Hin k s' e m Hk He Hm).
Qed.
End Tracker.

(** C1. For every list of sample ranges whose [expected] and [filled]
    buffers have the length of their sample, and every chunk
    [chunk_start, chunk_start + len chunk_data), [capture_expected_from_chunk]
    returns normally with as many buffers as before, and for each sample:
    if range and chunk do not overlap, both buffers are unchanged;
    otherwise the bytes of the chunk that lie in the intersection
    [overlap_start, overlap_end) are copied into [expected] at
    sample-relative offset [overlap_start - s_start], the same positions of
    [filled] become 1, and every position outside the intersection keeps
    its value in both buffers. Nothing is assumed on how chunk and sample
    lie with respect to each other, nor on the sign of the offsets. *)
Theorem capture_expected_from_chunk_correct
    (samples : list Sample) (expected filled : list bytearray)
    (chunk_data : bytes) (chunk_start : Z) :
  Forall2 (fun s e => len e = length s) samples expected ->
  Forall2 (fun s m => len m = length s) samples filled ->
  exists expected' filled',
    capture_expected_from_chunk samples expected filled chunk_data chunk_start
      = Ok (expected', filled') /\
    List.length expected' = List.length expected /\
    List.length filled' = List.length filled /\
    forall (i : nat) s e m,
      samples !! i = Some s -> expected !! i = Some e -> filled !! i = Some m ->
      exists e' m',
        expected' !! i = Some e' /\ filled' !! i = Some m' /\
        captured s chunk_data chunk_start e m e' m'.
Proof.
  intros Hexp Hfil.
  destruct (capture_loop_spec chunk_data chunk_start samples 0 expected filled)
    as (ex' & fi' & Hrun & Hl1 & Hl2 & _ & Hin).
  { intros k s Hk. simpl.
    destruct (Forall2_lookup_l _ _ _ _ _ Hexp Hk) as (e & He & Hle).
    destruct (Forall2_lookup_l _ _ _ _ _ Hfil Hk) as (m & Hm & Hlm).
    exists e, m. auto. }
  exists ex', fi'. split; [exact Hrun |]. split; [exact Hl1 |]. split; [exact Hl2 |].
  intros i s e m Hs He Hm. exact (Hin i s e m Hs He Hm).
Qed.

(** A sample of length 6 at offset 2 and one of length 3 at offset 20, fed
    the chunk of 4 bytes written at offset 4: the first is covered in its
    middle, the second not at all. *)
Lemma capture_expected_from_chunk_correct_witness :
  exists expected' filled',
    capture_expected_from_chunk
      [mkSample 2 6; mkSample 20 3]
      [replicate 6 x00; replicate 3 x00] [replicate 6 x00; replicate 3 x00]
      [xa1; xa2; xa3; xa4] 4 = Ok (expected', filled') /\
    List.length expected' = 2%nat /\ List.length filled' = 2%nat /\
    forall (i : nat) s e m,
      [mkSample 2 6; mkSample 20 3] !! i = Some s ->
      [replicate 6 x00; replicate 3 x00] !! i = Some e ->
      [replicate 6 x00; replicate 3 x00] !! i = Some m ->
      exists e' m',
        expected' !! i = Some e' /\ filled' !! i = Some m' /\
        captured s [xa1; xa2; xa3; xa4] 4 e m e' m'.
Proof.
  apply (capture_expected_from_chunk_correct
           [mkSample 2 6; mkSample 20 3]
           [replicate 6 x00; replicate 3 x00] [replicate 6 x00; replicate 3 x00]
           [xa1; xa2; xa3; xa4] 4).
  - repeat constructor.
  - repeat constructor.
Defined.

(* --------------------------------------------------------------------- *)
(** ** Running the monad *)
(* --------------------------------------------------------------------- *)

Lemma bind_inv {A B : Type} (m : M A) (k : A -> M B) w r w' :
  bind m k w = (r, w') ->
  (exists a w1, m w = (Ok a, w1) /\ k a w1 = (r, w')) \/
  (exists e, m w = (Raise e, w') /\ r = Raise e) \/
  (m w = (OutOfFuel, w') /\ r = OutOfFuel).
Proof.
  unfold bind. destruct (m w) as [[a | e |] w1]; intros H.
  - left. eauto.
  - right. left. injection H as <- <-. eauto.
  - right. right. injection H as <- <-. eauto.
Qed.

Lemma bind_ok {A B : Type} (m : M A) (k : A -> M B) w a w1 :
  m w = (Ok a, w1) -> bind m k w = k a w1.
Proof. unfold bind. intros ->. reflexivity. Qed.

Lemma bind_raise {A B : Type} (m : M A) (k : A -> M B) w e w1 :
  m w = (Raise e, w1) -> bind m k w = (Raise e, w1).
Proof. unfold bind. intros ->. reflexivity. Qed.

Lemma bind_ret {A B : Type} (a : A) (k : A -> M B) w : bind (ret a) k w = k a w.
Proof. reflexivity. Qed.

(** A run whose result is known, as the pair of that result and the world
    it leaves. *)
Lemma run_with_result {A : Type} (run : result A * world) (r : result A) :
  run.1 = r -> run = (r, run.2).
Proof. destruct run as [r0 w0]. simpl. intros ->. reflexivity. Qed.

(** Splits a hypothesis [bind m k w = (r, w')] into its three cases. *)
Ltac bind_cases H :=
  let a := fresh "a" in
  let w1 := fresh "w1" in
  let e := fresh "e" in
  let Hm := fresh "Hm" in
  let Hk := fresh "Hk" in
  apply bind_inv in H as [(a & w1 & Hm & Hk) | [(e & Hm & Hk) | (Hm & Hk)]].

Tactic Notation "split_bind" hyp(H) "as" ident(a) ident(w1) ident(Hm) ident(Hk) :=
  apply bind_inv in H as [(a & w1 & Hm & Hk) | [(? & Hm & Hk) | (Hm & Hk)]].

(* --------------------------------------------------------------------- *)
(** ** The entropy source *)
(* --------------------------------------------------------------------- *)

Lemma only_tape_refl w : only_tape w w.
Proof. repeat split. Qed.

Lemma only_tape_trans w1 w2 w3 :
  only_tape w1 w2 -> only_tape w2 w3 -> only_tape w1 w3.
Proof.
  unfold only_tape. intros (?&?&?&?&?) (?&?&?&?&?).
  repeat split; congruence.
Qed.

Lemma draw_total w : exists z w', draw w = (Ok z, w') /\ only_tape w w'.
Proof.
  unfold draw. destruct (tape w) eqn:E.
  - exists 0, w. split; [reflexivity | apply only_tape_refl].
  - eexists _, _. split; [reflexivity |]. repeat split.
Qed.

Lemma randbelow_range k w :
  0 < k ->
  exists z w', randbelow k w = (Ok z, w') /\ 0 <= z < k /\ only_tape w w'.
Proof.
  intros Hk. unfold randbelow.
  destruct (Z.leb_spec k 0); [lia |].
  destruct (draw_total w) as (z & w' & Hd & Ht).
  exists (z mod k), w'. rewrite (bind_ok _ _ _ _ _ Hd).
  split; [reflexivity |]. split; [apply Z.mod_pos_bound; lia | exact Ht].
Qed.

Lemma draw_bytes_total n :
  forall w, exists data w',
    draw_bytes n w = (Ok data, w') /\ List.length data = n /\ only_tape w w'.
Proof.
  induction n as [| n IH]; intros w.
  - exists [], w. simpl. repeat split.
  - destruct (draw_total w) as (z & w1 & Hd & Ht1).
    destruct (IH w1) as (data & w2 & Hr & Hl & Ht2).
    exists (byte_of_Z z :: data), w2. simpl.
    rewrite (bind_ok _ _ _ _ _ Hd), (bind_ok _ _ _ _ _ Hr).
    split; [reflexivity |]. split; [simpl; lia |].
    eapply only_tape_trans; eassumption.
Qed.

Lemma token_bytes_total n w :
  0 <= n ->
  exists data w', token_bytes n w = (Ok data, w') /\ len data = n /\ only_tape w w'.
Proof.
  intros Hn. unfold token_bytes.
  destruct (Z.ltb_spec n 0); [lia |].
  destruct (draw_bytes_total (Z.to_nat n) w) as (data & w' & Hr & Hl & Ht).
  exists data, w'. split; [exact Hr |]. split; [unfold len; lia | exact Ht].
Qed.

Lemma token_bytes_negative n w :
  n < 0 -> token_bytes n w = (Raise (ValueError NegativeCount), w).
Proof.
  intros Hn. unfold token_bytes. destruct (Z.ltb_spec n 0); [reflexivity | lia].
Qed.


(* --------------------------------------------------------------------- *)
(** ** The planner and the pass count *)
(* --------------------------------------------------------------------- *)

Lemma choose_loop_spec file_size sample_len n :
  0 <= file_size - sample_len ->
  forall acc w,
    exists l w',
      choose_loop n file_size sample_len acc w = (Ok (acc ++ l), w') /\
      List.length l = n /\
      Forall (fun s => 0 <= offset s /\ length s = sample_len /\
                       offset s + length s <= file_size) l /\
      only_tape w w'.
Proof.
  intros Hroom. induction n as [| n IH]; intros acc w.
  - exists [], w. simpl. rewrite app_nil_r. repeat split. constructor.
  - destruct (randbelow_range (file_size - sample_len + 1) w ltac:(lia))
      as (z & w1 & Hr & Hz & Ht1).
    destruct (IH (acc ++ [mkSample z sample_len]) w1) as (l & w2 & Hl & Hn & Hall & Ht2).
    exists (mkSample z sample_len :: l), w2. simpl.
    rewrite (bind_ok _ _ _ _ _ Hr), Hl, <- app_assoc. simpl.
    split; [reflexivity |]. split; [lia |]. split.
    + constructor; [simpl; lia | exact Hall].
    + eapply only_tape_trans; eassumption.
Qed.

(** C5. For every input triple and every state of the entropy source,
    [choose_samples file_size sample_count sample_len] returns normally;
    the list is empty when [file_size <= 0], [sample_count <= 0] or
    [sample_len <= 0]; otherwise it holds [sample_count] ranges, and every
    range returned has [0 <= offset], [length = min sample_len file_size]
    (the length clamped to the file) and [offset + length <= file_size].
    Only the entropy source is consumed. *)
Theorem choose_samples_correct (file_size sample_count sample_len : Z) (w : world) :
  exists samples w',
    choose_samples file_size sample_count sample_len w = (Ok samples, w') /\
    (file_size <= 0 \/ sample_count <= 0 \/ sample_len <= 0 -> samples = []) /\
    (0 < file_size /\ 0 < sample_count /\ 0 < sample_len ->
       len samples = sample_count) /\
    Forall (fun s => 0 <= offset s /\
                     length s = Z.min sample_len file_size /\
                     offset s + length s <= file_size) samples /\
    only_tape w w'.
Proof.
  unfold choose_samples.
  destruct ((file_size <=? 0) || (sample_count <=? 0) || (sample_len <=? 0)) eqn:G.
  - exists [], w. split; [reflexivity |]. split; [auto |]. split.
    + intros (H1 & H2 & H3).
      apply orb_true_iff in G as [G | G]; [apply orb_true_iff in G as [G | G] |];
        apply Z.leb_le in G; lia.
    + split; [constructor | apply only_tape_refl].
  - apply orb_false_iff in G as [G G3]. apply orb_false_iff in G as [G1 G2].
    apply Z.leb_gt in G1, G2, G3.
    destruct (choose_loop_spec file_size (Z.min sample_len file_size)
                (Z.to_nat sample_count) ltac:(lia) [] w)
      as (l & w' & Hrun & Hn & Hall & Ht).
    exists l, w'. split; [exact Hrun |]. split; [lia |]. split.
    + intros _. unfold len. lia.
    + split; [exact Hall | exact Ht].
Qed.

(** Valid bounds: the count is drawn inside them, or is the minimum. *)
Lemma build_pass_count_returns (lo hi : Z) (randomize : bool) (w : world) :
  1 <= lo -> lo <= hi ->
  exists n w',
    build_pass_count lo hi randomize w = (Ok n, w') /\
    lo <= n <= hi /\
    (randomize = false \/ lo = hi -> n = lo /\ w' = w) /\
    only_tape w w'.
Proof.
  intros H1 H2. unfold build_pass_count.
  destruct ((lo <? 1) || (hi <? lo)) eqn:G.
  { apply orb_true_iff in G as [G | G]; apply Z.ltb_lt in G; lia. }
  destruct (negb randomize || (lo =? hi)) eqn:F.
  + exists lo, w. split; [reflexivity |]. split; [lia |].
    split; [auto | apply only_tape_refl].
  + apply orb_false_iff in F as [F1 F2].
    apply negb_false_iff in F1. apply Z.eqb_neq in F2.
    destruct (randbelow_range (hi - lo + 1) w ltac:(lia))
      as (z & w' & Hr & Hz & Ht).
    exists (lo + z), w'. rewrite (bind_ok _ _ _ _ _ Hr).
    split; [reflexivity |]. split; [lia |]. split; [| exact Ht].
    intros [-> | ->]; [discriminate | lia].
Qed.

(** C6. For [min_passes >= 1] and [max_passes >= min_passes],
    [build_pass_count] returns a value of the inclusive interval
    [min_passes, max_passes], which is exactly [min_passes] (no entropy
    drawn) when [randomize] is false or [min_passes = max_passes]; for
    [min_passes < 1] or [max_passes < min_passes] it raises
    [ValueError("Invalid pass bounds")]. *)
Theorem build_pass_count_correct (min_passes max_passes : Z) (randomize : bool)
    (w : world) :
  (min_passes < 1 \/ max_passes < min_passes ->
     build_pass_count min_passes max_passes randomize w
       = (Raise (ValueError InvalidPassBounds), w)) /\
  (1 <= min_passes /\ min_passes <= max_passes ->
     exists n w',
       build_pass_count min_passes max_passes randomize w = (Ok n, w') /\
       min_passes <= n <= max_passes /\
       (randomize = false \/ min_passes = max_passes -> n = min_passes /\ w' = w) /\
       only_tape w w').
Proof.
  split.
  - intros H. unfold build_pass_count.
    destruct ((min_passes <? 1) || (max_passes <? min_passes)) eqn:G; [reflexivity |].
    apply orb_false_iff in G as [G1 G2]. apply Z.ltb_ge in G1, G2. lia.
  - intros [H1 H2]. apply build_pass_count_returns; assumption.
Qed.

(** The bounds 3 and 7 with a randomized count, the entropy source about
    to deliver 9: the count is 3 + 9 mod 5 = 7. *)
Lemma build_pass_count_correct_witness :
  exists n w',
    build_pass_count 3 7 true
      (World ∅ [] [9] [] [] (Platform true true 4096)) = (Ok n, w') /\
    3 <= n <= 7.
Proof.
  destruct (proj2 (build_pass_count_correct 3 7 true
                     (World ∅ [] [9] [] [] (Platform true true 4096))))
    as (n & w' & Hrun & Hn & _); [lia |].
  exists n, w'. split; [exact Hrun | exact Hn].
Defined.

(* --------------------------------------------------------------------- *)
(** ** The safety checks of [wipe_file] *)
(* --------------------------------------------------------------------- *)

Lemma resolve_absent hops m p : m !! p = None -> resolve hops m p = None.
Proof. intros H. destruct hops; simpl; rewrite H; reflexivity. Qed.

Lemma resolve_dir hops m p : m !! p = Some Dir -> resolve hops m p = Some (p, Dir).
Proof. intros H. destruct hops; simpl; rewrite H; reflexivity. Qed.

Lemma resolve_file hops m p c :
  m !! p = Some (File c) -> resolve hops m p = Some (p, File c).
Proof. intros H. destruct hops; simpl; rewrite H; reflexivity. Qed.

(** What [stat] finds is never a link. *)
Lemma resolve_not_link hops :
  forall m p q t, resolve hops m p <> Some (q, Symlink t).
Proof.
  induction hops as [| h IH]; intros m p q t; simpl.
  - destruct (m !! p) as [[c | | t'] |]; congruence.
  - destruct (m !! p) as [[c | | t'] |]; try congruence. apply IH.
Qed.

(** The entry [stat] ends on is a listed one. *)
Lemma resolve_lookup hops :
  forall m p q n, resolve hops m p = Some (q, n) -> m !! q = Some n.
Proof.
  induction hops as [| h IH]; intros m p q n; simpl.
  - destruct (m !! p) as [[c | | t'] |] eqn:E; intros H; try discriminate;
      injection H as <- <-; exact E.
  - destruct (m !! p) as [[c | | t'] |] eqn:E; intros H; try discriminate.
    + injection H as <- <-; exact E.
    + injection H as <- <-; exact E.
    + eapply IH; eassumption.
Qed.

(** The three checks of [wipe_file], decided by what [stat] and [lstat]
    see at the target. *)
Lemma wipe_file_checks fuel p o w :
  match resolve max_hops (fs w) p with
  | None => wipe_file fuel p o w = (Raise (FileNotFoundError p), w)
  | Some (_, Dir) => wipe_file fuel p o w = (Raise (IsADirectoryError p), w)
  | Some _ =>
      match fs w !! p with
      | Some (Symlink _) =>
          wipe_file fuel p o w = (Raise (RuntimeError (SymlinkRefused p)), w)
      | _ => True
      end
  end.
Proof.
  unfold wipe_file.
  rewrite (bind_ok _ _ w _ w (eq_refl : path_exists p w = _)).
  destruct (resolve max_hops (fs w) p) as [[q n] |] eqn:R.
  - rewrite bool_decide_eq_true_2 by eauto. cbv beta iota delta [negb].
    rewrite (bind_ok _ _ w _ w (eq_refl : path_is_dir p w = _)). rewrite R.
    destruct n as [c | | t]; [| reflexivity |].
    + rewrite (bind_ok _ _ w _ w (eq_refl : path_is_symlink p w = _)).
      destruct (fs w !! p) as [[c' | | t'] |]; auto.
    + destruct (resolve_not_link _ _ _ _ _ R).
  - rewrite bool_decide_eq_false_2 by (intros [x Hx]; discriminate).
    reflexivity.
Qed.




(* --------------------------------------------------------------------- *)
(** ** Properties that follow the structure of the program *)
(* --------------------------------------------------------------------- *)

Section Sat.
Context (Q : world -> outcome -> world -> Prop) `{!Sequential Q}.

Lemma sat_ret {A : Type} (a : A) : sat Q (ret a).
Proof. intros w. apply seq_here. Qed.

Lemma sat_raise {A : Type} (e : exn) : sat Q (@raise A e).
Proof. intros w. apply seq_here. Qed.

Lemma sat_out_of_fuel {A : Type} : sat Q (@out_of_fuel A).
Proof. intros w. apply seq_here. Qed.

Lemma sat_lift {A : Type} (r : result A) : sat Q (lift r).
Proof. intros w. apply seq_here. Qed.

Lemma sat_bind {A B : Type} (m : M A) (k : A -> M B) :
  sat Q m -> (forall a, sat Q (k a)) -> sat Q (bind m k).
Proof.
  intros Hm Hk w. specialize (Hm w). unfold bind.
  destruct (m w) as [[a | e |] w1]; simpl in *; try exact Hm.
  eapply seq_then; [exact Hm | apply Hk].
Qed.

Lemma sat_path_exists p : sat Q (path_exists p).
Proof. intros w. apply seq_here. Qed.

Lemma sat_path_is_dir p : sat Q (path_is_dir p).
Proof. intros w. apply seq_here. Qed.

Lemma sat_path_is_symlink p : sat Q (path_is_symlink p).
Proof. intros w. apply seq_here. Qed.
End Sat.

(** One step through a computation built from [bind], [ret], [raise],
    [lift], [if] and [match]. *)
Ltac sat_step :=
  lazymatch goal with
  | |- sat _ (ret _) => apply sat_ret
  | |- sat _ (raise _) => apply sat_raise
  | |- sat _ out_of_fuel => apply sat_out_of_fuel
  | |- sat _ (lift _) => apply sat_lift
  | |- sat _ (path_exists _) => apply sat_path_exists
  | |- sat _ (path_is_dir _) => apply sat_path_is_dir
  | |- sat _ (path_is_symlink _) => apply sat_path_is_symlink
  | |- sat _ (bind _ _) => refine (sat_bind _ _ _ _ _); [| intros ?]
  | |- sat _ (if ?b then _ else _) => destruct b
  | |- sat _ (match ?x with _ => _ end) => destruct x
  end.

Ltac sat_auto := repeat (sat_step; try assumption); auto.

(** The overwrite engine and its planner, over any sequential relation
    that its primitives satisfy. *)
Section SatOverwrite.
Context (Q : world -> outcome -> world -> Prop) `{!Sequential Q}.
Hypothesis Q_draw : sat Q draw.
Hypothesis Q_print : forall m, sat Q (print m).
Hypothesis Q_stat : forall p, sat Q (stat_size p).
Hypothesis Q_with_open :
  forall (p : Path) (body : file -> M unit),
    (forall f, sat Q (body f)) -> sat Q (with_open p body).
Hypothesis Q_seek : forall f off, sat Q (seek f off).
Hypothesis Q_write : forall f data, sat Q (write f data).
Hypothesis Q_read : forall f n, sat Q (read f n).
Hypothesis Q_flush : forall f, sat Q (flush f).
Hypothesis Q_fsync : forall f, sat Q (fsync f).
Hypothesis Q_drop : forall f size, sat Q (linux_drop_page_cache_best_effort f size).

Lemma sat_randbelow k : sat Q (randbelow k).
Proof. unfold randbelow. sat_auto. Qed.

Lemma sat_draw_bytes n : sat Q (draw_bytes n).
Proof. induction n; cbn [draw_bytes]; sat_auto. Qed.

Lemma sat_token_bytes n : sat Q (token_bytes n).
Proof. unfold token_bytes. sat_auto. apply sat_draw_bytes. Qed.

Lemma sat_rand_name_hex n : sat Q (rand_name_hex n).
Proof. unfold rand_name_hex, token_hex. sat_auto. apply sat_token_bytes. Qed.

Lemma sat_choose_loop n file_size sample_len :
  forall acc, sat Q (choose_loop n file_size sample_len acc).
Proof.
  induction n; intros acc; cbn [choose_loop]; sat_auto. apply sat_randbelow.
Qed.

Lemma sat_choose_samples file_size sample_count sample_len :
  sat Q (choose_samples file_size sample_count sample_len).
Proof. unfold choose_samples. sat_auto. apply sat_choose_loop. Qed.

Lemma sat_build_pass_count lo hi randomize : sat Q (build_pass_count lo hi randomize).
Proof. unfold build_pass_count. sat_auto. apply sat_randbelow. Qed.

Lemma sat_fresh_expected samples : sat Q (fresh_expected samples).
Proof.
  induction samples; cbn [fresh_expected]; sat_auto.
  unfold bytearray_of_size. sat_auto.
Qed.

Lemma sat_stream_loop fuel :
  forall f size chunk verify samples expected filled written,
    sat Q (stream_loop fuel f size chunk verify samples expected filled written).
Proof.
  induction fuel; intros f size chunk verify samples expected filled written;
    cbn [stream_loop]; sat_auto; apply sat_token_bytes.
Qed.

Lemma sat_check_filled filled : sat Q (check_filled filled).
Proof. induction filled; cbn [check_filled]; sat_auto. Qed.

Lemma sat_read_back samples :
  forall f p i expected, sat Q (read_back f p i samples expected).
Proof.
  induction samples; intros f p i expected; cbn [read_back]; sat_auto.
Qed.

Lemma sat_verify_pass f p size verify drop samples expected filled :
  sat Q (verify_pass f p size verify drop samples expected filled).
Proof.
  unfold verify_pass. sat_auto.
  - apply sat_check_filled.
  - apply sat_read_back.
Qed.

Lemma sat_run_pass fuel f p passes size chunk verify vs vl drop :
  sat Q (run_pass fuel f p passes size chunk verify vs vl drop).
Proof.
  unfold run_pass. sat_auto.
  - apply sat_choose_samples.
  - apply sat_fresh_expected.
  - apply sat_stream_loop.
  - apply sat_verify_pass.
Qed.

Lemma sat_pass_loop fuel ps :
  forall f passes size chunk verify vs vl drop,
    sat Q (pass_loop fuel f ps passes size chunk verify vs vl drop).
Proof.
  induction ps; intros f passes size chunk verify vs vl drop;
    cbn [pass_loop]; sat_auto. apply sat_run_pass.
Qed.

Lemma sat_overwrite_random_streaming fuel p passes chunk verify vs vl drop :
  sat Q (overwrite_random_streaming fuel p passes chunk verify vs vl drop).
Proof.
  unfold overwrite_random_streaming. sat_auto.
  apply Q_with_open. intros f. apply sat_pass_loop.
Qed.
End SatOverwrite.

(** The deletion sequence, likewise. *)
Section SatDelete.
Context (Q : world -> outcome -> world -> Prop) `{!Sequential Q}.
Hypothesis Q_draw : sat Q draw.
Hypothesis Q_rename : forall src dst, sat Q (rename src dst).
Hypothesis Q_unlink : forall p, sat Q (unlink p).
Hypothesis Q_dir : forall d, sat Q (fsync_dir_best_effort d).
Hypothesis Q_truncate_stage : forall current, sat Q (truncate_stage current).

Lemma sat_collision_loop fuel :
  forall current candidate tries,
    sat Q (collision_loop fuel current candidate tries).
Proof.
  induction fuel; intros current candidate tries; cbn [collision_loop]; sat_auto;
    apply sat_rand_name_hex; assumption.
Qed.

Lemma sat_pick_candidate current : sat Q (pick_candidate current).
Proof.
  unfold pick_candidate. sat_auto.
  - apply sat_rand_name_hex; assumption.
  - apply sat_collision_loop.
Qed.

Lemma sat_rename_once current : sat Q (rename_once current).
Proof. unfold rename_once. sat_auto. apply sat_pick_candidate. Qed.

Lemma sat_rename_loop n : forall current, sat Q (rename_loop n current).
Proof.
  induction n; intros current; cbn [rename_loop]; sat_auto. apply sat_rename_once.
Qed.

Lemma sat_rename_truncate_unlink p rename_passes keep :
  sat Q (rename_truncate_unlink p rename_passes keep).
Proof. unfold rename_truncate_unlink. sat_auto. apply sat_rename_loop. Qed.
End SatDelete.

(** The whole of [wipe_file], from its stages. *)
Section SatWipe.
Context (Q : world -> outcome -> world -> Prop) `{!Sequential Q}.
Hypothesis Q_print : forall m, sat Q (print m).
Hypothesis Q_input : sat Q input.
Hypothesis Q_stat : forall p, sat Q (stat_size p).
Hypothesis Q_build : forall lo hi r, sat Q (build_pass_count lo hi r).
Hypothesis Q_overwrite :
  forall fuel p passes chunk verify vs vl drop,
    sat Q (overwrite_random_streaming fuel p passes chunk verify vs vl drop).
Hypothesis Q_delete :
  forall p rename_passes keep, sat Q (rename_truncate_unlink p rename_passes keep).

Lemma sat_confirm p o : sat Q (confirm p o).
Proof. unfold confirm. sat_auto. Qed.

Lemma sat_wipe_checked fuel p o : sat Q (wipe_checked fuel p o).
Proof. unfold wipe_checked. sat_auto. apply sat_confirm. Qed.

Lemma sat_wipe_file fuel p o : sat Q (wipe_file fuel p o).
Proof. unfold wipe_file. sat_auto. apply sat_wipe_checked. Qed.
End SatWipe.

(* --------------------------------------------------------------------- *)
(** ** System calls, one at a time *)
(* --------------------------------------------------------------------- *)

(** What a system call leaves in the log. *)
Lemma syscall_log {A : Type} (o : op) (sem : gmap Path node -> errno + (A * gmap Path node)) w :
  (exists x, (syscall o sem w).1 = Ok x /\ log (syscall o sem w).2 = Done o :: log w) \/
  (exists e, (syscall o sem w).1 = Raise (OSError e) /\
             log (syscall o sem w).2 = Failed o e :: log w).
Proof.
  unfold syscall.
  destruct (hd Quiet (env w)) as [| e | p i b].
  - destruct (sem _) as [e | [x m']]; simpl; eauto.
  - simpl. eauto.
  - destruct (sem _) as [e | [x m']]; simpl; eauto.
Qed.

(** With a calm environment a system call is the function [sem]. *)
Lemma syscall_calm {A : Type} (o : op) (sem : gmap Path node -> errno + (A * gmap Path node)) w :
  calm w ->
  syscall o sem w =
    match sem (fs w) with
    | inl e => (Raise (OSError e), add_log (Failed o e) (set_env (tl (env w)) w))
    | inr (x, m') => (Ok x, add_log (Done o) (set_fs m' (set_env (tl (env w)) w)))
    end.
Proof.
  unfold calm, syscall. intros Hc.
  destruct (env w) as [| a rest] eqn:E; simpl.
  - destruct (sem (fs w)) as [e | [x m']]; reflexivity.
  - apply Forall_cons in Hc as [-> _]. simpl.
    destruct (sem (fs w)) as [e | [x m']]; reflexivity.
Qed.

Lemma calm_tl w : calm w -> calm (set_env (tl (env w)) w).
Proof.
  unfold calm. simpl. intros H. destruct (env w); simpl; [constructor |].
  apply Forall_cons in H as [_ H]. exact H.
Qed.

Lemma disturb_kind a m q : kind_of (disturb a m !! q) = kind_of (m !! q).
Proof.
  destruct a as [| e | p i b]; simpl; try reflexivity.
  destruct (m !! p) as [[c | | t] |] eqn:E; try reflexivity.
  destruct (decide (p = q)) as [-> | Hne].
  - rewrite lookup_insert_eq, E. reflexivity.
  - rewrite lookup_insert_ne by exact Hne. reflexivity.
Qed.

(** The exception handlers and the best-effort helpers, over a relation
    that does not look at how the run ended. *)
Section SatInsensitive.
Context (Q : world -> outcome -> world -> Prop) `{!Sequential Q} `{!Insensitive Q}.

Lemma sat_try_pass (m : M unit) : sat Q m -> sat Q (try_pass m).
Proof.
  intros H w. specialize (H w). unfold try_pass.
  destruct (m w) as [[[] | e |] w1]; simpl in *; eapply insensitive; exact H.
Qed.

Lemma sat_try_finally {A : Type} (m : M A) (h : M unit) :
  sat Q m -> sat Q h -> sat Q (try_finally m h).
Proof.
  intros Hm Hh w. specialize (Hm w). unfold try_finally.
  destruct (m w) as [[a | e |] w1]; simpl in *; try exact Hm.
  - specialize (Hh w1). destruct (h w1) as [[[] | e |] w2]; simpl in *;
      (eapply seq_then; [eapply insensitive; exact Hm | eapply insensitive; exact Hh]).
  - specialize (Hh w1). destruct (h w1) as [[[] | e' |] w2]; simpl in *;
      (eapply seq_then; [eapply insensitive; exact Hm | eapply insensitive; exact Hh]).
Qed.

Lemma sat_try_except {A : Type} (m : M A) (h : exn -> M A) :
  sat Q m -> (forall e, sat Q (h e)) -> sat Q (try_except m h).
Proof.
  intros Hm Hh w. specialize (Hm w). unfold try_except.
  destruct (m w) as [[a | e |] w1]; simpl in *; try exact Hm.
  eapply seq_then; [eapply insensitive; exact Hm | apply Hh].
Qed.

Lemma sat_with_open {A : Type} p (body : file -> M A) :
  (forall q, sat Q (open_rw q)) -> (forall f, sat Q (close f)) ->
  (forall f, sat Q (body f)) -> sat Q (with_open p body).
Proof.
  intros Ho Hc Hb. unfold with_open. sat_step; [apply Ho |].
  apply sat_try_finally; [apply Hb | apply Hc].
Qed.

Lemma sat_fsync_dir d :
  (forall q, sat Q (os_open_dir q)) -> (forall q, sat Q (os_fsync_dir q)) ->
  (forall q, sat Q (os_close_dir q)) ->
  sat Q (fsync_dir_best_effort d).
Proof.
  intros H1 H2 H3 w. unfold fsync_dir_best_effort.
  destruct (negb (os_posix (plat w))); [apply seq_here |].
  revert w. apply sat_try_pass. sat_step; [apply H1 |].
  apply sat_try_finally; [apply H2 | apply H3].
Qed.

Lemma sat_drop_cache f size :
  (forall g off n, sat Q (posix_fadvise g off n)) ->
  sat Q (linux_drop_page_cache_best_effort f size).
Proof.
  intros H. unfold linux_drop_page_cache_best_effort.
  apply sat_try_pass. intros w.
  destruct (negb (os_posix (plat w))); [apply seq_here |].
  destruct (negb (has_fadvise (plat w))); [apply seq_here |].
  destruct (page_size (plat w) =? 0); [apply seq_here |].
  apply H.
Qed.

Lemma sat_truncate_stage current :
  (forall q, sat Q (open_rw q)) -> (forall f, sat Q (close f)) ->
  (forall f n, sat Q (truncate f n)) -> (forall f, sat Q (flush f)) ->
  (forall f, sat Q (fsync f)) ->
  sat Q (truncate_stage current).
Proof.
  intros Ho Hc Ht Hf Hs. unfold truncate_stage.
  apply sat_try_pass, sat_with_open; auto.
  intros f. sat_auto.
Qed.
End SatInsensitive.

(* --------------------------------------------------------------------- *)
(** ** What the log can grow by *)
(* --------------------------------------------------------------------- *)

#[global] Instance log_grows_sequential (P : event -> Prop) : Sequential (log_grows P).
Proof.
  split.
  - intros w t. exists []. split; [reflexivity | constructor].
  - intros w w1 w' t (n1 & H1 & F1) (n2 & H2 & F2).
    exists (n2 ++ n1). split.
    + rewrite H2, H1. apply app_assoc.
    + apply Forall_app. auto.
Qed.

#[global] Instance log_grows_insensitive (P : event -> Prop) : Insensitive (log_grows P).
Proof. intros w t t' w' H. exact H. Qed.

Section LogGrows.
Variable C : op -> Prop.

Lemma log_grows_draw : sat (log_grows (calls_in C)) draw.
Proof.
  intros w. unfold draw. exists []. destruct (tape w); simpl; split; auto.
Qed.

Lemma log_grows_print m : sat (log_grows (calls_in C)) (print m).
Proof. intros w. exists [Print m]. split; [reflexivity |]. repeat constructor. Qed.

Lemma log_grows_input : sat (log_grows (calls_in C)) input.
Proof.
  intros w. unfold input. destruct (stdin w) as [| l rest]; simpl.
  - exists []. split; [reflexivity | constructor].
  - exists [Input l]. split; [reflexivity |]. repeat constructor.
Qed.

Lemma log_grows_syscall {A : Type} o (sem : gmap Path node -> errno + (A * gmap Path node)) :
  C o -> sat (log_grows (calls_in C)) (syscall o sem).
Proof.
  intros Ho w.
  destruct (syscall_log o sem w) as [(x & _ & Hl) | (e & _ & Hl)].
  - exists [Done o]. split; [exact Hl |]. repeat constructor. exact Ho.
  - exists [Failed o e]. split; [exact Hl |]. repeat constructor. exact Ho.
Qed.

(** The overwrite engine issues overwrite calls only. *)
Lemma log_grows_overwrite fuel p passes chunk verify vs vl drop :
  (forall o, overwrite_call o -> C o) ->
  sat (log_grows (calls_in C))
      (overwrite_random_streaming fuel p passes chunk verify vs vl drop).
Proof.
  intros Hc.
  assert (Hsys : forall (A : Type) o (sem : gmap Path node -> errno + (A * gmap Path node)),
             overwrite_call o -> sat (log_grows (calls_in C)) (syscall o sem)).
  { intros A o sem Ho. apply log_grows_syscall, Hc, Ho. }
  apply sat_overwrite_random_streaming.
  - apply log_grows_sequential.
  - apply log_grows_draw.
  - apply log_grows_print.
  - intros q. apply Hsys. exact I.
  - intros q body Hb. apply sat_with_open; try exact _; auto;
      intros; apply Hsys; exact I.
  - intros f off. apply Hsys. exact I.
  - intros f data. apply Hsys. exact I.
  - intros f n. apply Hsys. exact I.
  - intros f. apply Hsys. exact I.
  - intros f. apply Hsys. exact I.
  - intros f size. apply sat_drop_cache; try exact _.
    intros; apply Hsys; exact I.
Qed.

(** The deletion sequence issues renames, the calls of the truncate
    stage, an unlink and directory syncs. *)
Lemma log_grows_delete p rename_passes keep :
  (forall o, truncate_call o \/ best_effort o \/ deletion_call o -> C o) ->
  sat (log_grows (calls_in C)) (rename_truncate_unlink p rename_passes keep).
Proof.
  intros Hc.
  assert (Hsys : forall (A : Type) o (sem : gmap Path node -> errno + (A * gmap Path node)),
             truncate_call o \/ best_effort o \/ deletion_call o ->
             sat (log_grows (calls_in C)) (syscall o sem)).
  { intros A o sem Ho. apply log_grows_syscall, Hc, Ho. }
  apply sat_rename_truncate_unlink.
  - apply log_grows_sequential.
  - apply log_grows_draw.
  - intros src dst. apply Hsys. right. right. exact I.
  - intros q. apply Hsys. right. right. exact I.
  - intros d. apply sat_fsync_dir; try exact _; intros; apply Hsys; right; left; exact I.
  - intros c. apply sat_truncate_stage; try exact _; intros; apply Hsys; left; exact I.
Qed.
End LogGrows.

(* --------------------------------------------------------------------- *)
(** ** Entries keep their kind during the overwrite *)
(* --------------------------------------------------------------------- *)

#[global] Instance kinds_kept_sequential : Sequential kinds_kept.
Proof.
  split.
  - intros w t q. reflexivity.
  - intros w w1 w' t H1 H2 q. rewrite H2. apply H1.
Qed.

#[global] Instance kinds_kept_insensitive : Insensitive kinds_kept.
Proof. intros w t t' w' H. exact H. Qed.

Lemma kinds_kept_syscall {A : Type} o (sem : gmap Path node -> errno + (A * gmap Path node)) :
  (forall m x m', sem m = inr (x, m') -> forall q, kind_of (m' !! q) = kind_of (m !! q)) ->
  sat kinds_kept (syscall o sem).
Proof.
  intros Hsem w q. unfold syscall.
  destruct (hd Quiet (env w)) as [| e | p i b] eqn:E; simpl.
  - destruct (sem (fs w)) as [e | [x m']] eqn:S; simpl; [reflexivity |].
    apply (Hsem _ _ _ S).
  - reflexivity.
  - destruct (sem _) as [e | [x m']] eqn:S; simpl.
    + apply (disturb_kind (Corrupt p i b)).
    + rewrite (Hsem _ _ _ S). apply (disturb_kind (Corrupt p i b)).
Qed.

(** A call that leaves the entries alone. *)
Lemma kinds_kept_reader {A : Type} o (sem : gmap Path node -> errno + (A * gmap Path node)) :
  (forall m x m', sem m = inr (x, m') -> m' = m) -> sat kinds_kept (syscall o sem).
Proof.
  intros H. apply kinds_kept_syscall. intros m x m' S q. rewrite (H _ _ _ S). reflexivity.
Qed.

Lemma kinds_kept_draw : sat kinds_kept draw.
Proof. intros w q. unfold draw. destruct (tape w); reflexivity. Qed.

Lemma kinds_kept_print m : sat kinds_kept (print m).
Proof. intros w q. reflexivity. Qed.

Lemma kinds_kept_input : sat kinds_kept input.
Proof. intros w q. unfold input. destruct (stdin w); reflexivity. Qed.

Lemma kinds_kept_write f data : sat kinds_kept (write f data).
Proof.
  apply kinds_kept_syscall. intros m x m' S q.
  destruct (m !! f_path f) as [[c | | t] |] eqn:E; try discriminate.
  injection S as _ <-.
  destruct (decide (f_path f = q)) as [<- | Hne].
  - rewrite lookup_insert_eq, E. reflexivity.
  - rewrite lookup_insert_ne by exact Hne. reflexivity.
Qed.

Lemma kinds_kept_overwrite fuel p passes chunk verify vs vl drop :
  sat kinds_kept (overwrite_random_streaming fuel p passes chunk verify vs vl drop).
Proof.
  assert (Hopen : forall q, sat kinds_kept (open_rw q)).
  { intros q. apply kinds_kept_reader. intros m x m' S.
    destruct (resolve max_hops m q) as [[r [c | | t]] |]; congruence. }
  assert (Hclose : forall f, sat kinds_kept (close f)).
  { intros f. apply kinds_kept_reader. congruence. }
  apply sat_overwrite_random_streaming.
  - exact _.
  - apply kinds_kept_draw.
  - apply kinds_kept_print.
  - intros q. apply kinds_kept_reader. intros m x m' S.
    destruct (resolve max_hops m q) as [[r [c | | t]] |]; congruence.
  - intros q body Hb. apply sat_with_open; try exact _; auto.
  - intros f off. apply kinds_kept_reader. intros m x m' S.
    destruct (off <? 0); congruence.
  - apply kinds_kept_write.
  - intros f n. apply kinds_kept_reader. intros m x m' S.
    destruct (m !! f_path f) as [[c | | t] |]; congruence.
  - intros f. apply kinds_kept_reader. congruence.
  - intros f. apply kinds_kept_reader. congruence.
  - intros f size. apply sat_drop_cache; try exact _.
    intros g off n. apply kinds_kept_reader. congruence.
Qed.

(* --------------------------------------------------------------------- *)
(** ** Coverage of the samples by the streamed chunks *)
(* --------------------------------------------------------------------- *)

(** One more chunk moves the covered front forward. *)
Lemma covered_upto_step s (data : bytes) written (e m e' m' : bytearray) :
  covered_upto written s m ->
  captured s data written e m e' m' ->
  covered_upto (written + len data) s m'.
Proof.
  intros [Hlen Hcov] (_ & Hlen' & _ & Hin & Hout).
  pose proof (len_nonneg data) as Hd.
  split; [lia |].
  intros j Hj Hw.
  destruct (Z.lt_ge_cases (offset s + Z.of_nat j) written) as [Hold | Hnew].
  - destruct (decide (Z.max (offset s) written <= offset s + Z.of_nat j
                      < Z.min (offset s + length s) (written + len data))) as [Hi | Ho].
    + apply (Hin j Hi).
    + destruct (Hout j Ho) as [_ ->]. apply Hcov; assumption.
  - apply (Hin j). lia.
Qed.

Lemma covered_upto_weaken s m written written' :
  written' <= written -> covered_upto written s m -> covered_upto written' s m.
Proof. intros Hle [Hlen Hcov]. split; [exact Hlen |]. intros j Hj Hw. apply Hcov; lia. Qed.

(** A mask covered up to the end of its sample is all ones. *)
Lemma covered_all_filled s m size :
  offset s + length s <= size -> covered_upto size s m -> all_filled m = true.
Proof.
  intros Hin [Hlen Hcov]. unfold all_filled.
  apply forallb_forall. intros b Hb.
  apply list_elem_of_In, list_elem_of_lookup in Hb as [j Hj].
  assert (Z.of_nat j < length s) as Hlt.
  { apply lookup_lt_Some in Hj. unfold len in Hlen. lia. }
  rewrite (Hcov j Hlt ltac:(lia)) in Hj. injection Hj as <-. reflexivity.
Qed.

(** The masks [fresh_filled] makes are covered up to nothing. *)
Lemma fresh_filled_covered (samples : list Sample) (expected : list bytearray) :
  Forall2 (fun s e => len e = length s) samples expected ->
  Forall (fun s => 0 <= offset s) samples ->
  Forall2 (covered_upto 0) samples (fresh_filled samples).
Proof.
  intros Hexp Hoff. unfold fresh_filled.
  apply Forall2_fmap_r, Forall_Forall2_diag.
  apply Forall_lookup_2. intros i s Hs.
  destruct (Forall2_lookup_l _ _ _ _ _ Hexp Hs) as (e & _ & Hle).
  pose proof (len_nonneg e).
  pose proof (Forall_lookup_1 _ _ _ _ Hoff Hs) as Ho. simpl in Ho.
  split.
  - unfold bytes_mul, len. rewrite length_replicate. lia.
  - intros j Hj Hw. lia.
Qed.

(** One call of the tracker keeps the buffers at the samples' lengths and
    moves the covered front of every mask to the end of the chunk. *)
Lemma capture_moves_front (samples : list Sample) (expected filled : list bytearray)
    (data : bytes) written ex' fi' :
  Forall2 (fun s e => len e = length s) samples expected ->
  Forall2 (covered_upto written) samples filled ->
  capture_expected_from_chunk samples expected filled data written = Ok (ex', fi') ->
  Forall2 (fun s e => len e = length s) samples ex' /\
  Forall2 (covered_upto (written + len data)) samples fi'.
Proof.
  intros Hexp Hfil Hrun.
  destruct (capture_loop_spec data written samples 0 expected filled)
    as (ex & fi & Hrun' & Hl1 & Hl2 & _ & Hin).
  { intros k s Hk. simpl.
    destruct (Forall2_lookup_l _ _ _ _ _ Hexp Hk) as (e & He & Hle).
    destruct (Forall2_lookup_l _ _ _ _ _ Hfil Hk) as (m & Hm & Hlm & _).
    exists e, m. auto. }
  unfold capture_expected_from_chunk in Hrun. rewrite Hrun' in Hrun.
  injection Hrun as <- <-.
  pose proof (Forall2_length _ _ _ Hexp) as Hn1.
  pose proof (Forall2_length _ _ _ Hfil) as Hn2.
  split.
  - apply Forall2_same_length_lookup_2; [congruence |].
    intros i s e' Hs He'.
    destruct (Forall2_lookup_l _ _ _ _ _ Hexp Hs) as (e & He & Hle).
    destruct (Forall2_lookup_l _ _ _ _ _ Hfil Hs) as (m & Hm & Hcov).
    destruct (Hin i s e m Hs He Hm) as (e'' & m'' & He'' & _ & Hcap).
    simpl in He''. assert (e'' = e') by congruence. subst e''.
    destruct Hcap as (Hlen & _). lia.
  - apply Forall2_same_length_lookup_2; [congruence |].
    intros i s m' Hs Hm'.
    destruct (Forall2_lookup_l _ _ _ _ _ Hexp Hs) as (e & He & Hle).
    destruct (Forall2_lookup_l _ _ _ _ _ Hfil Hs) as (m & Hm & Hcov).
    destruct (Hin i s e m Hs He Hm) as (e'' & m'' & _ & Hm'' & Hcap).
    simpl in Hm''. assert (m'' = m') by congruence. subst m''.
    eapply covered_upto_step; eassumption.
Qed.

(** The streaming loop, whenever it returns, has moved the covered front
    of every mask to the end of the file. *)
Lemma stream_loop_covers fuel :
  forall f size chunk (samples : list Sample) (expected filled : list bytearray)
         written w f' ex' fi' w',
    Forall2 (fun s e => len e = length s) samples expected ->
    Forall2 (covered_upto written) samples filled ->
    stream_loop fuel f size chunk true samples expected filled written w
      = (Ok (f', (ex', fi')), w') ->
    Forall2 (fun s e => len e = length s) samples ex' /\
    Forall2 (covered_upto size) samples fi'.
Proof.
  induction fuel as [| fuel IH];
    intros f size chunk samples expected filled written w f' ex' fi' w' Hexp Hfil Hrun;
    cbn [stream_loop] in Hrun;
    destruct (Z.ltb_spec written size) as [Hlt | Hge].
  - discriminate.
  - unfold ret in Hrun. injection Hrun as <- <- <- <-. split; [exact Hexp |].
    eapply Forall2_impl; [exact Hfil |].
    intros s m. apply covered_upto_weaken. exact Hge.
  - bind_cases Hrun; [| discriminate | discriminate].
    rename a into data.
    assert (len data = Z.min chunk (size - written)) as Hdata.
    { destruct (Z.lt_ge_cases (Z.min chunk (size - written)) 0) as [Hneg | Hpos].
      - rewrite (token_bytes_negative _ _ Hneg) in Hm. discriminate.
      - destruct (token_bytes_total _ w Hpos) as (d & w2 & Hd & Hl & _).
        rewrite Hd in Hm. injection Hm as <- <-. exact Hl. }
    bind_cases Hk; [| discriminate | discriminate].
    destruct a as [ex1 fi1].
    assert (Forall2 (fun s e => len e = length s) samples ex1 /\
            Forall2 (covered_upto (written + len data)) samples fi1) as [Hexp1 Hfil1].
    { destruct samples as [| s rest]; cbn [andb nonempty] in Hm0.
      - unfold ret in Hm0. injection Hm0 as <- <- _.
        apply Forall2_nil_inv_l in Hfil. subst filled.
        apply Forall2_nil_inv_l in Hexp. subst expected. split; constructor.
      - unfold lift in Hm0. injection Hm0 as Hcap _.
        eapply capture_moves_front; eassumption. }
    bind_cases Hk0; [| discriminate | discriminate].
    rewrite Hdata in Hfil1.
    apply (IH _ _ _ _ _ _ _ _ _ _ _ _ Hexp1 Hfil1 Hk).
  - unfold ret in Hrun. injection Hrun as <- <- <- <-. split; [exact Hexp |].
    eapply Forall2_impl; [exact Hfil |].
    intros s m. apply covered_upto_weaken. exact Hge.
Qed.

(** [check_filled] raises as soon as one mask has an entry that is not 1,
    and does nothing else. *)
Lemma check_filled_raises (filled : list bytearray) w :
  Exists (fun m => all_filled m = false) filled ->
  check_filled filled w = (Raise (RuntimeError CaptureFailed), w).
Proof.
  induction 1 as [m rest Hm | m rest _ IH]; cbn [check_filled].
  - rewrite Hm. reflexivity.
  - destruct (all_filled m); [exact IH | reflexivity].
Qed.

Lemma check_filled_passes (filled : list bytearray) w :
  Forall (fun m => all_filled m = true) filled ->
  check_filled filled w = (Ok tt, w).
Proof.
  induction 1 as [| m rest Hm _ IH]; cbn [check_filled]; [reflexivity |].
  rewrite Hm. exact IH.
Qed.

(* --------------------------------------------------------------------- *)
(** ** Runs in a calm environment *)
(* --------------------------------------------------------------------- *)

Lemma syscall_calm_ok {A : Type} o (sem : gmap Path node -> errno + (A * gmap Path node))
    w x m' :
  calm w -> sem (fs w) = inr (x, m') -> syscall o sem w = (Ok x, after_call o m' w).
Proof. intros Hc Hs. rewrite (syscall_calm o sem w Hc), Hs. reflexivity. Qed.


Lemma calm_after_call o m' w : calm w -> calm (after_call o m' w).
Proof. intros H. apply calm_tl in H. exact H. Qed.

Lemma calm_after_failure o e w : calm w -> calm (after_failure o e w).
Proof. intros H. apply calm_tl in H. exact H. Qed.

Lemma calm_add_log ev w : calm w -> calm (add_log ev w).
Proof. intros H. exact H. Qed.

Lemma only_tape_calm w w' : only_tape w w' -> calm w -> calm w'.
Proof. intros (_ & He & _) H. unfold calm. rewrite He. exact H. Qed.

Create HintDb calm.
#[global] Hint Resolve calm_after_call calm_after_failure calm_add_log : calm.

Lemma write_calm f data w c :
  calm w -> fs w !! f_path f = Some (File c) ->
  write f data w =
    (Ok (mkFile (f_path f) (f_pos f + len data)),
     after_call (OpWrite (f_path f) (f_pos f) data)
       (<[f_path f := File (write_at c (f_pos f) data)]> (fs w)) w).
Proof.
  intros Hc Hf. unfold write. apply syscall_calm_ok; [exact Hc |].
  rewrite Hf. reflexivity.
Qed.

(** In a calm environment, with a positive chunk size and a turn of the
    loop for every byte left, the streaming loop returns. *)
Lemma stream_loop_returns fuel :
  forall f size chunk (samples : list Sample) (expected filled : list bytearray)
         written w c,
    calm w -> 0 < chunk ->
    fs w !! f_path f = Some (File c) ->
    (Z.to_nat (size - written) <= fuel)%nat ->
    Forall2 (fun s e => len e = length s) samples expected ->
    Forall2 (covered_upto written) samples filled ->
    exists f' ex' fi' w',
      stream_loop fuel f size chunk true samples expected filled written w
        = (Ok (f', (ex', fi')), w') /\ calm w'.
Proof.
  induction fuel as [| fuel IH];
    intros f size chunk samples expected filled written w c Hc Hchunk Hf Hfuel Hexp Hfil;
    cbn [stream_loop]; destruct (Z.ltb_spec written size) as [Hlt | Hge].
  - lia.
  - eexists _, _, _, _. split; [reflexivity | exact Hc].
  - set (n := Z.min chunk (size - written)).
    destruct (token_bytes_total n w ltac:(lia)) as (data & w1 & Hd & Hl & Ht).
    rewrite (bind_ok _ _ _ _ _ Hd).
    assert (exists ex1 fi1,
              (if true && nonempty samples
               then lift (capture_expected_from_chunk samples expected filled data written)
               else ret (expected, filled)) w1 = (Ok (ex1, fi1), w1) /\
              Forall2 (fun s e => len e = length s) samples ex1 /\
              Forall2 (covered_upto (written + n)) samples fi1) as (ex1 & fi1 & Hcap & He1 & Hf1).
    { destruct samples as [| s rest]; cbn [andb nonempty].
      - exists expected, filled. split; [reflexivity |].
        apply Forall2_nil_inv_l in Hfil. subst filled. split; [exact Hexp | constructor].
      - destruct (capture_loop_spec data written (s :: rest) 0 expected filled)
          as (ex & fi & Hrun & _).
        { intros k s' Hk. simpl.
          destruct (Forall2_lookup_l _ _ _ _ _ Hexp Hk) as (e & He & Hle).
          destruct (Forall2_lookup_l _ _ _ _ _ Hfil Hk) as (m & Hm & Hlm & _).
          exists e, m. auto. }
        exists ex, fi. unfold lift, capture_expected_from_chunk. rewrite Hrun.
        split; [reflexivity |]. rewrite <- Hl.
        eapply capture_moves_front; [exact Hexp | exact Hfil |].
        unfold capture_expected_from_chunk. exact Hrun. }
    rewrite (bind_ok _ _ _ _ _ Hcap). cbn [fst snd].
    assert (calm w1) as Hc1 by (eapply only_tape_calm; eassumption).
    assert (fs w1 !! f_path f = Some (File c)) as Hf1'.
    { destruct Ht as (-> & _). exact Hf. }
    rewrite (bind_ok _ _ _ _ _ (write_calm f data w1 c Hc1 Hf1')).
    eapply IH; try eassumption.
    + apply calm_after_call. exact Hc1.
    + simpl. apply lookup_insert_eq.
    + subst n. lia.
  - eexists _, _, _, _. split; [reflexivity | exact Hc].
Qed.

Lemma all_filled_spec (m : bytearray) :
  all_filled m = true <-> forall b, b ∈ m -> b = x01.
Proof.
  unfold all_filled. rewrite forallb_forall. split.
  - intros H b Hb. apply Byte.byte_dec_bl, H, list_elem_of_In, Hb.
  - intros H b Hb. apply Byte.byte_dec_lb, H, list_elem_of_In, Hb.
Qed.

(** C2. Take a pass over a file of [size > 0] bytes, samples that lie
    inside the file ([0 <= offset], [offset + length <= size]), [expected]
    buffers of the samples' lengths and the masks the pass creates
    ([fresh_filled]). (1) Whenever the streaming loop, started at offset 0,
    has returned - every chunk written at consecutive offsets up to [size]
    and fed to the tracker - every mask has the length of its sample and
    every byte of every mask is 1, so the check that follows lets the pass
    go on. (2) Were any entry of any mask not 1, the end of the pass would
    raise the internal-consistency [RuntimeError] and leave the world as it
    was: no read-back, no system call at all. (3) The loop does return: in
    a calm environment, with a positive chunk size, the handle on a regular
    file and a turn of the loop for every byte. *)
Theorem streaming_covers_every_sample
    (fuel : nat) (f : file) (size chunk_size : Z)
    (samples : list Sample) (expected : list bytearray) (w : world) :
  0 < size ->
  Forall (fun s => 0 <= offset s /\ offset s + length s <= size) samples ->
  Forall2 (fun s e => len e = length s) samples expected ->
  (forall f' expected' filled' w',
      stream_loop fuel f size chunk_size true samples expected
                  (fresh_filled samples) 0 w
        = (Ok (f', (expected', filled')), w') ->
      Forall2 (fun s m => len m = length s /\ forall b, b ∈ m -> b = x01)
              samples filled' /\
      check_filled filled' w' = (Ok tt, w')) /\
  (forall p drop_cache (filled : list bytearray) w0,
      samples <> [] ->
      Exists (fun m => exists b, b ∈ m /\ b <> x01) filled ->
      verify_pass f p size true drop_cache samples expected filled w0
        = (Raise (RuntimeError CaptureFailed), w0)) /\
  (calm w -> 0 < chunk_size -> (Z.to_nat size <= fuel)%nat ->
   (exists c, fs w !! f_path f = Some (File c)) ->
   exists f' expected' filled' w',
     stream_loop fuel f size chunk_size true samples expected
                 (fresh_filled samples) 0 w
       = (Ok (f', (expected', filled')), w')).
Proof.
  intros Hsize Hin Hexp.
  assert (Hfresh : Forall2 (covered_upto 0) samples (fresh_filled samples)).
  { eapply fresh_filled_covered; [exact Hexp |].
    eapply Forall_impl; [exact Hin |]. intros s [H _]. exact H. }
  split; [| split].
  - intros f' ex' fi' w' Hrun.
    destruct (stream_loop_covers _ _ _ _ _ _ _ _ _ _ _ _ _ Hexp Hfresh Hrun) as [_ Hcov].
    assert (Hall : Forall2 (fun s m => len m = length s /\ all_filled m = true) samples fi').
    { apply Forall2_same_length_lookup_2; [eapply Forall2_length; exact Hcov |].
      intros i s m Hs Hm.
      pose proof (Forall2_lookup_lr _ _ _ _ _ _ Hcov Hs Hm) as Hc.
      pose proof (Forall_lookup_1 _ _ _ _ Hin Hs) as [_ Hb].
      split; [apply Hc | eapply covered_all_filled; eassumption]. }
    split.
    + eapply Forall2_impl; [exact Hall |].
      intros s m [Hl Hf]. split; [exact Hl | apply all_filled_spec, Hf].
    + apply check_filled_passes.
      eapply Forall2_Forall_r; [exact Hall |].
      apply Forall_true. intros m s [_ H]. exact H.
  - intros p drop filled w0 Hne Hbad.
    unfold verify_pass.
    destruct samples as [| s rest]; [congruence |]. cbn [andb nonempty].
    assert (Hbad' : Exists (fun m => all_filled m = false) filled).
    { eapply Exists_impl; [exact Hbad |].
      intros m (b & Hb & Hne1).
      destruct (all_filled m) eqn:E; [| reflexivity].
      destruct Hne1. apply (proj1 (all_filled_spec m) E b Hb). }
    rewrite (bind_raise _ _ _ _ _ (check_filled_raises filled w0 Hbad')).
    reflexivity.
  - intros Hc Hchunk Hfuel [c Hf].
    destruct (stream_loop_returns fuel f size chunk_size samples expected
                (fresh_filled samples) 0 w c Hc Hchunk Hf)
      as (f' & ex' & fi' & w' & Hrun & _); try assumption.
    + rewrite Z.sub_0_r. exact Hfuel.
    + eauto.
Qed.

(** Ten bytes streamed in chunks of four over the two samples: the loop
    returns, and both masks are all ones. *)
Lemma streaming_covers_every_sample_witness :
  exists f' expected' filled' w',
    stream_loop 10 secret_handle 10 4 true two_samples
                [replicate 3 x00; replicate 3 x00] (fresh_filled two_samples) 0
                (ten_bytes_world [])
      = (Ok (f', (expected', filled')), w') /\
    Forall2 (fun s m => len m = length s /\ forall b, b ∈ m -> b = x01)
            two_samples filled'.
Proof.
  destruct (streaming_covers_every_sample 10 secret_handle 10 4 two_samples
              [replicate 3 x00; replicate 3 x00] (ten_bytes_world []))
    as (Hcover & _ & Hreturns).
  - lia.
  - repeat constructor; simpl; lia.
  - repeat constructor.
  - destruct Hreturns as (f' & ex' & fi' & w' & Hrun).
    + constructor.
    + lia.
    + simpl. lia.
    + exists (replicate 10 x41). reflexivity.
    + exists f', ex', fi', w'. split; [exact Hrun |].
      apply (Hcover _ _ _ _ Hrun).
Defined.

(* --------------------------------------------------------------------- *)
(** ** What can be raised, and where *)
(* --------------------------------------------------------------------- *)

Section RaisesIn.
Context (E : exn -> Prop).

Lemma raises_in_ret {A : Type} (a : A) : raises_in E (ret a).
Proof. intros w e w' H. discriminate. Qed.

Lemma raises_in_raise {A : Type} x : E x -> raises_in E (@raise A x).
Proof. intros Hx w e w' H. injection H as <- _. exact Hx. Qed.

Lemma raises_in_bind {A B : Type} (m : M A) (k : A -> M B) :
  raises_in E m -> (forall a, raises_in E (k a)) -> raises_in E (bind m k).
Proof.
  intros Hm Hk w e w' H. bind_cases H.
  - eapply Hk; eassumption.
  - injection Hk0 as ->. eapply Hm; eassumption.
  - discriminate.
Qed.

Lemma raises_in_syscall {A : Type} o (sem : gmap Path node -> errno + (A * gmap Path node)) :
  (forall k, E (OSError k)) -> raises_in E (syscall o sem).
Proof.
  intros HE w e w' H.
  destruct (syscall_log o sem w) as [(x & Hr & _) | (k & Hr & _)];
    rewrite H in Hr; simpl in Hr; [discriminate |].
  injection Hr as ->. apply HE.
Qed.

Lemma raises_in_try_pass (m : M unit) : raises_in E (try_pass m).
Proof.
  intros w e w' H. unfold try_pass in H.
  destruct (m w) as [[[] | x |] w1]; discriminate.
Qed.

Lemma raises_in_print msg : raises_in E (print msg).
Proof. intros w e w' H. discriminate. Qed.

Lemma raises_in_draw : raises_in E draw.
Proof. intros w e w' H. unfold draw in H. destruct (tape w); discriminate. Qed.

Lemma raises_in_fsync_dir d : raises_in E (fsync_dir_best_effort d).
Proof.
  intros w e w' H. unfold fsync_dir_best_effort in H.
  destruct (negb (os_posix (plat w))); [discriminate |].
  eapply raises_in_try_pass. exact H.
Qed.

Lemma raises_in_truncate_stage current : raises_in E (truncate_stage current).
Proof. apply raises_in_try_pass. Qed.
End RaisesIn.

(** One step through a computation, for [raises_in]. *)
Ltac raises_step :=
  lazymatch goal with
  | |- raises_in _ (ret _) => apply raises_in_ret
  | |- raises_in _ (raise _) => apply raises_in_raise; try exact I
  | |- raises_in _ (print _) => apply raises_in_print
  | |- raises_in _ draw => apply raises_in_draw
  | |- raises_in _ (fsync_dir_best_effort _) => apply raises_in_fsync_dir
  | |- raises_in _ (truncate_stage _) => apply raises_in_truncate_stage
  | |- raises_in _ (bind _ _) => apply raises_in_bind; [| intros ?]
  | |- raises_in _ (if ?b then _ else _) => destruct b
  | |- raises_in _ (match ?x with _ => _ end) => destruct x
  end.

Lemma raises_in_rand_name_hex n : raises_in plain_error (rand_name_hex n).
Proof.
  unfold rand_name_hex, token_hex, token_bytes. repeat raises_step.
  induction (Z.to_nat n); cbn [draw_bytes]; repeat raises_step. exact IHn0.
Qed.

Lemma raises_in_with_name current n : raises_in plain_error (lift (with_name current n)).
Proof.
  intros w e w' H. unfold lift, with_name in H.
  destruct (decide (name current = EmptyString)); [| discriminate].
  injection H as <- _. exact I.
Qed.

Lemma raises_in_collision_loop fuel :
  forall current candidate tries,
    raises_in plain_error (collision_loop fuel current candidate tries).
Proof.
  induction fuel as [| fuel IH]; intros current candidate tries;
    cbn [collision_loop]; apply raises_in_bind.
  - intros w e w' H. discriminate.
  - intros taken. destruct (taken && (tries <? 10)); [| apply raises_in_ret].
    intros w e w' H. discriminate.
  - intros w e w' H. discriminate.
  - intros taken. destruct (taken && (tries <? 10)); [| apply raises_in_ret].
    apply raises_in_bind; [apply raises_in_rand_name_hex | intros new_name].
    apply raises_in_bind; [apply raises_in_with_name | intros c]. apply IH.
Qed.

Lemma raises_in_rename_loop n :
  forall current, raises_in plain_error (rename_loop n current).
Proof.
  induction n as [| n IH]; intros current; cbn [rename_loop]; [apply raises_in_ret |].
  apply raises_in_bind; [| exact IH].
  unfold rename_once.
  apply raises_in_bind; [| intros picked].
  { unfold pick_candidate.
    apply raises_in_bind; [apply raises_in_rand_name_hex | intros new_name].
    apply raises_in_bind; [apply raises_in_with_name | intros c].
    apply raises_in_collision_loop. }
  apply raises_in_bind; [apply raises_in_syscall; intros; exact I | intros _].
  repeat raises_step.
Qed.

(** The deletion sequence raises nothing but the failure of a system call
    or a [ValueError]. *)
Lemma raises_in_rename_truncate_unlink p rename_passes keep :
  raises_in plain_error (rename_truncate_unlink p rename_passes keep).
Proof.
  unfold rename_truncate_unlink.
  apply raises_in_bind; [apply raises_in_rename_loop | intros current].
  apply raises_in_bind; [apply raises_in_truncate_stage | intros _].
  destruct keep.
  - repeat raises_step.
  - apply raises_in_bind; [apply raises_in_syscall; intros; exact I | intros _].
    repeat raises_step.
Qed.

(** How a run ended and what it changed, from the equation of the run. *)
Lemma sat_run {A : Type} Q (m : M A) w r w' :
  sat Q m -> m w = (r, w') -> Q w (outcome_of r) w'.
Proof. intros H E. specialize (H w). rewrite E in H. exact H. Qed.

#[global] Instance both_sequential Q1 Q2 `{!Sequential Q1} `{!Sequential Q2} :
  Sequential (both Q1 Q2).
Proof.
  split.
  - intros w t. split; apply seq_here.
  - intros w w1 w' t [H1 H2] [H3 H4]. split; eapply seq_then; eassumption.
Qed.

#[global] Instance both_insensitive Q1 Q2 `{!Insensitive Q1} `{!Insensitive Q2} :
  Insensitive (both Q1 Q2).
Proof. intros w t t' w' [H1 H2]. split; eapply insensitive; eassumption. Qed.

Lemma sat_both {A : Type} Q1 Q2 (m : M A) : sat Q1 m -> sat Q2 m -> sat (both Q1 Q2) m.
Proof. intros H1 H2 w. split; [apply H1 | apply H2]. Qed.

#[global] Instance undeleted_sequential : Sequential undeleted.
Proof. unfold undeleted. exact _. Qed.

#[global] Instance undeleted_insensitive : Insensitive undeleted.
Proof. unfold undeleted. exact _. Qed.

(* --------------------------------------------------------------------- *)
(** ** The read-back *)
(* --------------------------------------------------------------------- *)

Lemma seek_calm f off w :
  calm w -> 0 <= off ->
  seek f off w = (Ok (mkFile (f_path f) off), after_call (OpSeek (f_path f) off) (fs w) w).
Proof.
  intros Hc Hoff. unfold seek. apply syscall_calm_ok; [exact Hc |].
  destruct (Z.ltb_spec off 0); [lia | reflexivity].
Qed.

Lemma read_calm f n w c :
  calm w -> fs w !! f_path f = Some (File c) ->
  read f n w =
    (Ok (mkFile (f_path f) (f_pos f + len (read_at c (f_pos f) n)), read_at c (f_pos f) n),
     after_call (OpRead (f_path f) (f_pos f) n) (fs w) w).
Proof.
  intros Hc Hf. unfold read. apply syscall_calm_ok; [exact Hc |].
  rewrite Hf. reflexivity.
Qed.

(** The read-back on a calm device, over a file of content [c]: either
    every sample reads as expected and the loop returns, or it stops at the
    first sample that does not, right after reading it, with the error
    that names the pass, the sample (counted from 1) and its offset. *)
Lemma read_back_calm (samples : list Sample) :
  forall f p (i : nat) (expected : list bytearray) w c,
    calm w -> fs w !! f_path f = Some (File c) ->
    Forall (fun s => 0 <= offset s) samples ->
    (forall (k : nat) s, samples !! k = Some s -> is_Some (expected !! (i + k)%nat)) ->
    (exists f' w',
        read_back f p i samples expected w = (Ok f', w') /\
        calm w' /\ fs w' = fs w /\
        forall (k : nat) s e,
          samples !! k = Some s -> expected !! (i + k)%nat = Some e ->
          read_at c (offset s) (length s) = e) \/
    (exists (k : nat) s e w',
        samples !! k = Some s /\ expected !! (i + k)%nat = Some e /\
        read_at c (offset s) (length s) <> e /\
        read_back f p i samples expected w
          = (Raise (RuntimeError (VerificationFailed p (Z.of_nat (i + k) + 1) (offset s))), w') /\
        calm w' /\ fs w' = fs w /\
        exists older,
          log w' = Done (OpRead (f_path f) (offset s) (length s))
                   :: Done (OpSeek (f_path f) (offset s)) :: older).
Proof.
  induction samples as [| s rest IH]; intros f p i expected w c Hc Hf Hoff Hexp.
  - left. exists f, w. split; [reflexivity |]. split; [exact Hc |].
    split; [reflexivity |]. intros k s e Hk. rewrite lookup_nil in Hk. discriminate.
  - apply Forall_cons in Hoff as [Hs Hoff].
    destruct (Hexp 0%nat s eq_refl) as [e He]. rewrite Nat.add_0_r in He.
    set (w1 := after_call (OpSeek (f_path f) (offset s)) (fs w) w).
    assert (Hc1 : calm w1) by (apply calm_after_call; exact Hc).
    set (w2 := after_call (OpRead (f_path f) (offset s) (length s)) (fs w1) w1).
    assert (Hc2 : calm w2) by (apply calm_after_call; exact Hc1).
    assert (Hstep :
      read_back f p i (s :: rest) expected w =
      if decide (read_at c (offset s) (length s) = e)
      then read_back (mkFile (f_path f) (offset s + len (read_at c (offset s) (length s))))
                     p (S i) rest expected w2
      else (Raise (RuntimeError (VerificationFailed p (Z.of_nat i + 1) (offset s))), w2)).
    { cbn [read_back].
      rewrite (bind_ok _ _ _ _ _ (seek_calm f (offset s) w Hc Hs)).
      rewrite (bind_ok _ _ _ _ _
                 (read_calm (mkFile (f_path f) (offset s)) (length s) w1 c Hc1 Hf)).
      cbn [f_path f_pos fst snd]. rewrite He, bind_ret.
      destruct (decide (read_at c (offset s) (length s) = e)); reflexivity. }
    rewrite Hstep. clear Hstep.
    destruct (decide (read_at c (offset s) (length s) = e)) as [Heq | Hne].
    + destruct (IH (mkFile (f_path f) (offset s + len (read_at c (offset s) (length s))))
                  p (S i) expected w2 c Hc2 Hf Hoff) as [Hok | Hbad].
      { intros k s' Hk. replace (S i + k)%nat with (i + S k)%nat by lia.
        apply (Hexp (S k) s' Hk). }
      * destruct Hok as (f' & w' & Hrun & Hc' & Hfs & Hall).
        left. exists f', w'. split; [exact Hrun |]. split; [exact Hc' |].
        split; [rewrite Hfs; reflexivity |].
        intros [| k] s' e' Hk He'.
        -- simpl in Hk. injection Hk as <-. rewrite Nat.add_0_r in He'. congruence.
        -- simpl in Hk. replace (i + S k)%nat with (S i + k)%nat in He' by lia.
           apply (Hall k s' e' Hk He').
      * destruct Hbad as (k & s' & e' & w' & Hk & He' & Hne & Hrun & Hc' & Hfs & older & Hlog).
        right. exists (S k), s', e', w'. split; [exact Hk |].
        replace (i + S k)%nat with (S i + k)%nat by lia.
        split; [exact He' |]. split; [exact Hne |]. split; [exact Hrun |].
        split; [exact Hc' |]. split; [rewrite Hfs; reflexivity |].
        exists older. exact Hlog.
    + right. exists 0%nat, s, e, w2. split; [reflexivity |].
      rewrite Nat.add_0_r. split; [exact He |]. split; [exact Hne |].
      split; [reflexivity |]. split; [exact Hc2 |]. split; [reflexivity |].
      eexists. reflexivity.
Qed.

(* --------------------------------------------------------------------- *)
(** ** A failed pass stops the wipe *)
(* --------------------------------------------------------------------- *)

Lemma raises_in_mono {A : Type} (E E' : exn -> Prop) (m : M A) :
  (forall e, E e -> E' e) -> raises_in E m -> raises_in E' m.
Proof. intros Hsub H w e w' Hr. apply Hsub. eapply H. exact Hr. Qed.

Lemma plain_no_mismatch e : plain_error e -> no_mismatch e.
Proof. destruct e as [k | q | q | [] | v | | |]; simpl; auto. Qed.

Lemma raises_in_input : raises_in no_mismatch input.
Proof.
  intros w e w' H. unfold input in H. destruct (stdin w); [| discriminate].
  injection H as <- _. exact I.
Qed.

Lemma raises_in_confirm p o : raises_in no_mismatch (confirm p o).
Proof.
  unfold confirm. destruct (force o); [apply raises_in_ret |].
  repeat raises_step. apply raises_in_input.
Qed.

Lemma raises_in_build_pass_count lo hi r :
  raises_in no_mismatch (build_pass_count lo hi r).
Proof. unfold build_pass_count, randbelow. repeat raises_step. Qed.

(** A regular file passes the three checks. *)
Lemma wipe_file_regular fuel p o w c :
  fs w !! p = Some (File c) -> wipe_file fuel p o w = wipe_checked fuel p o w.
Proof.
  intros Hf. unfold wipe_file.
  rewrite (bind_ok _ _ w _ w (eq_refl : path_exists p w = _)).
  rewrite (resolve_file _ _ _ _ Hf).
  rewrite bool_decide_eq_true_2 by eauto. cbv beta iota delta [negb].
  rewrite (bind_ok _ _ w _ w (eq_refl : path_is_dir p w = _)).
  rewrite (resolve_file _ _ _ _ Hf).
  rewrite (bind_ok _ _ w _ w (eq_refl : path_is_symlink p w = _)).
  rewrite Hf. reflexivity.
Qed.

(** Anything else is refused, the world untouched. *)
Lemma wipe_file_refusal fuel p o w :
  (forall c, fs w !! p <> Some (File c)) ->
  exists e, wipe_file fuel p o w = (Raise e, w) /\
            (e = FileNotFoundError p \/ e = IsADirectoryError p \/
             e = RuntimeError (SymlinkRefused p)).
Proof.
  intros Hnf. pose proof (wipe_file_checks fuel p o w) as Hc.
  destruct (resolve max_hops (fs w) p) as [[q [c | | t]] |] eqn:R; eauto.
  - destruct (fs w !! p) as [[c' | | t'] |] eqn:E; eauto.
    + destruct (Hnf c' eq_refl).
    + rewrite (resolve_dir _ _ _ E) in R. discriminate.
    + rewrite (resolve_absent _ _ _ E) in R. discriminate.
  - destruct (resolve_not_link _ _ _ _ _ R).
Qed.

Lemma undeleted_syscall {A : Type} o (sem : gmap Path node -> errno + (A * gmap Path node)) :
  overwrite_call o -> (forall m x m', sem m = inr (x, m') -> m' = m) ->
  sat undeleted (syscall o sem).
Proof.
  intros Ho Hs. apply sat_both; [apply log_grows_syscall, Ho | apply kinds_kept_reader, Hs].
Qed.

Lemma undeleted_draw : sat undeleted draw.
Proof. apply sat_both; [apply log_grows_draw | apply kinds_kept_draw]. Qed.

Lemma undeleted_print m : sat undeleted (print m).
Proof. apply sat_both; [apply log_grows_print | apply kinds_kept_print]. Qed.

Lemma undeleted_stat_size p : sat undeleted (stat_size p).
Proof.
  apply undeleted_syscall; [exact I |]. intros m x m' S.
  destruct (resolve max_hops m p) as [[r [c | | t]] |]; congruence.
Qed.

Lemma undeleted_confirm p o : sat undeleted (confirm p o).
Proof.
  apply sat_confirm; [exact _ | apply undeleted_print |].
  apply sat_both; [apply log_grows_input | apply kinds_kept_input].
Qed.

Lemma undeleted_overwrite fuel p passes chunk verify vs vl drop :
  sat undeleted (overwrite_random_streaming fuel p passes chunk verify vs vl drop).
Proof.
  apply sat_both; [apply log_grows_overwrite; auto | apply kinds_kept_overwrite].
Qed.

(** A verification mismatch that comes out of [wipe_checked] came out of
    the overwrite passes: the world is the one the failed pass left. *)
Lemma wipe_checked_mismatch fuel p o w pass sample off w' :
  wipe_checked fuel p o w = (Raise (RuntimeError (VerificationFailed pass sample off)), w') ->
  undeleted w Returned w'.
Proof.
  intros H. unfold wipe_checked in H.
  split_bind H as go w1 Hm1 H1; [| | discriminate].
  2:{ injection H1 as <-. destruct (raises_in_confirm p o _ _ _ Hm1). }
  pose proof (sat_run _ _ _ _ _ (undeleted_confirm p o) Hm1) as Q1.
  destruct go; cbv beta iota delta [negb] in H1; [| discriminate].
  split_bind H1 as passes w2 Hm2 H2; [| | discriminate].
  2:{ injection H2 as <-. destruct (raises_in_build_pass_count _ _ _ _ _ _ Hm2). }
  pose proof (sat_run _ _ _ _ _
                (sat_build_pass_count undeleted undeleted_draw _ _ _) Hm2) as Q2.
  split_bind H2 as size w3 Hm3 H3; [| | discriminate].
  2:{ injection H3 as <-.
      destruct (raises_in_syscall no_mismatch _ _ (fun _ => I) _ _ _ Hm3). }
  pose proof (sat_run _ _ _ _ _ (undeleted_stat_size p) Hm3) as Q3.
  split_bind H3 as u w4 Hm4 H4; [| discriminate | discriminate].
  pose proof (sat_run _ _ _ _ _ (undeleted_print _) Hm4) as Q4.
  assert (Qpre : undeleted w Returned w4).
  { eapply seq_then; [exact Q1 |]. eapply seq_then; [exact Q2 |].
    eapply seq_then; [exact Q3 | exact Q4]. }
  split_bind H4 as u5 w5 Hm5 H5; [| | discriminate].
  - split_bind H5 as final w6 Hm6 H6; [| | discriminate].
    + destruct (keep o); discriminate.
    + injection H6 as <-.
      destruct (plain_no_mismatch _ (raises_in_rename_truncate_unlink _ _ _ _ _ _ Hm6)).
  - injection H5 as <-.
    destruct (0 <? size); [| discriminate].
    pose proof (sat_run _ _ _ _ _ (undeleted_overwrite _ _ _ _ _ _ _ _) Hm5) as Q5.
    eapply seq_then; [exact Qpre |].
    eapply (insensitive (Q := undeleted)). exact Q5.
Qed.

(** C3. (1) At the end of a pass [p] on a calm device, with every mask
    filled: if the bytes of the file at some sample differ from the bytes
    captured for it, the pass raises the [RuntimeError] "Verification
    failed on pass p: sample k+1 mismatch at offset o", where sample [k]
    (counted from 0) is one that differs and [o] is its offset; it raises
    right after reading that sample. (2) A pass that raises ends the loop
    over the passes: the passes that remain are not run, the world is the
    one the failed pass left. (3) Whenever [wipe_file] ends with a
    verification mismatch, the log has grown by no rename, truncate or
    unlink, every entry is of the kind it was, and the target is still a
    regular file at its path. *)
Theorem verification_mismatch_aborts :
  (forall f p size drop_cache (samples : list Sample)
          (expected filled : list bytearray) w c,
      calm w -> fs w !! f_path f = Some (File c) ->
      Forall (fun s => 0 <= offset s) samples ->
      List.length expected = List.length samples ->
      Forall (fun m => all_filled m = true) filled ->
      (exists (k : nat) s e,
          samples !! k = Some s /\ expected !! k = Some e /\
          read_at c (offset s) (length s) <> e) ->
      exists (k : nat) s e w',
        samples !! k = Some s /\ expected !! k = Some e /\
        read_at c (offset s) (length s) <> e /\
        verify_pass f p size true drop_cache samples expected filled w
          = (Raise (RuntimeError (VerificationFailed p (Z.of_nat k + 1) (offset s))), w') /\
        exists older,
          log w' = Done (OpRead (f_path f) (offset s) (length s))
                   :: Done (OpSeek (f_path f) (offset s)) :: older) /\
  (forall fuel f p rest passes size chunk verify vs vl drop w e w1,
      run_pass fuel f p passes size chunk verify vs vl drop w = (Raise e, w1) ->
      pass_loop fuel f (p :: rest) passes size chunk verify vs vl drop w
        = (Raise e, w1)) /\
  (forall fuel target o w pass sample off w',
      wipe_file fuel target o w
        = (Raise (RuntimeError (VerificationFailed pass sample off)), w') ->
      (exists new, log w' = new ++ log w /\
         Forall (fun ev => forall c, op_of ev = Some c -> ~ deletion_call c) new) /\
      (forall q, kind_of (fs w' !! q) = kind_of (fs w !! q)) /\
      exists c c', fs w !! target = Some (File c) /\ fs w' !! target = Some (File c')).
Proof.
  split; [| split].
  - intros f p size drop samples expected filled w c Hc Hf Hoff Hlen Hfill
           (k0 & s0 & e0 & Hs0 & He0 & Hne0).
    destruct (read_back_calm samples f p 0 expected w c Hc Hf Hoff) as [Hok | Hbad].
    { intros k s Hk. simpl. apply lookup_lt_is_Some. apply lookup_lt_Some in Hk. lia. }
    + destruct Hok as (f' & w' & _ & _ & _ & Hall).
      destruct Hne0. apply (Hall k0 s0 e0 Hs0 He0).
    + destruct Hbad as (k & s & e & w' & Hs & He & Hne & Hrun & _ & _ & older & Hlog).
      exists k, s, e, w'. simpl in He, Hrun.
      split; [exact Hs |]. split; [exact He |]. split; [exact Hne |]. split.
      * unfold verify_pass.
        destruct samples as [| s1 rest]; [rewrite lookup_nil in Hs; discriminate |].
        cbn [andb nonempty].
        rewrite (bind_ok _ _ _ _ _ (check_filled_passes filled w Hfill)).
        rewrite (bind_raise _ _ _ _ _ Hrun). reflexivity.
      * exists older. exact Hlog.
  - intros fuel f p rest passes size chunk verify vs vl drop w e w1 Hrun.
    cbn [pass_loop]. apply bind_raise. exact Hrun.
  - intros fuel target o w pass sample off w' Hrun.
    destruct (fs w !! target) as [[c | | t] |] eqn:E.
    2-4: (destruct (wipe_file_refusal fuel target o w) as (e & He & Hcase);
          [intros c; rewrite E; discriminate |];
          rewrite He in Hrun; injection Hrun as -> _;
          destruct Hcase as [? | [? | ?]]; discriminate).
    rewrite (wipe_file_regular _ _ _ _ _ E) in Hrun.
    destruct (wipe_checked_mismatch _ _ _ _ _ _ _ _ Hrun) as [(new & Hlog & Hnew) Hkinds].
    split; [| split].
    + exists new. split; [exact Hlog |].
      eapply Forall_impl; [exact Hnew |].
      intros [c0 | c0 k | m | a] Hev c1 Hc1; simpl in *;
        try discriminate; injection Hc1 as <-; destruct c0; simpl in *; tauto.
    + exact Hkinds.
    + specialize (Hkinds target). rewrite E in Hkinds.
      destruct (fs w' !! target) as [[c' | | t'] |]; try discriminate. eauto.
Qed.

(** A byte altered between the write and the read-back of the first pass:
    the wipe ends with the mismatch of sample 1 of pass 1 at offset 5, the
    file is still there and was neither renamed, truncated nor unlinked. *)
Lemma verification_mismatch_aborts_witness :
  (wipe_file 10 tmp_secret small_options corrupted_world).1
    = Raise (RuntimeError (VerificationFailed 1 1 5)) /\
  (exists new,
      log (wipe_file 10 tmp_secret small_options corrupted_world).2
        = new ++ log corrupted_world /\
      Forall (fun ev => forall c, op_of ev = Some c -> ~ deletion_call c) new) /\
  exists c c',
    fs corrupted_world !! tmp_secret = Some (File c) /\
    fs (wipe_file 10 tmp_secret small_options corrupted_world).2 !! tmp_secret
      = Some (File c').
Proof.
  assert (E : (wipe_file 10 tmp_secret small_options corrupted_world).1
              = Raise (RuntimeError (VerificationFailed 1 1 5)))
    by (vm_compute; reflexivity).
  split; [exact E |].
  pose proof (run_with_result _ _ E) as Hrun.
  destruct verification_mismatch_aborts as (_ & _ & Hwipe).
  destruct (Hwipe _ _ _ _ _ _ _ _ Hrun) as (Hlog & _ & Hfile).
  split; [exact Hlog | exact Hfile].
Defined.

(* --------------------------------------------------------------------- *)
(** ** The choice of a new name *)
(* --------------------------------------------------------------------- *)

Lemma hex_of_bytes_length (l : bytes) :
  String.length (hex_of_bytes l) = (2 * List.length l)%nat.
Proof. induction l as [| b l IH]; simpl; [reflexivity |]. rewrite IH. lia. Qed.



Lemma parent_with_name a l n :
  parent (mkPath a (removelast l ++ [n])) = mkPath a (removelast l).
Proof. unfold parent. simpl. rewrite removelast_last. reflexivity. Qed.




(* --------------------------------------------------------------------- *)
(** ** The deletion sequence on a calm device *)
(* --------------------------------------------------------------------- *)




Lemma open_rw_calm p w c :
  calm w -> fs w !! p = Some (File c) ->
  open_rw p w = (Ok (mkFile p 0), after_call (OpOpen p) (fs w) w).
Proof.
  intros Hc Hp. unfold open_rw. apply syscall_calm_ok; [exact Hc |].
  rewrite (resolve_file _ _ _ _ Hp). reflexivity.
Qed.













(* --------------------------------------------------------------------- *)
(** ** Collisions of the new name *)
(* --------------------------------------------------------------------- *)



(* --------------------------------------------------------------------- *)
(** ** The file of zero bytes *)
(* --------------------------------------------------------------------- *)


Lemma stat_size_calm p w c :
  calm w -> fs w !! p = Some (File c) ->
  stat_size p w = (Ok (len c), after_call (OpStat p) (fs w) w).
Proof.
  intros Hc Hp. unfold stat_size. apply syscall_calm_ok; [exact Hc |].
  rewrite (resolve_file _ _ _ _ Hp). reflexivity.
Qed.

(** No event of the deletion sequence on a calm device is a write. *)
Lemma rename_stage_no_write ev p off data :
  rename_stage_event ev -> ev <> Done (OpWrite p off data).
Proof. intros H ->. exact H. Qed.

Lemma dir_sync_no_write ev p off data :
  dir_sync_event ev -> ev <> Done (OpWrite p off data).
Proof. intros H ->. exact H. Qed.



(* --------------------------------------------------------------------- *)
(** ** Failures of system calls: propagated, or swallowed on purpose *)
(* --------------------------------------------------------------------- *)

#[global] Instance aborts_sequential hint : Sequential (aborts hint).
Proof.
  split.
  - intros w t. exists []. split; [reflexivity |]. left. constructor.
  - intros w w1 w' t (n1 & H1 & [B1 | ((x & Hx) & _)]) (n2 & H2 & S2);
      [| discriminate].
    exists (n2 ++ n1). split; [rewrite H2, H1; apply app_assoc |].
    destruct S2 as [B2 | (Hr & closes & o & e & before & -> & Hnh & Hcl & Hb)].
    + left. apply Forall_app. auto.
    + right. split; [exact Hr |].
      exists closes, o, e, (before ++ n1). split; [| split; [exact Hnh | split]].
      * rewrite <- app_assoc. reflexivity.
      * exact Hcl.
      * apply Forall_app. auto.
Qed.

Section Aborts.
Variable hint : op -> Prop.
Hypothesis hint_dec : forall o, hint o \/ ~ hint o.

(** What grows the log by benign events only aborts nothing. *)
Lemma aborts_of_log_grows {A : Type} (C : op -> Prop) (m : M A) :
  (forall o, C o -> hint o) ->
  sat (log_grows (calls_in C)) m -> sat (aborts hint) m.
Proof.
  intros Hsub Hm w. destruct (Hm w) as (new & Hlog & Hnew).
  exists new. split; [exact Hlog |]. left.
  eapply Forall_impl; [exact Hnew |].
  intros [o | o e | msg | a]; simpl; auto.
Qed.

Lemma aborts_quiet {A : Type} (m : M A) :
  (forall w, log (m w).2 = log w) -> sat (aborts hint) m.
Proof.
  intros H w. exists []. split; [apply H |]. left. constructor.
Qed.

Lemma aborts_draw : sat (aborts hint) draw.
Proof. apply aborts_quiet. intros w. unfold draw. destruct (tape w); reflexivity. Qed.

Lemma aborts_print msg : sat (aborts hint) (print msg).
Proof.
  intros w. exists [Print msg]. split; [reflexivity |]. left. repeat constructor.
Qed.

Lemma aborts_input : sat (aborts hint) input.
Proof.
  intros w. unfold input. destruct (stdin w) as [| l rest]; simpl.
  - exists []. split; [reflexivity |]. left. constructor.
  - exists [Input l]. split; [reflexivity |]. left. repeat constructor.
Qed.

(** A system call either succeeds, or fails and raises at once. *)
Lemma aborts_syscall {A : Type} o (sem : gmap Path node -> errno + (A * gmap Path node)) :
  sat (aborts hint) (syscall o sem).
Proof.
  intros w. destruct (syscall_log o sem w) as [(x & Hr & Hl) | (e & Hr & Hl)].
  - exists [Done o]. split; [exact Hl |]. left. repeat constructor.
  - exists [Failed o e]. split; [exact Hl |].
    destruct (hint_dec o) as [Hh | Hn].
    + left. repeat constructor. exact Hh.
    + right. rewrite Hr. split; [eexists; reflexivity |].
      exists [], o, e, []. repeat split; auto.
Qed.

(** [with open(...) as f: body]: a failure in [body] is followed by the
    closing of the file and nothing else. *)
Lemma aborts_with_open {A : Type} p (body : file -> M A) :
  (forall f, sat (aborts hint) (body f)) -> sat (aborts hint) (with_open p body).
Proof.
  intros Hb. unfold with_open. refine (sat_bind _ _ _ _ _); [apply aborts_syscall |].
  intros f w. specialize (Hb f w). unfold try_finally.
  destruct (body f w) as [rb wb] eqn:Eb. simpl in Hb.
  destruct Hb as (nb & Hlb & Sb).
  assert (Hc : (exists x, (close f wb).1 = Ok x /\
                          log (close f wb).2 = Done (OpClose (f_path f)) :: log wb) \/
               (exists e, (close f wb).1 = Raise (OSError e) /\
                          log (close f wb).2 = Failed (OpClose (f_path f)) e :: log wb))
    by apply syscall_log.
  destruct rb as [a | eb |].
  - (* the body returned *)
    destruct Sb as [Bb | ((x & Hx) & _)]; [| discriminate].
    destruct (close f wb) as [rc wc]. simpl in Hc.
    destruct Hc as [(x & -> & Hlc) | (e & -> & Hlc)]; simpl.
    + exists (Done (OpClose (f_path f)) :: nb). split; [rewrite Hlc, Hlb; reflexivity |].
      left. constructor; [exact I | exact Bb].
    + exists (Failed (OpClose (f_path f)) e :: nb).
      split; [rewrite Hlc, Hlb; reflexivity |].
      destruct (hint_dec (OpClose (f_path f))) as [Hh | Hn].
      * left. constructor; [exact Hh | exact Bb].
      * right. split; [eexists; reflexivity |].
        exists [], (OpClose (f_path f)), e, nb. repeat split; auto.
  - (* the body raised *)
    destruct (close f wb) as [rc wc]. simpl in Hc.
    assert (Hshape : forall ev t,
              closing ev -> benign hint ev \/ (exists k, ev = Failed (OpClose (f_path f)) k) ->
              (exists x, t = Raised x) ->
              Forall (benign hint) (ev :: nb) \/
              ((exists x, t = Raised x) /\
               exists closes o e before,
                 ev :: nb = closes ++ Failed o e :: before /\ ~ hint o /\
                 Forall closing closes /\ Forall (benign hint) before)).
    { intros ev t Hcl Hev Ht.
      destruct Sb as [Bb | (_ & closes & o & e & before & -> & Hnh & Hcls & Hbf)].
      - destruct Hev as [Hben | (k & ->)].
        + left. constructor; assumption.
        + destruct (hint_dec (OpClose (f_path f))) as [Hh | Hn].
          * left. constructor; assumption.
          * right. split; [exact Ht |].
            exists [], (OpClose (f_path f)), k, nb. repeat split; auto.
      - right. split; [exact Ht |].
        exists (ev :: closes), o, e, before. repeat split; auto. }
    destruct Hc as [(x & -> & Hlc) | (e & -> & Hlc)]; simpl.
    + exists (Done (OpClose (f_path f)) :: nb). split; [rewrite Hlc, Hlb; reflexivity |].
      apply Hshape; [exact I | left; exact I | eexists; reflexivity].
    + exists (Failed (OpClose (f_path f)) e :: nb).
      split; [rewrite Hlc, Hlb; reflexivity |].
      apply Hshape; [exact I | right; eexists; reflexivity | eexists; reflexivity].
  - (* the loop bound was reached *)
    simpl. exists nb. split; [exact Hlb |].
    destruct Sb as [Bb | ((x & Hx) & _)]; [left; exact Bb | discriminate].
Qed.
End Aborts.

Lemma best_effort_dec o : best_effort o \/ ~ best_effort o.
Proof. destruct o; simpl; tauto. Qed.

Lemma truncate_call_dec o : truncate_call o \/ ~ truncate_call o.
Proof. destruct o; simpl; tauto. Qed.

Section AbortsProgram.
Variable hint : op -> Prop.
Hypothesis hint_dec : forall o, hint o \/ ~ hint o.
Hypothesis hint_best_effort : forall o, best_effort o -> hint o.

Lemma aborts_fsync_dir d : sat (aborts hint) (fsync_dir_best_effort d).
Proof.
  apply (aborts_of_log_grows hint best_effort); [exact hint_best_effort |].
  apply sat_fsync_dir; try exact _; intros q; apply log_grows_syscall; exact I.
Qed.

Lemma aborts_drop_cache f size : sat (aborts hint) (linux_drop_page_cache_best_effort f size).
Proof.
  apply (aborts_of_log_grows hint best_effort); [exact hint_best_effort |].
  apply sat_drop_cache; try exact _. intros g off n. apply log_grows_syscall. exact I.
Qed.

Lemma aborts_overwrite fuel p passes chunk verify vs vl drop :
  sat (aborts hint) (overwrite_random_streaming fuel p passes chunk verify vs vl drop).
Proof.
  apply sat_overwrite_random_streaming; try exact _.
  - apply aborts_draw.
  - apply aborts_print.
  - intros q. apply aborts_syscall, hint_dec.
  - intros q body Hb. apply aborts_with_open; assumption.
  - intros f off. apply aborts_syscall, hint_dec.
  - intros f data. apply aborts_syscall, hint_dec.
  - intros f n. apply aborts_syscall, hint_dec.
  - intros f. apply aborts_syscall, hint_dec.
  - intros f. apply aborts_syscall, hint_dec.
  - apply aborts_drop_cache.
Qed.

Lemma aborts_rename_loop n current : sat (aborts hint) (rename_loop n current).
Proof.
  apply sat_rename_loop; try exact _.
  - apply aborts_draw.
  - intros src dst. apply aborts_syscall, hint_dec.
  - apply aborts_fsync_dir.
Qed.
End AbortsProgram.

(** What has no loop of its own never reaches a loop bound. *)
Lemma syscall_ends {A : Type} o (sem : gmap Path node -> errno + (A * gmap Path node)) w :
  (syscall o sem w).1 <> OutOfFuel.
Proof.
  destruct (syscall_log o sem w) as [(x & Hr & _) | (e & Hr & _)]; rewrite Hr; discriminate.
Qed.

Lemma bind_ends {A B : Type} (m : M A) (k : A -> M B) :
  (forall w, (m w).1 <> OutOfFuel) -> (forall a w, (k a w).1 <> OutOfFuel) ->
  forall w, (bind m k w).1 <> OutOfFuel.
Proof.
  intros Hm Hk w. specialize (Hm w). unfold bind.
  destruct (m w) as [[a | e |] w1]; simpl in *; [apply Hk | discriminate | contradiction].
Qed.

Lemma try_finally_ends {A : Type} (m : M A) (h : M unit) :
  (forall w, (m w).1 <> OutOfFuel) -> (forall w, (h w).1 <> OutOfFuel) ->
  forall w, (try_finally m h w).1 <> OutOfFuel.
Proof.
  intros Hm Hh w. specialize (Hm w). unfold try_finally.
  destruct (m w) as [[a | e |] w1]; simpl in *; [| | contradiction].
  - specialize (Hh w1). destruct (h w1) as [[[] | e |] w2]; simpl in *;
      [discriminate | discriminate | contradiction].
  - specialize (Hh w1). destruct (h w1) as [[[] | e' |] w2]; simpl in *;
      [discriminate | discriminate | contradiction].
Qed.

(** The truncate stage never raises, whatever fails in it. *)
Lemma truncate_stage_swallows current w : (truncate_stage current w).1 = Ok tt.
Proof.
  unfold truncate_stage, try_pass.
  pose proof (bind_ends (open_rw current)
                (fun f => try_finally
                            (let* _ := truncate f 0 in let* _ := flush f in fsync f)
                            (close f))
                (syscall_ends _ _)) as Hends.
  specialize (Hends ltac:(
    intros f; apply try_finally_ends;
      [repeat (apply bind_ends; [| intros ?]); apply syscall_ends
      | apply syscall_ends]) w).
  unfold with_open.
  destruct (bind (open_rw current) _ w) as [[[] | e |] w1]; simpl in *;
    [reflexivity | reflexivity | contradiction].
Qed.

(** A target whose wipe raises is reported, the exit code becomes 1, and
    [main] goes on with the targets that remain: the wipe of the failed
    target is not tried again. *)
Lemma main_loop_failed_target fuel t rest a code w e w1 :
  wipe_file fuel t (options_of_args a) w = (Raise e, w1) ->
  main_loop fuel (t :: rest) a code w
    = main_loop fuel rest a 1 (add_log (Print (MsgFailedOn t e)) w1).
Proof.
  intros Hw. cbn [main_loop].
  assert (Htry :
    try_except (let* _ := wipe_file fuel t (options_of_args a) in ret code)
               (fun e => let* _ := print (MsgFailedOn t e) in ret 1) w
    = (Ok 1, add_log (Print (MsgFailedOn t e)) w1)).
  { unfold try_except. rewrite (bind_raise _ _ _ _ _ Hw). reflexivity. }
  rewrite (bind_ok _ _ _ _ _ Htry). reflexivity.
Qed.

Lemma hint_or_dec o : (best_effort o \/ truncate_call o) \/ ~ (best_effort o \/ truncate_call o).
Proof. destruct o; simpl; tauto. Qed.

(** The whole wipe: what may fail without ending it is a best-effort call
    or a call of the truncate stage. *)
Lemma aborts_wipe_file fuel p o :
  sat (aborts (fun c => best_effort c \/ truncate_call c)) (wipe_file fuel p o).
Proof.
  set (hint := fun c => best_effort c \/ truncate_call c).
  assert (Hbe : forall c, best_effort c -> hint c) by (intros c H; left; exact H).
  apply sat_wipe_file; try exact _.
  - apply aborts_print.
  - apply aborts_input.
  - intros q. apply aborts_syscall, hint_or_dec.
  - intros lo hi r. apply sat_build_pass_count; [exact _ | apply aborts_draw].
  - intros. apply aborts_overwrite; first [apply hint_or_dec | exact Hbe].
  - intros q R k. apply sat_rename_truncate_unlink; try exact _.
    + apply aborts_draw.
    + intros src dst. apply aborts_syscall, hint_or_dec.
    + intros q'. apply aborts_syscall, hint_or_dec.
    + intros d. apply aborts_fsync_dir; first [apply hint_or_dec | exact Hbe].
    + intros c. apply (aborts_of_log_grows hint truncate_call).
      * intros c' H. right. exact H.
      * apply sat_truncate_stage; try exact _; intros; apply log_grows_syscall; exact I.
Qed.

(** C4, as the code has it. A failed system call ends the run it occurs
    in with its exception, at once, with nothing attempted after it but
    the closing of the open file - unless the call is one the program
    swallows on purpose. (1)-(4): in the overwrite passes, the size query,
    the renames and the unlink, the only calls swallowed are the
    best-effort ones (directory syncs, the cache hint). (5): the truncate
    stage of the deletion sequence never raises: a failure of its open,
    truncate, flush, sync or close is swallowed, and the sequence goes on
    to the unlink. (6): so for the whole of [wipe_file] the calls that may
    fail without ending the wipe are the best-effort ones and those of the
    truncate stage; any other failure ends it. (7): [main] reports the
    target whose wipe raised, sets the exit code to 1 and goes on with the
    targets that remain; it does not try the failed target again. *)
Theorem io_failure_aborts_target :
  (forall fuel p passes chunk verify vs vl drop,
      sat (aborts best_effort)
          (overwrite_random_streaming fuel p passes chunk verify vs vl drop)) /\
  (forall p, sat (aborts best_effort) (stat_size p)) /\
  (forall n current, sat (aborts best_effort) (rename_loop n current)) /\
  (forall p, sat (aborts best_effort) (unlink p)) /\
  (forall current w, (truncate_stage current w).1 = Ok tt) /\
  (forall fuel p o,
      sat (aborts (fun c => best_effort c \/ truncate_call c)) (wipe_file fuel p o)) /\
  (forall fuel t rest a code w e w1,
      wipe_file fuel t (options_of_args a) w = (Raise e, w1) ->
      main_loop fuel (t :: rest) a code w
        = main_loop fuel rest a 1 (add_log (Print (MsgFailedOn t e)) w1)).
Proof.
  split; [| split; [| split; [| split; [| split; [| split]]]]].
  - intros. apply aborts_overwrite; first [apply best_effort_dec | auto].
  - intros p. apply aborts_syscall, best_effort_dec.
  - intros n current. apply aborts_rename_loop; first [apply best_effort_dec | auto].
  - intros p. apply aborts_syscall, best_effort_dec.
  - apply truncate_stage_swallows.
  - apply aborts_wipe_file.
  - apply main_loop_failed_target.
Qed.

(** The disk is full at the first write of the first pass: the wipe ends
    with that error, the failed write is the last thing attempted but the
    closing of the file, and [main] reports it with exit code 1. *)
Lemma io_failure_aborts_target_witness :
  (wipe_file 10 tmp_secret small_options disk_full_world).1
    = Raise (OSError ENOSPC) /\
  aborts (fun c => best_effort c \/ truncate_call c)
         disk_full_world (Raised (OSError ENOSPC))
         (wipe_file 10 tmp_secret small_options disk_full_world).2 /\
  log (wipe_file 10 tmp_secret small_options disk_full_world).2 !! 0%nat
    = Some (Done (OpClose tmp_secret)) /\
  log (wipe_file 10 tmp_secret small_options disk_full_world).2 !! 1%nat
    = Some (Failed (OpWrite tmp_secret 0 [x03; x04; x05; x06]) ENOSPC).
Proof.
  assert (E : (wipe_file 10 tmp_secret small_options disk_full_world).1
              = Raise (OSError ENOSPC)) by (vm_compute; reflexivity).
  split; [exact E |]. split; [| split; vm_compute; reflexivity].
  destruct io_failure_aborts_target as (_ & _ & _ & _ & _ & Hwipe & _).
  specialize (Hwipe 10%nat tmp_secret small_options disk_full_world).
  rewrite E in Hwipe. exact Hwipe.
Defined.

(** C4 as stated fails at the truncate stage. The truncation of the
    overwritten file fails with an input/output error: nothing is raised,
    the sequence goes on ([keep] is set, so it ends there), [wipe_file]
    returns normally, [main] returns exit code 0, and the file still has
    its ten bytes. *)
Lemma truncate_failure_is_swallowed :
  (wipe_file 10 tmp_secret keep_options truncate_fails_world).1 = Ok tt /\
  log (wipe_file 10 tmp_secret keep_options truncate_fails_world).2 !! 5%nat
    = Some (Failed (OpTruncate tmp_secret 0) EIO) /\
  (exists c,
      fs (wipe_file 10 tmp_secret keep_options truncate_fails_world).2 !! tmp_secret
        = Some (File c) /\ len c = 10) /\
  (rename_truncate_unlink tmp_secret 0 true
     (set_env [Quiet; Fail EIO] (ten_bytes_world []))).1 = Ok tmp_secret.
Proof.
  split; [vm_compute; reflexivity |]. split; [vm_compute; reflexivity |].
  split; [| vm_compute; reflexivity].
  eexists. split; [vm_compute; reflexivity | reflexivity].
Qed.

(* --------------------------------------------------------------------- *)
(** ** The best-effort helpers never raise *)
(* --------------------------------------------------------------------- *)

(** A call that reads nothing and changes nothing: it succeeds with its
    value or fails with an [errno]; the kinds of the entries are kept
    either way. *)
Lemma syscall_neutral {A : Type} (o : op) (x : A) (w : world) :
  exists w',
    ((syscall o (fun m => inr (x, m)) w = (Ok x, w') /\ log w' = Done o :: log w) \/
     (exists e, syscall o (fun m => inr (x, m)) w = (Raise (OSError e), w') /\
                log w' = Failed o e :: log w)) /\
    forall q, kind_of (fs w' !! q) = kind_of (fs w !! q).
Proof.
  unfold syscall. destruct (hd Quiet (env w)) as [| e | p i b] eqn:E.
  - eexists. split; [left; split; reflexivity |]. reflexivity.
  - eexists. split; [right; eexists; split; reflexivity |]. reflexivity.
  - eexists. split; [left; split; reflexivity |].
    intros q. apply (disturb_kind (Corrupt p i b)).
Qed.

(** X1. On every device and platform, [fsync_dir_best_effort] returns
    normally: whatever fails in it is swallowed. Off POSIX it does nothing
    at all. Otherwise it attempts at most three calls, all on the directory
    it was given; no entry appears, disappears or changes kind; and a
    directory that was opened is closed, or its closing was attempted,
    also when the sync in between failed. *)
Theorem fsync_dir_best_effort_never_raises (d : Path) (w : world) :
  (fsync_dir_best_effort d w).1 = Ok tt /\
  (os_posix (plat w) = false -> fsync_dir_best_effort d w = (Ok tt, w)) /\
  (forall q, kind_of (fs (fsync_dir_best_effort d w).2 !! q) = kind_of (fs w !! q)) /\
  exists new,
    log (fsync_dir_best_effort d w).2 = new ++ log w /\
    Forall (dir_sync_of d) new /\
    (List.length new <= 3)%nat /\
    (Done (OpOpenDir d) ∈ new ->
     Done (OpCloseDir d) ∈ new \/ exists e, Failed (OpCloseDir d) e ∈ new).
Proof.
  unfold fsync_dir_best_effort.
  destruct (os_posix (plat w)) eqn:P; cbv beta iota delta [negb].
  2:{ split; [reflexivity |]. split; [reflexivity |]. split; [reflexivity |].
      exists []. split; [reflexivity |]. split; [constructor |]. split; [simpl; lia |].
      intros H. apply elem_of_nil in H. destruct H. }
  unfold try_pass, bind, try_finally, os_open_dir, os_fsync_dir, os_close_dir.
  destruct (syscall_neutral (OpOpenDir d) d w) as (w1 & [[-> L1] | (e1 & -> & L1)] & K1).
  2:{ simpl. split; [reflexivity |]. split; [discriminate |]. split; [exact K1 |].
      exists [Failed (OpOpenDir d) e1]. split; [exact L1 |].
      split; [repeat constructor |]. split; [simpl; lia |].
      intros H. apply list_elem_of_singleton in H. discriminate. }
  destruct (syscall_neutral (OpFsyncDir d) tt w1) as (w2 & [[-> L2] | (e2 & -> & L2)] & K2);
    destruct (syscall_neutral (OpCloseDir d) tt w2) as (w3 & [[-> L3] | (e3 & -> & L3)] & K3);
    simpl;
    (split; [reflexivity |]); (split; [discriminate |]);
    (split; [intros q; rewrite K3, K2; apply K1 |]);
    eexists [_; _; _];
    (split; [rewrite L3, L2, L1; reflexivity |]);
    (split; [repeat constructor |]); (split; [simpl; lia |]); intros _.
  - left. apply elem_of_cons. left. reflexivity.
  - right. exists e3. apply elem_of_cons. left. reflexivity.
  - left. apply elem_of_cons. left. reflexivity.
  - right. exists e3. apply elem_of_cons. left. reflexivity.
Qed.

(** The sync of the directory fails: nothing is raised. *)
Lemma fsync_dir_best_effort_never_raises_witness :
  (fsync_dir_best_effort tmp_dir (set_env [Quiet; Fail EIO] (ten_bytes_world []))).1 = Ok tt.
Proof.
  exact (proj1 (fsync_dir_best_effort_never_raises tmp_dir
                  (set_env [Quiet; Fail EIO] (ten_bytes_world [])))).
Defined.

(** X2. On every device and platform, [linux_drop_page_cache_best_effort]
    returns normally. Off POSIX, or where [os] has no [posix_fadvise], it
    does nothing at all. With a positive page size it attempts exactly one
    call: the hint on the file's descriptor, from offset 0, over the file
    size rounded up to a whole number of pages. No entry appears,
    disappears or changes kind. *)
Theorem linux_drop_page_cache_never_raises (f : file) (file_size : Z) (w : world) :
  (linux_drop_page_cache_best_effort f file_size w).1 = Ok tt /\
  (os_posix (plat w) = false \/ has_fadvise (plat w) = false ->
   linux_drop_page_cache_best_effort f file_size w = (Ok tt, w)) /\
  (os_posix (plat w) = true -> has_fadvise (plat w) = true -> 0 < page_size (plat w) ->
   exists n,
     n mod page_size (plat w) = 0 /\
     file_size <= n < file_size + page_size (plat w) /\
     (log (linux_drop_page_cache_best_effort f file_size w).2
        = Done (OpFadvise (f_path f) 0 n) :: log w \/
      exists e,
        log (linux_drop_page_cache_best_effort f file_size w).2
          = Failed (OpFadvise (f_path f) 0 n) e :: log w)) /\
  (forall q, kind_of (fs (linux_drop_page_cache_best_effort f file_size w).2 !! q)
             = kind_of (fs w !! q)).
Proof.
  unfold linux_drop_page_cache_best_effort, try_pass.
  destruct (os_posix (plat w)) eqn:P; cbv beta iota delta [negb].
  2:{ split; [reflexivity |]. split; [reflexivity |]. split; [discriminate | reflexivity]. }
  destruct (has_fadvise (plat w)) eqn:H; cbv beta iota delta [negb].
  2:{ split; [reflexivity |]. split; [reflexivity |]. split; [discriminate | reflexivity]. }
  destruct (Z.eqb_spec (page_size (plat w)) 0) as [Hz | Hnz].
  { split; [reflexivity |]. split; [intros [? | ?]; discriminate |].
    split; [intros _ _ Hpos; lia | reflexivity]. }
  cbv zeta. unfold posix_fadvise.
  set (page := page_size (plat w)) in *.
  set (n := (file_size + page - 1) / page * page).
  destruct (syscall_neutral (OpFadvise (f_path f) 0 n) tt w)
    as (w1 & [[-> L1] | (e1 & -> & L1)] & K1); simpl;
    (split; [reflexivity |]); (split; [intros [? | ?]; discriminate |]);
    (split; [| exact K1]); intros _ _ Hpos; exists n;
    (split; [subst n; apply Z.mod_mul; lia |]);
    (split; [subst n;
             pose proof (Z.mul_div_le (file_size + page - 1) page Hpos);
             pose proof (Z.mul_succ_div_gt (file_size + page - 1) page Hpos); lia |]).
  - left. exact L1.
  - right. exists e1. exact L1.
Qed.

(** A file of 10000 bytes and pages of 4096: the hint covers 12288 bytes,
    three pages. *)
Lemma linux_drop_page_cache_never_raises_witness :
  exists n,
    n mod 4096 = 0 /\ 10000 <= n < 10000 + 4096 /\
    (log (linux_drop_page_cache_best_effort secret_handle 10000 (ten_bytes_world [])).2
       = Done (OpFadvise tmp_secret 0 n) :: [] \/
     exists e,
       log (linux_drop_page_cache_best_effort secret_handle 10000 (ten_bytes_world [])).2
         = Failed (OpFadvise tmp_secret 0 n) e :: []).
Proof.
  destruct (linux_drop_page_cache_never_raises secret_handle 10000 (ten_bytes_world []))
    as (_ & _ & H & _).
  apply H; [reflexivity | reflexivity | simpl; lia].
Defined.

(* --------------------------------------------------------------------- *)
(** ** The names the renames use *)
(* --------------------------------------------------------------------- *)

Lemma draw_bytes_tape n :
  forall w data w',
    draw_bytes n w = (Ok data, w') -> tape w' = drop n (tape w).
Proof.
  induction n as [| n IH]; intros w data w' H.
  - simpl in H. unfold ret in H. injection H as _ <-. reflexivity.
  - cbn [draw_bytes] in H.
    split_bind H as z w1 Hd Hk; [| discriminate | discriminate].
    split_bind Hk as rest w2 Hr Hk2; [| discriminate | discriminate].
    unfold ret in Hk2. injection Hk2 as _ <-.
    rewrite (IH _ _ _ Hr). unfold draw in Hd.
    destruct (tape w) as [| z0 t] eqn:T.
    + injection Hd as _ <-. rewrite T. destruct n; reflexivity.
    + injection Hd as _ <-. reflexivity.
Qed.

Lemma hex_digits_of_byte (b : byte) :
  is_hex_digit (hex_digit (Byte.to_N b / 16)) = true /\
  is_hex_digit (hex_digit (Byte.to_N b mod 16)) = true.
Proof. destruct b; split; vm_compute; reflexivity. Qed.

Lemma hex_of_bytes_digits (l : bytes) :
  forallb is_hex_digit (list_ascii_of_string (hex_of_bytes l)) = true.
Proof.
  induction l as [| b l IH]; [reflexivity |].
  cbn [hex_of_bytes list_ascii_of_string forallb].
  destruct (hex_digits_of_byte b) as [-> ->]. exact IH.
Qed.

(** X3. [rand_name_hex(nbytes)] touches nothing but the entropy source.
    For [nbytes >= 0] it takes [nbytes] values from it and returns a
    string of [2 * nbytes] characters, each a lower-case hexadecimal digit
    - 32 of them for the 16 bytes the renames ask for, none a path
    separator. For a negative [nbytes] it raises [ValueError]. *)
Theorem rand_name_hex_shape (nbytes : Z) (w : world) :
  (nbytes < 0 -> rand_name_hex nbytes w = (Raise (ValueError NegativeCount), w)) /\
  (0 <= nbytes ->
   exists s w',
     rand_name_hex nbytes w = (Ok s, w') /\
     Z.of_nat (String.length s) = 2 * nbytes /\
     forallb is_hex_digit (list_ascii_of_string s) = true /\
     only_tape w w' /\
     tape w' = drop (Z.to_nat nbytes) (tape w)).
Proof.
  unfold rand_name_hex, token_hex. split.
  - intros Hn. rewrite (bind_raise _ _ _ _ _ (token_bytes_negative nbytes w Hn)).
    reflexivity.
  - intros Hn.
    destruct (token_bytes_total nbytes w Hn) as (data & w' & Hr & Hl & Ht).
    exists (hex_of_bytes data), w'. rewrite (bind_ok _ _ _ _ _ Hr).
    split; [reflexivity |]. split; [| split; [| split; [exact Ht |]]].
    + rewrite hex_of_bytes_length. unfold len in Hl. lia.
    + apply hex_of_bytes_digits.
    + unfold token_bytes in Hr. destruct (Z.ltb_spec nbytes 0); [lia |].
      apply (draw_bytes_tape _ _ _ _ Hr).
Qed.

(** The name of a rename: 32 characters. *)
Lemma rand_name_hex_shape_witness :
  exists s w',
    rand_name_hex 16 (ten_bytes_world forty_values) = (Ok s, w') /\
    Z.of_nat (String.length s) = 32.
Proof.
  destruct (proj2 (rand_name_hex_shape 16 (ten_bytes_world forty_values)))
    as (s & w' & Hr & Hl & _); [lia |].
  exists s, w'. split; [exact Hr | exact Hl].
Defined.

(* --------------------------------------------------------------------- *)
(** ** Masks *)
(* --------------------------------------------------------------------- *)

(** X5. A mask counts as filled exactly when it is the mask of ones of its
    length, [b"\x01" * len(mask)]; the mask a pass starts from,
    [b"\x00" * n], does not, as soon as the sample has a byte; the empty
    mask does. *)
Theorem all_filled_iff_ones (mask : bytearray) :
  (all_filled mask = true <-> mask = bytes_mul x01 (len mask)) /\
  (forall n, 0 < n -> all_filled (bytes_mul x00 n) = false) /\
  all_filled [] = true.
Proof.
  split; [| split; [| reflexivity]].
  - unfold bytes_mul, len. rewrite Nat2Z.id.
    induction mask as [| b m IH]; [split; reflexivity |].
    cbn [all_filled forallb List.length replicate]. split.
    + intros H. apply andb_true_iff in H as [Hb Hm].
      apply Byte.byte_dec_bl in Hb. subst b. f_equal. apply IH, Hm.
    + intros H. injection H as -> Hm. apply andb_true_iff. split; [reflexivity |].
      apply IH. exact Hm.
  - intros n Hn. unfold bytes_mul.
    destruct (Z.to_nat n) as [| k] eqn:E; [lia | reflexivity].
Qed.

(** A mask of three ones. *)
Lemma all_filled_iff_ones_witness : all_filled [x01; x01; x01] = true.
Proof.
  apply (proj2 (proj1 (all_filled_iff_ones [x01; x01; x01]))). reflexivity.
Defined.

(* --------------------------------------------------------------------- *)
(** ** Feeding the tracker the same chunk again *)
(* --------------------------------------------------------------------- *)

(** Two buffers the tracker could both have produced from the same buffer
    and chunk are equal. *)
Lemma captured_again s data start (e m e1 m1 e2 m2 : bytearray) :
  captured s data start e m e1 m1 ->
  captured s data start e1 m1 e2 m2 ->
  e2 = e1 /\ m2 = m1.
Proof.
  intros (_ & _ & _ & Hin1 & _) (Hl1 & Hl2 & _ & Hin2 & Hout2).
  split; apply list_eq; intros j.
  - destruct (decide (Z.max (offset s) start <= offset s + Z.of_nat j
                      < Z.min (offset s + length s) (start + len data))) as [Hj | Hj].
    + destruct (Hin1 j Hj) as (-> & _). destruct (Hin2 j Hj) as (-> & _). reflexivity.
    + apply (Hout2 j Hj).
  - destruct (decide (Z.max (offset s) start <= offset s + Z.of_nat j
                      < Z.min (offset s + length s) (start + len data))) as [Hj | Hj].
    + destruct (Hin1 j Hj) as (_ & _ & ->). destruct (Hin2 j Hj) as (_ & _ & ->).
      reflexivity.
    + apply (Hout2 j Hj).
Qed.

(** X4. The tracker is idempotent: on buffers of the samples' lengths,
    feeding it a chunk it has already been fed, at the same offset, returns
    the very buffers it was given. *)
Theorem capture_is_idempotent
    (samples : list Sample) (expected filled : list bytearray)
    (chunk_data : bytes) (chunk_start : Z) (expected1 filled1 : list bytearray) :
  Forall2 (fun s e => len e = length s) samples expected ->
  Forall2 (fun s m => len m = length s) samples filled ->
  capture_expected_from_chunk samples expected filled chunk_data chunk_start
    = Ok (expected1, filled1) ->
  capture_expected_from_chunk samples expected1 filled1 chunk_data chunk_start
    = Ok (expected1, filled1).
Proof.
  intros Hexp Hfil Hrun.
  pose proof (Forall2_length _ _ _ Hexp) as Hn1.
  pose proof (Forall2_length _ _ _ Hfil) as Hn2.
  destruct (capture_loop_spec chunk_data chunk_start samples 0 expected filled)
    as (ex1 & fi1 & Hrun1 & Hl1 & Hl2 & _ & Hin1).
  { intros k s Hk. simpl.
    destruct (Forall2_lookup_l _ _ _ _ _ Hexp Hk) as (e & He & Hle).
    destruct (Forall2_lookup_l _ _ _ _ _ Hfil Hk) as (m & Hm & Hlm).
    exists e, m. auto. }
  unfold capture_expected_from_chunk in Hrun. rewrite Hrun1 in Hrun.
  injection Hrun as -> ->.
  assert (Hfirst : forall (k : nat) s,
             samples !! k = Some s ->
             exists e m e1 m1,
               expected !! k = Some e /\ filled !! k = Some m /\
               expected1 !! k = Some e1 /\ filled1 !! k = Some m1 /\
               captured s chunk_data chunk_start e m e1 m1).
  { intros k s Hk.
    destruct (Forall2_lookup_l _ _ _ _ _ Hexp Hk) as (e & He & _).
    destruct (Forall2_lookup_l _ _ _ _ _ Hfil Hk) as (m & Hm & _).
    destruct (Hin1 k s e m Hk He Hm) as (e1 & m1 & He1 & Hm1 & Hcap).
    exists e, m, e1, m1. auto. }
  destruct (capture_loop_spec chunk_data chunk_start samples 0 expected1 filled1)
    as (ex2 & fi2 & Hrun2 & Hl3 & Hl4 & _ & Hin2).
  { intros k s Hk. simpl.
    destruct (Hfirst k s Hk) as (e & m & e1 & m1 & He & Hm & He1 & Hm1 & Hcap).
    destruct (Forall2_lookup_l _ _ _ _ _ Hexp Hk) as (e' & He' & Hle).
    destruct (Forall2_lookup_l _ _ _ _ _ Hfil Hk) as (m' & Hm' & Hlm).
    assert (e' = e) by congruence. assert (m' = m) by congruence. subst e' m'.
    destruct Hcap as (H1 & H2 & _).
    exists e1, m1. split; [exact He1 |]. split; [exact Hm1 |]. lia. }
  unfold capture_expected_from_chunk. rewrite Hrun2.
  assert (ex2 = expected1 /\ fi2 = filled1) as [-> ->]; [| reflexivity].
  split; apply list_eq; intros k.
  - destruct (samples !! k) as [s |] eqn:Hk.
    + destruct (Hfirst k s Hk) as (e & m & e1 & m1 & He & Hm & He1 & Hm1 & Hcap).
      destruct (Hin2 k s e1 m1 Hk He1 Hm1) as (e2 & m2 & He2 & _ & Hcap2).
      simpl in He2. rewrite He2, He1.
      destruct (captured_again _ _ _ _ _ _ _ _ _ Hcap Hcap2) as [-> _]. reflexivity.
    + apply lookup_ge_None in Hk.
      rewrite (proj2 (lookup_ge_None ex2 k)) by lia.
      rewrite (proj2 (lookup_ge_None expected1 k)) by lia. reflexivity.
  - destruct (samples !! k) as [s |] eqn:Hk.
    + destruct (Hfirst k s Hk) as (e & m & e1 & m1 & He & Hm & He1 & Hm1 & Hcap).
      destruct (Hin2 k s e1 m1 Hk He1 Hm1) as (e2 & m2 & _ & Hm2 & Hcap2).
      simpl in Hm2. rewrite Hm2, Hm1.
      destruct (captured_again _ _ _ _ _ _ _ _ _ Hcap Hcap2) as [_ ->]. reflexivity.
    + apply lookup_ge_None in Hk.
      rewrite (proj2 (lookup_ge_None fi2 k)) by lia.
      rewrite (proj2 (lookup_ge_None filled1 k)) by lia. reflexivity.
Qed.

(** The chunk of 4 bytes at offset 4, fed twice to a sample of 6 bytes at
    offset 2. *)
Lemma capture_is_idempotent_witness :
  capture_expected_from_chunk [mkSample 2 6]
    [[x00; x00; xa1; xa2; xa3; xa4]] [[x00; x00; x01; x01; x01; x01]]
    [xa1; xa2; xa3; xa4] 4
  = Ok ([[x00; x00; xa1; xa2; xa3; xa4]], [[x00; x00; x01; x01; x01; x01]]).
Proof.
  apply (capture_is_idempotent [mkSample 2 6] [replicate 6 x00] [replicate 6 x00]
           [xa1; xa2; xa3; xa4] 4).
  - repeat constructor.
  - repeat constructor.
  - vm_compute. reflexivity.
Defined.

(* --------------------------------------------------------------------- *)
(** ** The prompt and the pass bounds *)
(* --------------------------------------------------------------------- *)






Lemma build_pass_count_invalid lo hi r w :
  lo < 1 \/ hi < lo ->
  build_pass_count lo hi r w = (Raise (ValueError InvalidPassBounds), w).
Proof.
  intros H. unfold build_pass_count.
  destruct ((lo <? 1) || (hi <? lo)) eqn:G; [reflexivity |].
  apply orb_false_iff in G as [G1 G2]. apply Z.ltb_ge in G1, G2. lia.
Qed.

(** X8. A regular file, [force] set, and pass bounds that are not valid:
    [wipe_file] raises [ValueError("Invalid pass bounds")] before it has
    issued a system call, drawn entropy or printed a line - the world is
    the one it found. [main] reports the target and returns exit code 1. *)
Theorem wipe_file_invalid_bounds
    (fuel : nat) (p : Path) (o : options) (w : world) (c : bytes) :
  fs w !! p = Some (File c) ->
  force o = true ->
  min_passes o < 1 \/ max_passes o < min_passes o ->
  wipe_file fuel p o w = (Raise (ValueError InvalidPassBounds), w) /\
  (forall a, options_of_args a = o ->
     main fuel [p] a w
       = (Ok 1, add_log (Print (MsgFailedOn p (ValueError InvalidPassBounds))) w)).
Proof.
  intros Hf Hforce Hbad.
  assert (Hrun : wipe_file fuel p o w = (Raise (ValueError InvalidPassBounds), w)).
  { rewrite (wipe_file_regular _ _ _ _ _ Hf). unfold wipe_checked, confirm.
    rewrite Hforce, bind_ret. cbv beta iota delta [negb].
    apply bind_raise. apply build_pass_count_invalid. exact Hbad. }
  split; [exact Hrun |].
  intros a <-. unfold main. rewrite (main_loop_failed_target _ _ _ _ _ _ _ _ Hrun).
  reflexivity.
Qed.

(** At least five passes and at most two. *)
Lemma wipe_file_invalid_bounds_witness :
  wipe_file 10 tmp_secret inverted_options (ten_bytes_world forty_values)
    = (Raise (ValueError InvalidPassBounds), ten_bytes_world forty_values).
Proof.
  apply (wipe_file_invalid_bounds 10 tmp_secret inverted_options
           (ten_bytes_world forty_values) (replicate 10 x41)).
  - reflexivity.
  - reflexivity.
  - right. simpl. lia.
Defined.

(* --------------------------------------------------------------------- *)
(** ** The exit code of [main] *)
(* --------------------------------------------------------------------- *)

(** The loop over the targets never raises, and what it returns is the
    exit code it started from or 1. *)
Lemma main_loop_code fuel a targets :
  forall code w,
    match (main_loop fuel targets a code w).1 with
    | Ok c => c = code \/ c = 1
    | Raise _ => False
    | OutOfFuel => True
    end.
Proof.
  induction targets as [| t rest IH]; intros code w; cbn [main_loop].
  - left. reflexivity.
  - unfold bind at 1, try_except.
    destruct (bind (wipe_file fuel t (options_of_args a)) (fun _ => ret code) w)
      as [[c | e |] w1] eqn:E.
    + assert (c = code) as ->.
      { unfold bind in E. destruct (wipe_file fuel t (options_of_args a) w) as [[[] | |] ?];
          try discriminate. unfold ret in E. injection E as <- _. reflexivity. }
      apply IH.
    + change (bind (print (MsgFailedOn t e)) (fun _ => ret 1) w1)
        with (Ok 1, add_log (Print (MsgFailedOn t e)) w1).
      cbv beta iota.
      specialize (IH 1 (add_log (Print (MsgFailedOn t e)) w1)).
      destruct (main_loop fuel rest a 1 _).1; auto. destruct IH; auto.
    + exact I.
Qed.

(** X13. [main], from the list of targets on, never raises: every
    exception of a wipe is caught. What it returns is 0 or 1. Once a
    target has failed the exit code stays 1, whatever happens to the
    targets that remain; and when no target is left the exit code is the
    one reached. *)
Theorem main_never_raises (fuel : nat) (targets : list Path) (a : args) (w : world) :
  (forall e, (main fuel targets a w).1 <> Raise e) /\
  (forall code, (main fuel targets a w).1 = Ok code -> code = 0 \/ code = 1) /\
  (forall code w0, (main_loop fuel targets a 1 w0).1 = Ok code -> code = 1) /\
  (forall code w0, main_loop fuel [] a code w0 = (Ok code, w0)).
Proof.
  split; [| split; [| split]].
  - intros e He. unfold main in He.
    pose proof (main_loop_code fuel a targets 0 w) as H. rewrite He in H. exact H.
  - intros code Hc. unfold main in Hc.
    pose proof (main_loop_code fuel a targets 0 w) as H. rewrite Hc in H. exact H.
  - intros code w0 Hc.
    pose proof (main_loop_code fuel a targets 1 w0) as H. rewrite Hc in H. tauto.
  - reflexivity.
Qed.

(** A target that does not exist: reported, exit code 1. *)
Lemma main_never_raises_witness :
  (main 1 [tmp_gone] small_args (ten_bytes_world [])).1 = Ok 1 /\ (1 = 0 \/ 1 = 1).
Proof.
  assert (E : (main 1 [tmp_gone] small_args (ten_bytes_world [])).1 = Ok 1)
    by (vm_compute; reflexivity).
  split; [exact E |].
  exact (proj1 (proj2 (main_never_raises 1 [tmp_gone] small_args (ten_bytes_world []))) 1 E).
Defined.

(* --------------------------------------------------------------------- *)
(** ** A pass on a calm device *)
(* --------------------------------------------------------------------- *)





















(* --------------------------------------------------------------------- *)
(** ** The whole wipe on a calm device *)
(* --------------------------------------------------------------------- *)




(* --------------------------------------------------------------------- *)
(** ** A chunk size that is not positive *)
(* --------------------------------------------------------------------- *)

(** One call of the tracker keeps the buffers at the samples' lengths. *)
Lemma capture_keeps_lengths (samples : list Sample) (expected filled : list bytearray)
    (data : bytes) start :
  Forall2 (fun s e => len e = length s) samples expected ->
  Forall2 (fun s m => len m = length s) samples filled ->
  exists ex fi,
    capture_expected_from_chunk samples expected filled data start = Ok (ex, fi) /\
    Forall2 (fun s e => len e = length s) samples ex /\
    Forall2 (fun s m => len m = length s) samples fi.
Proof.
  intros Hexp Hfil.
  destruct (capture_loop_spec data start samples 0 expected filled)
    as (ex & fi & Hrun & Hl1 & Hl2 & _ & Hin).
  { intros k s Hk. simpl.
    destruct (Forall2_lookup_l _ _ _ _ _ Hexp Hk) as (e & He & Hle).
    destruct (Forall2_lookup_l _ _ _ _ _ Hfil Hk) as (m & Hm & Hlm).
    exists e, m. auto. }
  exists ex, fi. split; [exact Hrun |].
  pose proof (Forall2_length _ _ _ Hexp) as Hn1.
  pose proof (Forall2_length _ _ _ Hfil) as Hn2.
  split; (apply Forall2_same_length_lookup_2; [congruence |]).
  - intros i s e' Hs He'.
    destruct (Forall2_lookup_l _ _ _ _ _ Hexp Hs) as (e & He & Hle).
    destruct (Forall2_lookup_l _ _ _ _ _ Hfil Hs) as (m & Hm & Hlm).
    destruct (Hin i s e m Hs He Hm) as (e'' & m'' & He'' & _ & Hcap).
    simpl in He''. assert (e'' = e') by congruence. subst e''.
    destruct Hcap as (Hlen & _). lia.
  - intros i s m' Hs Hm'.
    destruct (Forall2_lookup_l _ _ _ _ _ Hexp Hs) as (e & He & Hle).
    destruct (Forall2_lookup_l _ _ _ _ _ Hfil Hs) as (m & Hm & Hlm).
    destruct (Hin i s e m Hs He Hm) as (e'' & m'' & _ & Hm'' & Hcap).
    simpl in Hm''. assert (m'' = m') by congruence. subst m''.
    destruct Hcap as (_ & Hlen & _). lia.
Qed.

(** With a chunk size of 0 every turn of the loop writes nothing and
    [written] stays where it is: no number of turns is enough. *)
Lemma stream_loop_stalls fuel :
  forall f size verify (samples : list Sample) (expected filled : list bytearray)
         written w c,
    written < size -> calm w -> fs w !! f_path f = Some (File c) ->
    Forall2 (fun s e => len e = length s) samples expected ->
    Forall2 (fun s m => len m = length s) samples filled ->
    (stream_loop fuel f size 0 verify samples expected filled written w).1 = OutOfFuel.
Proof.
  induction fuel as [| fuel IH];
    intros f size verify samples expected filled written w c Hlt Hc Hf Hexp Hfil;
    cbn [stream_loop]; destruct (Z.ltb_spec written size) as [_ | Hge]; try lia.
  - reflexivity.
  - replace (Z.min 0 (size - written)) with 0 by lia.
    rewrite (bind_ok (token_bytes 0) _ w [] w eq_refl).
    assert (exists ex1 fi1,
              (if verify && nonempty samples
               then lift (capture_expected_from_chunk samples expected filled [] written)
               else ret (expected, filled)) w = (Ok (ex1, fi1), w) /\
              Forall2 (fun s e => len e = length s) samples ex1 /\
              Forall2 (fun s m => len m = length s) samples fi1)
      as (ex1 & fi1 & Hcap & He1 & Hf1).
    { destruct (verify && nonempty samples).
      - destruct (capture_keeps_lengths samples expected filled [] written Hexp Hfil)
          as (ex & fi & Hrun & H1 & H2).
        exists ex, fi. unfold lift. rewrite Hrun. auto.
      - exists expected, filled. auto. }
    rewrite (bind_ok _ _ _ _ _ Hcap). cbn [fst snd].
    rewrite (bind_ok _ _ _ _ _ (write_calm f [] w c Hc Hf)).
    apply (IH _ _ _ _ _ _ _ _ (write_at c (f_pos f) [])); try assumption.
    + lia.
    + apply calm_after_call. exact Hc.
    + simpl. apply lookup_insert_eq.
Qed.

(** X11. The streaming loop needs a positive chunk size. While bytes are
    left to write: with a negative [chunk_size] the first turn of the loop
    raises [ValueError] - the request for a negative number of random
    bytes - before anything is written; with [chunk_size = 0], on a calm
    device, each turn writes no byte and [written] never moves, so the
    loop does not end, whatever the number of turns allowed. ([main]
    never passes a chunk size below 4096.) *)
Theorem stream_loop_needs_positive_chunk
    (fuel : nat) (f : file) (size : Z) (verify : bool) (samples : list Sample)
    (expected filled : list bytearray) (written : Z) (w : world) (c : bytes) :
  written < size ->
  calm w ->
  fs w !! f_path f = Some (File c) ->
  Forall2 (fun s e => len e = length s) samples expected ->
  Forall2 (fun s m => len m = length s) samples filled ->
  (forall chunk_size, chunk_size < 0 ->
     stream_loop (S fuel) f size chunk_size verify samples expected filled written w
       = (Raise (ValueError NegativeCount), w)) /\
  (stream_loop fuel f size 0 verify samples expected filled written w).1 = OutOfFuel.
Proof.
  intros Hlt Hc Hf Hexp Hfil. split.
  - intros chunk Hneg. cbn [stream_loop].
    destruct (Z.ltb_spec written size) as [_ | Hge]; [| lia].
    apply bind_raise. apply token_bytes_negative. lia.
  - eapply stream_loop_stalls; eassumption.
Qed.

(** The ten-byte file, a hundred turns allowed. *)
Lemma stream_loop_needs_positive_chunk_witness :
  stream_loop 1 secret_handle 10 (-1) false [] [] [] 0 (ten_bytes_world [])
    = (Raise (ValueError NegativeCount), ten_bytes_world []) /\
  (stream_loop 100 secret_handle 10 0 false [] [] [] 0 (ten_bytes_world [])).1 = OutOfFuel.
Proof.
  split.
  - apply (stream_loop_needs_positive_chunk 0 secret_handle 10 false [] [] [] 0
             (ten_bytes_world []) (replicate 10 x41)); try constructor; try reflexivity.
  - apply (stream_loop_needs_positive_chunk 100 secret_handle 10 false [] [] [] 0
             (ten_bytes_world []) (replicate 10 x41)); try constructor; try reflexivity.
Defined.

(** X15. With [passes <= 0] the loop over the passes has nothing to run:
    on a calm device, for a regular file that is not empty,
    [overwrite_random_streaming] asks for the size, opens the file, closes
    it and returns normally. Nothing is written, no entropy is drawn and
    no entry changes. *)
Theorem overwrite_without_passes
    (fuel : nat) (path : Path) (passes chunk_size : Z) (verify : bool)
    (verify_samples verify_len : Z) (drop_cache_linux : bool) (w : world) (c : bytes) :
  passes <= 0 ->
  calm w ->
  fs w !! path = Some (File c) ->
  c <> [] ->
  overwrite_random_streaming fuel path passes chunk_size verify
    verify_samples verify_len drop_cache_linux w
  = (Ok tt,
     after_call (OpClose path) (fs w)
       (after_call (OpOpen path) (fs w) (after_call (OpStat path) (fs w) w))).
Proof.
  intros Hp Hc Hf Hne. unfold overwrite_random_streaming.
  rewrite (bind_ok _ _ _ _ _ (stat_size_calm path w c Hc Hf)).
  set (w1 := after_call (OpStat path) (fs w) w).
  assert (Hc1 : calm w1) by (apply calm_after_call; exact Hc).
  destruct (Z.eqb_spec (len c) 0) as [H0 | _].
  { destruct c; [contradiction |]. unfold len in H0. simpl in H0. lia. }
  unfold with_open.
  rewrite (bind_ok _ _ _ _ _ (open_rw_calm path w1 c Hc1 Hf)).
  set (w2 := after_call (OpOpen path) (fs w1) w1).
  assert (Hc2 : calm w2) by (apply calm_after_call; exact Hc1).
  unfold py_range. replace (Z.to_nat (passes + 1 - 1)) with 0%nat by lia.
  cbn [seq map pass_loop]. unfold try_finally, ret, close. cbn [f_path].
  rewrite (syscall_calm_ok _ _ w2 tt (fs w2) Hc2 eq_refl). reflexivity.
Qed.

(** No pass over the ten-byte file. *)
Lemma overwrite_without_passes_witness :
  overwrite_random_streaming 0 tmp_secret 0 4 true 2 3 false (ten_bytes_world [])
  = (Ok tt,
     after_call (OpClose tmp_secret) (fs (ten_bytes_world []))
       (after_call (OpOpen tmp_secret) (fs (ten_bytes_world []))
          (after_call (OpStat tmp_secret) (fs (ten_bytes_world [])) (ten_bytes_world [])))).
Proof.
  apply (overwrite_without_passes 0 tmp_secret 0 4 true 2 3 false (ten_bytes_world [])
           (replicate 10 x41)).
  - lia.
  - constructor.
  - reflexivity.
  - discriminate.
Defined.

(* --------------------------------------------------------------------- *)
(** ** The wipe stays in the directory of its target *)
(* --------------------------------------------------------------------- *)

#[global] Instance kinds_outside_sequential d : Sequential (kinds_outside d).
Proof.
  split.
  - intros w t q _. reflexivity.
  - intros w w1 w' t H1 H2 q Hq. rewrite (H2 q Hq). apply H1, Hq.
Qed.

#[global] Instance kinds_outside_insensitive d : Insensitive (kinds_outside d).
Proof. intros w t t' w' H. exact H. Qed.

#[global] Instance confined_sequential d : Sequential (confined d).
Proof. unfold confined. exact _. Qed.

#[global] Instance confined_insensitive d : Insensitive (confined d).
Proof. unfold confined. exact _. Qed.

(** The value a computation returns satisfies [P], and what follows is
    proved for such values only. *)
Lemma sat_bind_post {A B : Type} Q `{!Sequential Q} (P : A -> Prop)
    (m : M A) (k : A -> M B) :
  (forall w a w1, m w = (Ok a, w1) -> P a) ->
  sat Q m -> (forall a, P a -> sat Q (k a)) -> sat Q (bind m k).
Proof.
  intros HP Hm Hk w. specialize (Hm w). unfold bind.
  destruct (m w) as [[a | e |] w1] eqn:E; simpl in *; try exact Hm.
  eapply seq_then; [exact Hm | apply Hk, (HP w a w1 E)].
Qed.

Lemma confined_of_kept {A : Type} d (m : M A) :
  sat (log_grows (calls_in (rename_inside d))) m -> sat kinds_kept m ->
  sat (confined d) m.
Proof.
  intros H1 H2. apply sat_both; [exact H1 |]. intros w q _. apply H2.
Qed.

Lemma confined_reader {A : Type} d o
    (sem : gmap Path node -> errno + (A * gmap Path node)) :
  rename_inside d o -> (forall m x m', sem m = inr (x, m') -> m' = m) ->
  sat (confined d) (syscall o sem).
Proof.
  intros Ho Hs. apply confined_of_kept;
    [apply log_grows_syscall, Ho | apply kinds_kept_reader, Hs].
Qed.

Lemma kinds_outside_syscall {A : Type} d o
    (sem : gmap Path node -> errno + (A * gmap Path node)) :
  (forall m x m', sem m = inr (x, m') ->
     forall q, parent q <> d -> kind_of (m' !! q) = kind_of (m !! q)) ->
  sat (kinds_outside d) (syscall o sem).
Proof.
  intros Hsem w q Hq. unfold syscall.
  destruct (hd Quiet (env w)) as [| e | p i b] eqn:E; simpl.
  - destruct (sem (fs w)) as [e | [x m']] eqn:S; simpl; [reflexivity |].
    apply (Hsem _ _ _ S q Hq).
  - reflexivity.
  - destruct (sem _) as [e | [x m']] eqn:S; simpl.
    + apply (disturb_kind (Corrupt p i b)).
    + rewrite (Hsem _ _ _ S q Hq). apply (disturb_kind (Corrupt p i b)).
Qed.

Lemma confined_draw d : sat (confined d) draw.
Proof. apply confined_of_kept; [apply log_grows_draw | apply kinds_kept_draw]. Qed.

Lemma confined_print d msg : sat (confined d) (print msg).
Proof. apply confined_of_kept; [apply log_grows_print | apply kinds_kept_print]. Qed.

Lemma confined_input d : sat (confined d) input.
Proof. apply confined_of_kept; [apply log_grows_input | apply kinds_kept_input]. Qed.

(** A rename inside [d] touches the entries of [d] only. *)
Lemma confined_rename d src dst :
  parent src = d -> parent dst = d -> sat (confined d) (rename src dst).
Proof.
  intros Hs Hd. unfold rename. apply sat_both.
  - apply log_grows_syscall. split; assumption.
  - apply kinds_outside_syscall. intros m x m' S q Hq.
    destruct (m !! src) as [n |]; [| discriminate].
    destruct (decide (src = dst)); [injection S as _ <-; reflexivity |].
    assert (Hm' : m' = <[dst := n]> (delete src m)).
    { destruct n, (m !! dst) as [[] |]; try discriminate; injection S as _ <-; reflexivity. }
    subst m'. rewrite lookup_insert_ne, lookup_delete_ne by congruence. reflexivity.
Qed.

Lemma confined_unlink d p : parent p = d -> sat (confined d) (unlink p).
Proof.
  intros Hp. unfold unlink. apply sat_both.
  - apply log_grows_syscall. exact I.
  - apply kinds_outside_syscall. intros m x m' S q Hq.
    destruct (m !! p) as [[c | | t] |]; try discriminate; injection S as _ <-;
      rewrite lookup_delete_ne by congruence; reflexivity.
Qed.

Lemma kinds_kept_truncate f n : sat kinds_kept (truncate f n).
Proof.
  unfold truncate. apply kinds_kept_syscall. intros m x m' S q.
  destruct (n <? 0); [discriminate |].
  destruct (m !! f_path f) as [[c | | t] |] eqn:E; try discriminate.
  injection S as _ <-.
  destruct (decide (f_path f = q)) as [<- | Hne].
  - rewrite lookup_insert_eq, E. reflexivity.
  - rewrite lookup_insert_ne by exact Hne. reflexivity.
Qed.

Lemma confined_fsync_dir d q : sat (confined d) (fsync_dir_best_effort q).
Proof.
  apply sat_fsync_dir; try exact _; intros r; apply confined_reader;
    first [exact I | congruence].
Qed.

Lemma confined_truncate_stage d current : sat (confined d) (truncate_stage current).
Proof.
  apply sat_truncate_stage; try exact _.
  - intros q. apply confined_reader; [exact I |]. intros m x m' S.
    destruct (resolve max_hops m q) as [[r [c | | t]] |]; congruence.
  - intros f. apply confined_reader; [exact I | congruence].
  - intros f n. apply confined_of_kept;
      [apply log_grows_syscall; exact I | apply kinds_kept_truncate].
  - intros f. apply confined_reader; [exact I | congruence].
  - intros f. apply confined_reader; [exact I | congruence].
Qed.

Lemma confined_overwrite d fuel p passes chunk verify vs vl drop :
  sat (confined d) (overwrite_random_streaming fuel p passes chunk verify vs vl drop).
Proof.
  apply confined_of_kept; [| apply kinds_kept_overwrite].
  apply log_grows_overwrite. intros c Hc. destruct c; simpl in *; tauto.
Qed.

(** Every candidate is a sibling of the current path. *)
Lemma with_name_parent current n cand :
  with_name current n = Ok cand -> parent cand = parent current.
Proof.
  unfold with_name. destruct (decide (name current = EmptyString)); [discriminate |].
  intros H. injection H as <-. apply parent_with_name.
Qed.

Lemma collision_loop_parent fuel :
  forall current candidate tries w cand t w1,
    parent candidate = parent current ->
    collision_loop fuel current candidate tries w = (Ok (cand, t), w1) ->
    parent cand = parent current.
Proof.
  induction fuel as [| fuel IH]; intros current candidate tries w cand t w1 Hp H;
    cbn [collision_loop] in H;
    rewrite (bind_ok _ _ w _ w (eq_refl : path_exists candidate w = _)) in H;
    destruct (bool_decide (is_Some (resolve max_hops (fs w) candidate)) && (tries <? 10)).
  - discriminate.
  - unfold ret in H. injection H as <- _ _. exact Hp.
  - split_bind H as new_name w2 Hn Hk; [| discriminate | discriminate].
    split_bind Hk as c2 w3 Hw Hk2; [| discriminate | discriminate].
    unfold lift in Hw. injection Hw as Hw _.
    eapply IH; [| exact Hk2]. eapply with_name_parent. exact Hw.
  - unfold ret in H. injection H as <- _ _. exact Hp.
Qed.

Lemma pick_candidate_parent current w cand t w1 :
  pick_candidate current w = (Ok (cand, t), w1) -> parent cand = parent current.
Proof.
  intros H. unfold pick_candidate in H.
  split_bind H as new_name w2 Hn Hk; [| discriminate | discriminate].
  split_bind Hk as c2 w3 Hw Hk2; [| discriminate | discriminate].
  unfold lift in Hw. injection Hw as Hw _.
  eapply collision_loop_parent; [| exact Hk2]. eapply with_name_parent. exact Hw.
Qed.

Lemma rename_once_parent current w next w1 :
  rename_once current w = (Ok next, w1) -> parent next = parent current.
Proof.
  intros H. unfold rename_once in H.
  split_bind H as picked w2 Hp Hk; [| discriminate | discriminate].
  split_bind Hk as u w3 Hr Hk2; [| discriminate | discriminate].
  split_bind Hk2 as u2 w4 Hs Hk3; [| discriminate | discriminate].
  unfold ret in Hk3. injection Hk3 as <- _.
  destruct picked as [cand t]. eapply pick_candidate_parent. exact Hp.
Qed.

Lemma rename_loop_parent n :
  forall current w final w1,
    rename_loop n current w = (Ok final, w1) -> parent final = parent current.
Proof.
  induction n as [| n IH]; intros current w final w1 H; cbn [rename_loop] in H.
  - unfold ret in H. injection H as <- _. reflexivity.
  - split_bind H as next w2 Ho Hk; [| discriminate | discriminate].
    rewrite (IH _ _ _ _ Hk). eapply rename_once_parent. exact Ho.
Qed.

Lemma confined_rename_once d current :
  parent current = d -> sat (confined d) (rename_once current).
Proof.
  intros Hd. unfold rename_once.
  apply (sat_bind_post (confined d) (fun picked => parent picked.1 = d)).
  - intros w [cand t] w1 H. simpl. rewrite <- Hd. eapply pick_candidate_parent. exact H.
  - apply sat_pick_candidate; try exact _. apply confined_draw.
  - intros picked HP.
    sat_step; [apply confined_rename; assumption |].
    sat_step; [apply confined_fsync_dir |]. sat_step; exact _.
Qed.

Lemma confined_rename_loop d n :
  forall current, parent current = d -> sat (confined d) (rename_loop n current).
Proof.
  induction n as [| n IH]; intros current Hd; cbn [rename_loop];
    [sat_step; exact _ |].
  apply (sat_bind_post (confined d) (fun next => parent next = d)).
  - intros w next w1 H. rewrite <- Hd. eapply rename_once_parent. exact H.
  - apply confined_rename_once. exact Hd.
  - intros next Hn. apply IH. exact Hn.
Qed.

(** The deletion sequence stays in the directory of its path. *)
Lemma confined_delete path R keep :
  sat (confined (parent path)) (rename_truncate_unlink path R keep).
Proof.
  unfold rename_truncate_unlink.
  apply (sat_bind_post (confined (parent path)) (fun current => parent current = parent path)).
  - intros w current w1 H. eapply rename_loop_parent. exact H.
  - apply confined_rename_loop. reflexivity.
  - intros current Hcur.
    sat_step; [apply confined_truncate_stage |]. sat_step.
    + sat_step; [apply confined_fsync_dir |]. sat_step; exact _.
    + sat_step; [apply confined_unlink; exact Hcur |].
      sat_step; [apply confined_fsync_dir |]. sat_step; exact _.
Qed.

Lemma confined_wipe_checked fuel target o :
  sat (confined (parent target)) (wipe_checked fuel target o).
Proof.
  unfold wipe_checked.
  sat_step; [apply sat_confirm; try exact _; [apply confined_print | apply confined_input] |].
  sat_step; [sat_step; exact _ |].
  sat_step; [apply sat_build_pass_count; try exact _; apply confined_draw |].
  sat_step.
  { unfold stat_size. apply confined_reader; [exact I |]. intros m x m' S.
    destruct (resolve max_hops m target) as [[r [c | | t]] |]; congruence. }
  sat_step; [apply confined_print |].
  sat_step.
  { sat_step; [apply confined_overwrite | apply confined_print]. }
  sat_step; [apply confined_delete |].
  sat_step; apply confined_print.
Qed.

Lemma confined_wipe_file fuel target o :
  sat (confined (parent target)) (wipe_file fuel target o).
Proof.
  unfold wipe_file.
  sat_step; [sat_step; exact _ |]. sat_step; [sat_step; exact _ |].
  sat_step; [sat_step; exact _ |]. sat_step; [sat_step; exact _ |].
  sat_step; [sat_step; exact _ |]. sat_step; [sat_step; exact _ |].
  apply confined_wipe_checked.
Qed.

(** X14. On every device, whatever fails and whatever the options, the
    wipe of a target stays in the directory of the target: every rename
    it attempts, done or failed, has its source and its destination in
    that directory; the path the deletion sequence returns is in that
    directory; and no entry of any other directory appears, disappears or
    changes kind. *)
Theorem wipe_stays_in_directory (fuel : nat) (target : Path) (o : options) (w : world) :
  (forall R keep w0 final w1,
      rename_truncate_unlink target R keep w0 = (Ok final, w1) ->
      parent final = parent target) /\
  (exists new,
      log (wipe_file fuel target o w).2 = new ++ log w /\
      Forall (fun ev => forall src dst,
                op_of ev = Some (OpRename src dst) ->
                parent src = parent target /\ parent dst = parent target) new) /\
  (forall q, parent q <> parent target ->
     kind_of (fs (wipe_file fuel target o w).2 !! q) = kind_of (fs w !! q)).
Proof.
  split; [| split].
  - intros R keep w0 final w1 H. unfold rename_truncate_unlink in H.
    split_bind H as current w2 Hloop Hk; [| discriminate | discriminate].
    assert (final = current) as ->.
    { split_bind Hk as u w3 Ht Hk2; [| discriminate | discriminate].
      destruct keep.
      - split_bind Hk2 as u2 w4 Hs Hk3; [| discriminate | discriminate].
        unfold ret in Hk3. injection Hk3 as <- _. reflexivity.
      - split_bind Hk2 as u2 w4 Hu Hk3; [| discriminate | discriminate].
        split_bind Hk3 as u3 w5 Hs Hk4; [| discriminate | discriminate].
        unfold ret in Hk4. injection Hk4 as <- _. reflexivity. }
    eapply rename_loop_parent. exact Hloop.
  - destruct (confined_wipe_file fuel target o w) as [(new & Hlog & Hnew) _].
    exists new. split; [exact Hlog |].
    eapply Forall_impl; [exact Hnew |].
    intros [c | c e | msg | s] Hev src dst Hop; simpl in *; try discriminate;
      injection Hop as ->; exact Hev.
  - destruct (confined_wipe_file fuel target o w) as [_ Hkinds]. exact Hkinds.
Qed.

(** Two renames of the ten-byte file: the path returned is a sibling. *)
Lemma wipe_stays_in_directory_witness :
  (rename_truncate_unlink tmp_secret 2 false (ten_bytes_world forty_values)).1
    = Ok tmp_second /\
  parent tmp_second = parent tmp_secret.
Proof.
  assert (E : (rename_truncate_unlink tmp_secret 2 false
                 (ten_bytes_world forty_values)).1 = Ok tmp_second)
    by (vm_compute; reflexivity).
  split; [exact E |].
  pose proof (run_with_result _ _ E) as R.
  exact (proj1 (wipe_stays_in_directory 0 tmp_secret small_options
                  (ten_bytes_world forty_values)) _ _ _ _ _ R).
Defined.

(* --------------------------------------------------------------------- *)
(** ** No deletion before the last pass is complete *)
(* --------------------------------------------------------------------- *)

Lemma sat_both_l {A : Type} Q1 Q2 (m : M A) : sat (both Q1 Q2) m -> sat Q1 m.
Proof. intros H w. apply (H w). Qed.

(** The environment changes bytes, never the length of a file nor the
    kind or the target of an entry. *)
Lemma disturb_lookup a m p :
  match m !! p with
  | Some (File c) => exists c', disturb a m !! p = Some (File c') /\ len c' = len c
  | other => disturb a m !! p = other
  end.
Proof.
  assert (Hsame : match m !! p with
                  | Some (File c) => exists c', m !! p = Some (File c') /\ len c' = len c
                  | other => m !! p = other
                  end).
  { destruct (m !! p) as [[c | | t] |]; eauto. }
  destruct a as [| e | q i b]; simpl; try exact Hsame.
  destruct (m !! q) as [[cq | | tq] |] eqn:E; try exact Hsame.
  destruct (decide (q = p)) as [-> | Hne].
  - rewrite E. exists (<[i := b]> cq). rewrite lookup_insert_eq.
    split; [reflexivity |]. unfold len. rewrite length_insert. reflexivity.
  - rewrite lookup_insert_ne by exact Hne. exact Hsame.
Qed.

Lemma resolve_disturb a hops :
  forall m p,
    match resolve hops m p with
    | Some (q, File c) =>
        exists c', resolve hops (disturb a m) p = Some (q, File c') /\ len c' = len c
    | other => resolve hops (disturb a m) p = other
    end.
Proof.
  induction hops as [| h IH]; intros m p; cbn [resolve];
    pose proof (disturb_lookup a m p) as Hl;
    destruct (m !! p) as [[c | | t] |] eqn:E.
  - destruct Hl as (c' & -> & Hlen). eauto.
  - rewrite Hl. reflexivity.
  - rewrite Hl. reflexivity.
  - rewrite Hl. reflexivity.
  - destruct Hl as (c' & -> & Hlen). eauto.
  - rewrite Hl. reflexivity.
  - rewrite Hl. apply IH.
  - rewrite Hl. reflexivity.
Qed.

Lemma stat_sees_disturb a m p : stat_sees (disturb a m) p = stat_sees m p.
Proof.
  unfold stat_sees. pose proof (resolve_disturb a max_hops m p) as H.
  destruct (resolve max_hops m p) as [[q [c | | t]] |].
  - destruct H as (c' & -> & Hlen). rewrite Hlen. reflexivity.
  - rewrite H. reflexivity.
  - rewrite H. reflexivity.
  - rewrite H. reflexivity.
Qed.

(** A size query that succeeds reports what [stat] sees, before and
    after; the size is not negative. *)
Lemma stat_size_sees p w n w' :
  stat_size p w = (Ok n, w') ->
  stat_sees (fs w) p = Some n /\ stat_sees (fs w') p = Some n /\ 0 <= n.
Proof.
  unfold stat_size, syscall. intros H.
  set (a := hd Quiet (env w)) in *.
  assert (Hrun : match resolve max_hops (disturb a (fs w)) p with
                 | Some (_, File c) => n = len c /\ fs w' = disturb a (fs w)
                 | Some (_, Dir) => n = 4096 /\ fs w' = disturb a (fs w)
                 | _ => False
                 end).
  { destruct a as [| e | q i b]; try discriminate;
      destruct (resolve max_hops _ p) as [[r [c | | t]] |]; try discriminate;
      injection H as <- <-; auto. }
  rewrite <- (stat_sees_disturb a (fs w) p). unfold stat_sees.
  destruct (resolve max_hops (disturb a (fs w)) p) as [[r [c | | t]] |] eqn:R;
    try contradiction; destruct Hrun as [-> ->]; rewrite R.
  - pose proof (len_nonneg c). auto.
  - split; [reflexivity |]. split; [reflexivity | lia].
Qed.

Lemma prints_last_print {A : Type} msg (x : A) :
  prints_last msg (let* _ := print msg in ret x).
Proof.
  intros w y w' H. unfold bind, print, ret in H. injection H as _ <-.
  exists []. reflexivity.
Qed.

Lemma prints_last_bind {A B : Type} msg (C : op -> Prop) (m : M A) (k : A -> M B) :
  sat (log_grows (calls_in C)) m -> (forall a, prints_last msg (k a)) ->
  prints_last msg (bind m k).
Proof.
  intros Hm Hk w y w' H.
  split_bind H as a w1 Ha Hka; [| discriminate | discriminate].
  destruct (sat_run _ _ _ _ _ Hm Ha) as (n1 & L1 & _).
  destruct (Hk a w1 y w' Hka) as (n & L).
  exists (n ++ n1). rewrite L, L1, <- app_assoc. reflexivity.
Qed.

(** A call of the overwrite passes grows the log by itself. *)
Lemma grows_call {A : Type} o (sem : gmap Path node -> errno + (A * gmap Path node)) :
  overwrite_call o -> sat (log_grows (calls_in overwrite_call)) (syscall o sem).
Proof. apply log_grows_syscall. Qed.

Lemma grows_drop_cache f size :
  sat (log_grows (calls_in overwrite_call)) (linux_drop_page_cache_best_effort f size).
Proof. apply sat_drop_cache; try exact _. intros g off n. apply grows_call. exact I. Qed.

(** A pass that returns has printed its line, last. *)
Lemma run_pass_prints fuel f p passes size chunk verify vs vl drop :
  prints_last (MsgPassComplete p passes verify)
              (run_pass fuel f p passes size chunk verify vs vl drop).
Proof.
  unfold run_pass.
  apply (prints_last_bind _ overwrite_call).
  { destruct verify; [apply sat_choose_samples; try exact _; apply log_grows_draw |].
    apply sat_ret. exact _. }
  intros samples. apply (prints_last_bind _ overwrite_call).
  { apply sat_fresh_expected. exact _. }
  intros expected. cbv zeta. apply (prints_last_bind _ overwrite_call).
  { apply grows_call. exact I. }
  intros f1. apply (prints_last_bind _ overwrite_call).
  { apply sat_stream_loop; try exact _; [apply log_grows_draw |].
    intros g data. apply grows_call. exact I. }
  intros st. apply (prints_last_bind _ overwrite_call).
  { apply grows_call. exact I. }
  intros u1. apply (prints_last_bind _ overwrite_call).
  { apply grows_call. exact I. }
  intros u2. apply (prints_last_bind _ overwrite_call).
  { destruct drop; [apply grows_drop_cache | apply sat_ret; exact _]. }
  intros u3. apply (prints_last_bind _ overwrite_call).
  { apply sat_verify_pass; try exact _.
    - intros g off. apply grows_call. exact I.
    - intros g n. apply grows_call. exact I.
    - apply grows_drop_cache. }
  intros f2. apply prints_last_print.
Qed.

(** The loop over the passes, when it returns, has printed the line of
    every pass it was given. *)
Lemma pass_loop_complete fuel ps :
  forall f passes size chunk verify vs vl drop w w',
    pass_loop fuel f ps passes size chunk verify vs vl drop w = (Ok tt, w') ->
    exists new,
      log w' = new ++ log w /\
      forall p, p ∈ ps -> Print (MsgPassComplete p passes verify) ∈ new.
Proof.
  induction ps as [| p0 rest IH]; intros f passes size chunk verify vs vl drop w w' H;
    cbn [pass_loop] in H.
  - unfold ret in H. injection H as <-. exists []. split; [reflexivity |].
    intros p Hp. apply elem_of_nil in Hp. destruct Hp.
  - split_bind H as f1 w1 Hrun Hrest; [| discriminate | discriminate].
    destruct (run_pass_prints _ _ _ _ _ _ _ _ _ _ _ _ _ Hrun) as (n1 & L1).
    destruct (IH _ _ _ _ _ _ _ _ _ _ Hrest) as (n2 & L2 & Hin).
    exists (n2 ++ Print (MsgPassComplete p0 passes verify) :: n1). split.
    + rewrite L2, L1, <- app_assoc. reflexivity.
    + intros p Hp. apply elem_of_app. apply elem_of_cons in Hp as [-> | Hp].
      * right. apply elem_of_cons. left. reflexivity.
      * left. apply Hin, Hp.
Qed.

Lemma elem_of_py_range lo hi p : lo <= p < hi -> p ∈ py_range lo hi.
Proof.
  intros Hp. unfold py_range.
  change (p ∈ (fun k => lo + Z.of_nat k) <$> seq 0 (Z.to_nat (hi - lo))).
  apply (list_elem_of_fmap_2' _ _ (Z.to_nat (p - lo))).
  - apply elem_of_seq. lia.
  - lia.
Qed.

(** The overwrite of a file that [stat] sees as not empty, when it
    returns, has logged calls of the overwrite passes only, and among them
    the line of every pass from 1 to [passes]. *)
Lemma overwrite_completes fuel path passes chunk verify vs vl drop w w' n :
  stat_sees (fs w) path = Some n -> n <> 0 ->
  overwrite_random_streaming fuel path passes chunk verify vs vl drop w = (Ok tt, w') ->
  exists new,
    log w' = new ++ log w /\
    forall p, 1 <= p <= passes -> Print (MsgPassComplete p passes verify) ∈ new.
Proof.
  intros Hsees Hn H. unfold overwrite_random_streaming in H.
  split_bind H as size w1 Hstat Hk; [| discriminate | discriminate].
  destruct (stat_size_sees _ _ _ _ Hstat) as (Hs1 & _ & _).
  assert (size = n) as -> by congruence.
  destruct (sat_run _ _ _ _ _ (grows_call (OpStat path) _ I) Hstat) as (n1 & L1 & _).
  destruct (Z.eqb_spec n 0) as [| _]; [contradiction |].
  unfold with_open in Hk.
  split_bind Hk as f w2 Hopen Hbody; [| discriminate | discriminate].
  destruct (sat_run _ _ _ _ _ (grows_call (OpOpen path) _ I) Hopen) as (n2 & L2 & _).
  unfold try_finally in Hbody.
  destruct (pass_loop fuel f (py_range 1 (passes + 1)) passes n chunk verify vs vl drop w2)
    as [[[] | e |] wb] eqn:Hloop; try discriminate.
  2:{ destruct (close f wb) as [[[] | e' |] wc]; discriminate. }
  destruct (close f wb) as [[[] | e' |] wc] eqn:Hclose; try discriminate.
  injection Hbody as <-.
  destruct (sat_run _ _ _ _ _ (grows_call (OpClose (f_path f)) _ I) Hclose) as (n4 & L4 & _).
  destruct (pass_loop_complete _ _ _ _ _ _ _ _ _ _ _ _ Hloop) as (n3 & L3 & Hin).
  exists (n4 ++ n3 ++ n2 ++ n1). split.
  - rewrite L4, L3, L2, L1, <- !app_assoc. reflexivity.
  - intros p Hp. apply elem_of_app. right. apply elem_of_app. left.
    apply Hin, elem_of_py_range. lia.
Qed.

Lemma no_deletion_of_overwrite (new : list event) :
  Forall (calls_in overwrite_call) new -> Forall (fun ev => ~ deletion_event ev) new.
Proof.
  intros H. eapply Forall_impl; [exact H |].
  intros [c | c e | m | s]; unfold deletion_event; simpl; auto;
    destruct c; simpl; tauto.
Qed.

(** A pass count that was returned lies between valid bounds. *)
Lemma build_pass_count_inv lo hi r w n w' :
  build_pass_count lo hi r w = (Ok n, w') -> 1 <= lo /\ lo <= n <= hi.
Proof.
  intros H.
  destruct (Z.lt_ge_cases lo 1) as [Hlo | Hlo].
  { rewrite (build_pass_count_invalid lo hi r w (or_introl Hlo)) in H. discriminate. }
  destruct (Z.lt_ge_cases hi lo) as [Hhi | Hhi].
  { rewrite (build_pass_count_invalid lo hi r w (or_intror Hhi)) in H. discriminate. }
  destruct (build_pass_count_returns lo hi r w ltac:(lia) Hhi) as (n0 & w0 & Hrun & Hb & _).
  rewrite Hrun in H. injection H as <- _. lia.
Qed.

(** The stages of [wipe_file] before the deletion sequence log calls of
    the overwrite passes only. *)
Lemma grows_confirm p o : sat (log_grows (calls_in overwrite_call)) (confirm p o).
Proof. apply (sat_both_l _ kinds_kept), undeleted_confirm. Qed.

Lemma grows_build_pass_count lo hi r :
  sat (log_grows (calls_in overwrite_call)) (build_pass_count lo hi r).
Proof. apply sat_build_pass_count; [exact _ | apply log_grows_draw]. Qed.

Lemma grows_overwrite fuel p passes chunk verify vs vl drop :
  sat (log_grows (calls_in overwrite_call))
      (overwrite_random_streaming fuel p passes chunk verify vs vl drop).
Proof. apply log_grows_overwrite. auto. Qed.

Lemma wipe_checked_order fuel target o w :
  exists new,
    log (wipe_checked fuel target o w).2 = new ++ log w /\
    (Forall (fun ev => ~ deletion_event ev) new \/
     exists size passes,
       Print (MsgPlan size passes (chunk_size o)) ∈ new /\
       1 <= min_passes o <= passes /\ passes <= max_passes o /\
       ((size = 0 /\ Print MsgZeroBytes ∈ new) \/
        (0 < size /\
         forall p, 1 <= p <= passes ->
                   Print (MsgPassComplete p passes (verify o)) ∈ new))).
Proof.
  assert (Hearly : forall w',
            log_grows (calls_in overwrite_call) w Returned w' ->
            exists new, log w' = new ++ log w /\
                        (Forall (fun ev => ~ deletion_event ev) new \/
                         exists size passes,
                           Print (MsgPlan size passes (chunk_size o)) ∈ new /\
                           1 <= min_passes o <= passes /\ passes <= max_passes o /\
                           ((size = 0 /\ Print MsgZeroBytes ∈ new) \/
                            (0 < size /\
                             forall p, 1 <= p <= passes ->
                                       Print (MsgPassComplete p passes (verify o)) ∈ new)))).
  { intros w' (new & L & F). exists new. split; [exact L |]. left.
    apply no_deletion_of_overwrite, F. }
  destruct (wipe_checked fuel target o w) as [r w'] eqn:H. cbn [snd].
  unfold wipe_checked in H.
  split_bind H as go w1 Hm1 H1.
  2:{ apply Hearly. eapply insensitive. exact (sat_run _ _ _ _ _ (grows_confirm _ _) Hm1). }
  2:{ apply Hearly. eapply insensitive. exact (sat_run _ _ _ _ _ (grows_confirm _ _) Hm1). }
  pose proof (sat_run _ _ _ _ _ (grows_confirm _ _) Hm1) as Q1. cbn [outcome_of] in Q1.
  destruct go; cbv beta iota delta [negb] in H1.
  2:{ unfold ret in H1. injection H1 as _ <-. apply Hearly, Q1. }
  split_bind H1 as passes w2 Hm2 H2.
  2:{ apply Hearly. eapply seq_then; [exact Q1 |]. eapply insensitive.
      exact (sat_run _ _ _ _ _ (grows_build_pass_count _ _ _) Hm2). }
  2:{ apply Hearly. eapply seq_then; [exact Q1 |]. eapply insensitive.
      exact (sat_run _ _ _ _ _ (grows_build_pass_count _ _ _) Hm2). }
  pose proof (sat_run _ _ _ _ _ (grows_build_pass_count _ _ _) Hm2) as Q2.
  cbn [outcome_of] in Q2.
  destruct (build_pass_count_inv _ _ _ _ _ _ Hm2) as (Hlo & Hpasses).
  pose proof (seq_then _ _ _ _ Q1 Q2) as Q12.
  split_bind H2 as size w3 Hm3 H3.
  2:{ apply Hearly. eapply seq_then; [exact Q12 |]. eapply insensitive.
      exact (sat_run _ _ _ _ _ (grows_call (OpStat target) _ I) Hm3). }
  2:{ apply Hearly. eapply seq_then; [exact Q12 |]. eapply insensitive.
      exact (sat_run _ _ _ _ _ (grows_call (OpStat target) _ I) Hm3). }
  pose proof (sat_run _ _ _ _ _ (grows_call (OpStat target) _ I) Hm3) as Q3.
  cbn [outcome_of] in Q3.
  destruct (stat_size_sees _ _ _ _ Hm3) as (_ & Hsees & Hsize).
  pose proof (seq_then _ _ _ _ Q12 Q3) as Q123.
  destruct Q123 as (npre & Lpre & Fpre).
  split_bind H3 as u4 w4 Hm4 H4; [| discriminate | discriminate].
  unfold print in Hm4. injection Hm4 as _ <-.
  set (plan := Print (MsgPlan size passes (chunk_size o))) in *.
  assert (Q4 : log_grows (calls_in overwrite_call) w Returned (add_log plan w3)).
  { exists (plan :: npre). split; [simpl; rewrite Lpre; reflexivity |].
    constructor; [exact I | exact Fpre]. }
  split_bind H4 as u5 w5 Hm5 H5.
  2:{ apply Hearly. eapply seq_then; [exact Q4 |]. eapply insensitive.
      destruct (0 <? size).
      - exact (sat_run _ _ _ _ _ (grows_overwrite _ _ _ _ _ _ _ _) Hm5).
      - exact (sat_run _ _ _ _ _ (log_grows_print _ _) Hm5). }
  2:{ apply Hearly. eapply seq_then; [exact Q4 |]. eapply insensitive.
      destruct (0 <? size).
      - exact (sat_run _ _ _ _ _ (grows_overwrite _ _ _ _ _ _ _ _) Hm5).
      - exact (sat_run _ _ _ _ _ (log_grows_print _ _) Hm5). }
  (* the overwrite stage returned: the deletion sequence runs *)
  assert (exists n5,
            log w5 = n5 ++ plan :: npre ++ log w /\
            ((size = 0 /\ Print MsgZeroBytes ∈ n5) \/
             (0 < size /\
              forall p, 1 <= p <= passes ->
                        Print (MsgPassComplete p passes (verify o)) ∈ n5)))
    as (n5 & L5 & Hdone).
  { destruct (Z.ltb_spec 0 size) as [Hpos | Hzero].
    - destruct u5.
      destruct (overwrite_completes _ _ _ _ _ _ _ _ (add_log plan w3) _ size
                            Hsees ltac:(lia) Hm5)
        as (n5 & L5 & Hin).
      exists n5. split; [rewrite L5; simpl; rewrite Lpre; reflexivity |].
      right. split; [exact Hpos | exact Hin].
    - unfold print in Hm5. injection Hm5 as _ <-.
      exists [Print MsgZeroBytes]. split; [simpl; rewrite Lpre; reflexivity |].
      left. split; [lia |]. apply elem_of_cons. left. reflexivity. }
  assert (exists n6, log w' = n6 ++ log w5) as (n6 & L6).
  { split_bind H5 as final w6 Hm6 H6.
    - destruct (sat_run _ _ _ _ _ (log_grows_delete (fun _ => True) _ _ _ (fun _ _ => I)) Hm6)
        as (n6 & L6 & _).
      destruct (keep o); unfold print in H6; injection H6 as _ <-;
        eexists (_ :: n6); simpl; rewrite L6; reflexivity.
    - destruct (sat_run _ _ _ _ _ (log_grows_delete (fun _ => True) _ _ _ (fun _ _ => I)) Hm6)
        as (n6 & L6 & _).
      exists n6. exact L6.
    - destruct (sat_run _ _ _ _ _ (log_grows_delete (fun _ => True) _ _ _ (fun _ _ => I)) Hm6)
        as (n6 & L6 & _).
      exists n6. exact L6. }
  exists (n6 ++ n5 ++ plan :: npre). split.
  { rewrite L6, L5, <- !app_assoc. reflexivity. }
  right. exists size, passes. split; [| split; [lia | split; [lia |]]].
  { apply elem_of_app. right. apply elem_of_app. right. apply elem_of_cons. left.
    reflexivity. }
  destruct Hdone as [[Hz Hin] | [Hpos Hin]].
  - left. split; [exact Hz |]. apply elem_of_app. right. apply elem_of_app. left. exact Hin.
  - right. split; [exact Hpos |]. intros p Hp.
    apply elem_of_app. right. apply elem_of_app. left. apply Hin, Hp.
Qed.

(** X16. On every device, whatever fails: [wipe_file] attempts no
    rename, truncation or unlink unless the overwrite stage has returned
    normally. Either the log of the wipe holds no such call, done or
    failed; or it holds the plan line with the size found and a pass count
    within valid bounds [1 <= min_passes <= passes <= max_passes], and
    then either the size is 0 and the line that overwrites are skipped was
    printed, or the size is positive and the completion line of every pass
    from 1 to [passes] was printed - the line that is the last statement
    of a pass. *)
Theorem deletion_only_after_all_passes
    (fuel : nat) (target : Path) (o : options) (w : world) :
  exists new,
    log (wipe_file fuel target o w).2 = new ++ log w /\
    (Forall (fun ev => ~ deletion_event ev) new \/
     exists size passes,
       Print (MsgPlan size passes (chunk_size o)) ∈ new /\
       1 <= min_passes o <= passes /\ passes <= max_passes o /\
       ((size = 0 /\ Print MsgZeroBytes ∈ new) \/
        (0 < size /\
         forall p, 1 <= p <= passes ->
                   Print (MsgPassComplete p passes (verify o)) ∈ new))).
Proof.
  destruct (fs w !! target) as [[c | | t] |] eqn:E.
  - rewrite (wipe_file_regular _ _ _ _ _ E). apply wipe_checked_order.
  - destruct (wipe_file_refusal fuel target o w) as (e & -> & _).
    { intros c. rewrite E. discriminate. }
    exists []. split; [reflexivity |]. left. constructor.
  - destruct (wipe_file_refusal fuel target o w) as (e & -> & _).
    { intros c. rewrite E. discriminate. }
    exists []. split; [reflexivity |]. left. constructor.
  - destruct (wipe_file_refusal fuel target o w) as (e & -> & _).
    { intros c. rewrite E. discriminate. }
    exists []. split; [reflexivity |]. left. constructor.
Qed.

(** The ten-byte file on the device that alters a byte: whatever the log
    of that wipe holds, it obeys the order. *)
Lemma deletion_only_after_all_passes_witness :
  exists new,
    log (wipe_file 10 tmp_secret small_options corrupted_world).2
      = new ++ log corrupted_world /\
    (Forall (fun ev => ~ deletion_event ev) new \/
     exists size passes,
       Print (MsgPlan size passes (chunk_size small_options)) ∈ new /\
       1 <= min_passes small_options <= passes /\
       passes <= max_passes small_options /\
       ((size = 0 /\ Print MsgZeroBytes ∈ new) \/
        (0 < size /\
         forall p, 1 <= p <= passes ->
                   Print (MsgPassComplete p passes (verify small_options)) ∈ new))).
Proof.
  exact (deletion_only_after_all_passes 10 tmp_secret small_options corrupted_world).
Defined.

(* --------------------------------------------------------------------- *)
(** ** The targets, one after the other *)
(* --------------------------------------------------------------------- *)


(* --------------------------------------------------------------------- *)
(** ** The read-back only reads *)
(* --------------------------------------------------------------------- *)

#[global] Instance untouched_sequential : Sequential untouched.
Proof.
  split.
  - intros w t Hc. auto.
  - intros w w1 w' t H1 H2 Hc. destruct (H1 Hc) as [Hc1 E1].
    destruct (H2 Hc1) as [Hc' E2]. split; [exact Hc' | congruence].
Qed.

#[global] Instance untouched_insensitive : Insensitive untouched.
Proof. intros w t t' w' H. exact H. Qed.

Lemma untouched_reader {A : Type} o
    (sem : gmap Path node -> errno + (A * gmap Path node)) :
  (forall m x m', sem m = inr (x, m') -> m' = m) -> sat untouched (syscall o sem).
Proof.
  intros Hs w Hc. rewrite (syscall_calm o sem w Hc).
  destruct (sem (fs w)) as [e | [x m']] eqn:S; cbn [fst snd].
  - split; [apply (calm_after_failure o e), Hc | reflexivity].
  - split; [apply (calm_after_call o m'), Hc | apply (Hs _ _ _ S)].
Qed.

(** X18. The block that ends a pass - the capture check, the read-back
    and the second cache hint - only reads. On every device the calls it
    issues are seeks, reads and the cache hint, never a write, and no entry
    appears, disappears or changes kind; on a calm device the entries,
    content included, are exactly what they were. *)
Theorem verification_only_reads
    (f : file) (p size : Z) (verify drop_cache_linux : bool)
    (samples : list Sample) (expected filled : list bytearray) (w : world) :
  (exists new,
      log (verify_pass f p size verify drop_cache_linux samples expected filled w).2
        = new ++ log w /\
      Forall (calls_in verify_call) new) /\
  (forall q,
      kind_of (fs (verify_pass f p size verify drop_cache_linux samples expected
                     filled w).2 !! q) = kind_of (fs w !! q)) /\
  (calm w ->
   fs (verify_pass f p size verify drop_cache_linux samples expected filled w).2 = fs w).
Proof.
  split; [| split].
  - apply (sat_verify_pass (log_grows (calls_in verify_call))).
    + intros g off. apply log_grows_syscall. exact I.
    + intros g n. apply log_grows_syscall. exact I.
    + intros g n. apply sat_drop_cache; try exact _.
      intros h off k. apply log_grows_syscall. exact I.
  - apply (sat_verify_pass kinds_kept).
    + intros g off. apply kinds_kept_reader. intros m x m' S.
      destruct (off <? 0); congruence.
    + intros g n. apply kinds_kept_reader. intros m x m' S.
      destruct (m !! f_path g) as [[c | | t] |]; congruence.
    + intros g n. apply sat_drop_cache; try exact _.
      intros h off k. apply kinds_kept_reader. congruence.
  - intros Hc.
    apply (sat_verify_pass untouched); [| | | exact Hc].
    + intros g off. apply untouched_reader. intros m x m' S.
      destruct (off <? 0); congruence.
    + intros g n. apply untouched_reader. intros m x m' S.
      destruct (m !! f_path g) as [[c | | t] |]; congruence.
    + intros g n. apply sat_drop_cache; try exact _.
      intros h off k. apply untouched_reader. congruence.
Qed.

(** The read-back of the two samples over the ten-byte file, which does not
    hold what the buffers expect: a mismatch is raised, nothing changed. *)
Lemma verification_only_reads_witness :
  fs (verify_pass secret_handle 1 10 true true two_samples
        [replicate 3 x00; replicate 3 x00] [replicate 3 x01; replicate 3 x01]
        (ten_bytes_world [])).2
  = fs (ten_bytes_world []).
Proof.
  apply (verification_only_reads secret_handle 1 10 true true two_samples
           [replicate 3 x00; replicate 3 x00] [replicate 3 x01; replicate 3 x01]
           (ten_bytes_world [])).
  constructor.
Defined.
